(** * CUBE and ROLLUP group-by over a tabular engine

    A shallow embedding of [cubing_in_pandas.py]: the five helpers
    ([_cols_normalize], [_check_no_interleaving_cols],
    [_get_cube_combinations], [_get_rollup_combinations],
    [_get_grouping_filling]) and the driver [cubinggroupby], together with
    the properties the specification states about them. *)

From stdpp Require Import base countable gmap sets list strings sorting.
From Stdlib Require Import ZArith Lia.


(** ** Python values

    The arguments of the program are dynamically typed: a column
    specification is [None], a [str] or a [list]; the aggregation is a [str]
    or a [dict]; the fill specification is [None], a [dict] or any other
    object.  [pyval] is the fragment of Python's object universe these
    arguments range over.  A [dict] keeps its insertion order, so it is an
    association list.  [PyFunc] stands for a callable passed by reference
    (such as [pd.Series.nunique]).  Floats and booleans are left out: on the
    remaining values Python's [==] is structural equality. *)

Unset Elimination Schemes.
Inductive pyval : Type :=
  | PyNone
  | PyInt (z : Z)
  | PyStr (s : string)
  | PyFunc (name : string)
  | PyTuple (items : list pyval)
  | PyList (items : list pyval)
  | PyDict (entries : list (pyval * pyval)).
Set Elimination Schemes.

Section pyval_induction.
Variable P : pyval → Prop.
Hypothesis HNone : P PyNone.
Hypothesis HInt : ∀ z, P (PyInt z).
Hypothesis HStr : ∀ s, P (PyStr s).
Hypothesis HFunc : ∀ s, P (PyFunc s).
Hypothesis HTuple : ∀ l, Forall P l → P (PyTuple l).
Hypothesis HList : ∀ l, Forall P l → P (PyList l).
Hypothesis HDict :
  ∀ d, Forall (λ kv, P kv.1 ∧ P kv.2) d → P (PyDict d).

Fixpoint pyval_nested_ind (v : pyval) : P v :=
  match v with
  | PyNone => HNone
  | PyInt z => HInt z
  | PyStr s => HStr s
  | PyFunc s => HFunc s
  | PyTuple l =>
      HTuple l ((fix go l : Forall P l :=
                   match l with
                   | [] => Forall_nil_2 P
                   | x :: l' => Forall_cons_2 P x l' (pyval_nested_ind x) (go l')
                   end) l)
  | PyList l =>
      HList l ((fix go l : Forall P l :=
                  match l with
                  | [] => Forall_nil_2 P
                  | x :: l' => Forall_cons_2 P x l' (pyval_nested_ind x) (go l')
                  end) l)
  | PyDict d =>
      HDict d ((fix go d : Forall (λ kv, P kv.1 ∧ P kv.2) d :=
                  match d with
                  | [] => Forall_nil_2 _
                  | kv :: d' =>
                      Forall_cons_2 (λ kv, P kv.1 ∧ P kv.2) kv d'
                        (conj (pyval_nested_ind kv.1) (pyval_nested_ind kv.2)) (go d')
                  end) d)
  end.
End pyval_induction.

(** Values are countable (hence usable as elements of [gset]): they embed
    into stdpp's generic trees. *)

Fixpoint pyval_enc (v : pyval) : gen_tree (Z + string) :=
  match v with
  | PyNone => GenNode 0 []
  | PyInt z => GenLeaf (inl z)
  | PyStr s => GenLeaf (inr s)
  | PyFunc s => GenNode 1 [GenLeaf (inr s)]
  | PyTuple l => GenNode 2 (map pyval_enc l)
  | PyList l => GenNode 3 (map pyval_enc l)
  | PyDict d =>
      GenNode 4
        ((fix go (d : list (pyval * pyval)) :=
            match d with
            | [] => []
            | kv :: d' => pyval_enc kv.1 :: pyval_enc kv.2 :: go d'
            end) d)
  end.

Fixpoint pair_up {A} (l : list A) : list (A * A) :=
  match l with
  | k :: v :: l' => (k, v) :: pair_up l'
  | _ => []
  end.

Fixpoint pyval_dec (t : gen_tree (Z + string)) : pyval :=
  match t with
  | GenLeaf (inl z) => PyInt z
  | GenLeaf (inr s) => PyStr s
  | GenNode 0 _ => PyNone
  | GenNode 1 [GenLeaf (inr s)] => PyFunc s
  | GenNode 2 ts => PyTuple (map pyval_dec ts)
  | GenNode 3 ts => PyList (map pyval_dec ts)
  | GenNode 4 ts => PyDict (pair_up (map pyval_dec ts))
  | GenNode _ _ => PyNone
  end.

Lemma pyval_dec_enc v : pyval_dec (pyval_enc v) = v.
Proof.
  induction v as [| | | |l IH|l IH|d IH] using pyval_nested_ind; simpl; try done.
  - f_equal. induction IH as [|x l Hx _ IHl]; simpl; [done|]. by rewrite Hx, IHl.
  - f_equal. induction IH as [|x l Hx _ IHl]; simpl; [done|]. by rewrite Hx, IHl.
  - f_equal. induction IH as [|[k v] d [Hk Hv] _ IHd]; simpl in *; [done|].
    by rewrite Hk, Hv, IHd.
Qed.

Global Instance pyval_eq_dec : EqDecision pyval.
Proof.
  intros x y.
  destruct (decide (pyval_enc x = pyval_enc y)) as [He|Hne].
  - left. by rewrite <-(pyval_dec_enc x), <-(pyval_dec_enc y), He.
  - right. intros ->. by apply Hne.
Defined.

Global Instance pyval_countable : Countable pyval :=
  inj_countable' pyval_enc pyval_dec pyval_dec_enc.

Global Instance pyval_inhabited : Inhabited pyval := populate PyNone.

(** ** Exceptions and fallible computations *)

Inductive exn : Type :=
  | ValueError (msg : string)
  | TypeError
  | KeyError (key : pyval)
  | AttributeError
  | EngineError (msg : string).

Inductive result (A : Type) : Type :=
  | Return (a : A)
  | Raise (e : exn).
Arguments Return {A} a.
Arguments Raise {A} e.

Global Instance result_ret : MRet result := λ A a, Return a.
Global Instance result_bind : MBind result := λ A B f m,
  match m with
  | Return a => f a
  | Raise e => Raise e
  end.
Global Instance result_fmap : FMap result := λ A B f m,
  match m with
  | Return a => Return (f a)
  | Raise e => Raise e
  end.

Definition is_value_error {A} (r : result A) : bool :=
  match r with
  | Raise (ValueError _) => true
  | _ => false
  end.

(** ** The Python primitives the program uses *)

Definition isinstance_str (v : pyval) : bool :=
  match v with PyStr _ => true | _ => false end.

Definition isinstance_dict (v : pyval) : bool :=
  match v with PyDict _ => true | _ => false end.

Definition is_none (v : pyval) : bool :=
  match v with PyNone => true | _ => false end.

(** [hash(v)] succeeds: lists and dicts are unhashable, a tuple is hashable
    when its items are. *)
Fixpoint hashable (v : pyval) : bool :=
  match v with
  | PyNone | PyInt _ | PyStr _ | PyFunc _ => true
  | PyTuple l => forallb hashable l
  | PyList _ | PyDict _ => false
  end.

(** The iteration protocol: what [set(v)], [list(v)] and [for _ in v] walk
    over.  A dict iterates over its keys, a string over its characters;
    [None], integers and callables are not iterable. *)
Definition py_iter (v : pyval) : result (list pyval) :=
  match v with
  | PyTuple l | PyList l => Return l
  | PyDict d => Return d.*1
  | PyStr s => Return ((λ c, PyStr (String c "")) <$> String.list_ascii_of_string s)
  | PyNone | PyInt _ | PyFunc _ => Raise TypeError
  end.

(** [set(v)]: every element has to be hashable. *)
Definition py_set (v : pyval) : result (gset pyval) :=
  l ← py_iter v;
  if forallb hashable l then Return (list_to_set l) else Raise TypeError.

(** [a + b] on sequences of one kind (and on integers). *)
Definition py_add (a b : pyval) : result pyval :=
  match a, b with
  | PyList l, PyList k => Return (PyList (l ++ k))
  | PyTuple l, PyTuple k => Return (PyTuple (l ++ k))
  | PyStr s, PyStr t => Return (PyStr (String.append s t))
  | PyInt x, PyInt y => Return (PyInt (x + y))
  | _, _ => Raise TypeError
  end.

(** First binding of [k] in an insertion-ordered dict. *)
Fixpoint dict_lookup (k : pyval) (d : list (pyval * pyval)) : option pyval :=
  match d with
  | [] => None
  | (k', v) :: d' => if decide (k = k') then Some v else dict_lookup k d'
  end.

(** [obj.get(key, default)]: the attribute exists on dicts only, and a dict
    refuses an unhashable key. *)
Definition py_get (obj key dflt : pyval) : result pyval :=
  match obj with
  | PyDict d =>
      if hashable key then Return (default dflt (dict_lookup key d))
      else Raise TypeError
  | _ => Raise AttributeError
  end.

(** [itertools.combinations(x, r)]: the [r]-length subsequences of [x], in
    lexicographic order of the positions they take. *)
Fixpoint combinations {A} (x : list A) (r : nat) : list (list A) :=
  match r with
  | 0 => [[]]
  | S r' =>
      match x with
      | [] => []
      | a :: x' => map (cons a) (combinations x' r') ++ combinations x' r
      end
  end.

(** ** The helpers *)

(** [_cols_normalize(cols=None)] *)
Definition _cols_normalize (cols : pyval) : pyval :=
  if is_none cols then PyList []
  else if isinstance_str cols then PyList [cols]
  else cols.

(** [_check_no_interleaving_cols(normal_cols=None, cube_cols=None,
    rollup_cols=None)] *)
Definition _check_no_interleaving_cols
    (normal_cols cube_cols rollup_cols : pyval) : result bool :=
  normal_cols ← py_set (_cols_normalize normal_cols);
  cube_cols ← py_set (_cols_normalize cube_cols);
  rollup_cols ← py_set (_cols_normalize rollup_cols);
  let all_cols := normal_cols ∪ cube_cols ∪ rollup_cols in
  let all_lengths := size normal_cols + size cube_cols + size rollup_cols in
  Return (bool_decide (size all_cols = all_lengths)).

(** [_get_cube_combinations(x)]: both loops append to [res]. *)
Definition _get_cube_combinations {A} (x : list A) : list (list A) :=
  foldl (λ res comb_len,
           foldl (λ res comb, res ++ [comb]) res (combinations x comb_len))
        [] (seq 0 (length x + 1)).

(** [_get_rollup_combinations(x)]: [comb = tuple(x[:i])]. *)
Definition _get_rollup_combinations {A} (x : list A) : list (list A) :=
  foldl (λ res i, res ++ [take i x]) [] (seq 0 (length x + 1)).

(** [_get_grouping_filling(col_name, filling=None)]: the bare [except]
    turns every failure of the lookup into the fill specification itself. *)
Definition _get_grouping_filling (col_name filling : pyval) : pyval :=
  if is_none filling then PyNone
  else match py_get filling col_name PyNone with
       | Return v => v
       | Raise _ => filling
       end.

(** ** The runtime and the tabular engine

    Two things the program relies on are not part of its source.

    - The Python runtime decides in which order a [set] is iterated.  For
      strings the order follows the per-process hash seed, so [list(s)] is
      some permutation of the elements of [s], fixed within a run and free
      to change between runs. *)

Class Runtime := {
  hash_order : gset pyval → list pyval;
  hash_order_perm : ∀ X, hash_order X ≡ₚ elements X;
}.

(** - The aggregation engine is pandas, an external library. *)

(** Modelled from the spec: the engine provides group-by-and-aggregate over
    a column set with a named or keyed reduction, whole-table aggregation,
    concatenation of same-shaped results, sort-by-columns and column type
    coercion.  What depends on the values held in cells (reductions, column
    types and coercions, the order of cells) is kept abstract in [Engine];
    the table structure on top of it is written out below.  Four
    behaviours the spec leaves to the engine are pandas's: a group-by drops
    the rows with a null key, a sort refuses a label that several columns
    carry, an index cannot be made of no column, and an aggregation
    refuses an empty mapping.  The model covers tables whose
    column labels are distinct, reductions that give one cell per column,
    and scalar cell values. *)
Class Engine := {
  (** column types: [Series.dtype], [pd.api.types.is_integer_dtype] *)
  dtype : Type;
  dtype_of : list pyval → dtype;
  is_integer_dtype : dtype → bool;
  (** what [pd.to_numeric] and [Series.astype] make of one cell *)
  to_numeric : pyval → result pyval;
  astype : dtype → pyval → result pyval;
  (** a reduction, named by a string or passed as a callable, applied to
      the cells of one column *)
  reduce : pyval → list pyval → result pyval;
  (** the order sorts compare cells with *)
  cell_leb : pyval → pyval → bool;
}.

(** A table.  Each row lists the cells of the index levels (none for the
    default positional index) followed by the cells of the columns.  The
    input table and every intermediate table carry the default index, so
    the cell of the [i]-th column is the [i]-th cell of a row; only the
    final [set_index] adds index levels. *)
Record DataFrame : Type := mkDataFrame {
  index_names : list pyval;
  columns : list pyval;
  rows : list (list pyval);
}.

(** What the driver does, as seen from outside: one event per aggregation
    pass handed to the engine. *)
Inductive event : Type :=
  | EvAgg
  | EvGroupBy (groupby_cols : list pyval).

(** Computations that log events and may raise. *)
Record M (A : Type) : Type := mkM {
  trace : list event;
  outcome : result A;
}.
Arguments mkM {A} trace outcome.
Arguments trace {A} m.
Arguments outcome {A} m.

Global Instance M_ret : MRet M := λ A a, mkM [] (Return a).
Global Instance M_bind : MBind M := λ A B f m,
  match outcome m with
  | Return a => mkM (trace m ++ trace (f a)) (outcome (f a))
  | Raise e => mkM (trace m) (Raise e)
  end.

Definition lift {A} (r : result A) : M A := mkM [] r.
Definition tell (e : event) : M unit := mkM [e] (Return ()).

(** [for x in xs: s = body(s, x)] *)
Fixpoint for_each {Mon : Type → Type} `{MBind Mon, MRet Mon} {A S}
    (xs : list A) (body : S → A → Mon S) (s : S) : Mon S :=
  match xs with
  | [] => mret s
  | x :: xs' => s' ← body s x; for_each xs' body s'
  end.

Section engine.
Context `{Engine}.

(** Position of the first column labelled [c]: of the column labelled
    [c], in a table with distinct labels (where several columns carry the
    label, the engine takes them all). *)
Definition col_index (c : pyval) (cols : list pyval) : result nat :=
  match list_find (λ x, x = c) cols with
  | Some (i, _) => Return i
  | None => Raise (KeyError c)
  end.

(** Position of the only column labelled [c]; sorting refuses a label
    that is carried by several columns. *)
Definition unique_col_index (c : pyval) (cols : list pyval) : result nat :=
  i ← col_index c cols;
  if decide (c ∈ drop (S i) cols)
  then Raise (ValueError "The column label is not unique")
  else Return i.

Definition project (idxs : list nat) (r : list pyval) : list pyval :=
  (λ i, r !!! i) <$> idxs.

(** [df[c]] on a table with the default index. *)
Definition getitem (df : DataFrame) (c : pyval) : result (list pyval) :=
  i ← col_index c (columns df);
  Return ((λ r, r !!! i) <$> rows df).

(** [df[c] = cells]: overwrite the column, or append it when new. *)
Definition setitem (df : DataFrame) (c : pyval) (cells : list pyval)
    : DataFrame :=
  match list_find (λ x, x = c) (columns df) with
  | Some (i, _) =>
      mkDataFrame (index_names df) (columns df)
        (zip_with (λ r v, <[i:=v]> r) (rows df) cells)
  | None =>
      mkDataFrame (index_names df) (columns df ++ [c])
        (zip_with (λ r v, r ++ [v]) (rows df) cells)
  end.

(** [df[c] = v] for a scalar [v], which every row receives (a list-like
    [v] the engine spreads over the rows instead). *)
Definition setitem_scalar (df : DataFrame) (c v : pyval) : DataFrame :=
  setitem df c (replicate (length (rows df)) v).

(** [df[cols]] *)
Definition select (df : DataFrame) (cols : list pyval) : result DataFrame :=
  idxs ← mapM (λ c, col_index c (columns df)) cols;
  Return (mkDataFrame (index_names df) cols (project idxs <$> rows df)).

(** One reduction per entry of the aggregation mapping, over [rws]. *)
Definition aggregate_rows (cols : list pyval) (agg : list (pyval * pyval))
    (rws : list (list pyval)) : result (list pyval) :=
  mapM (λ cf, i ← col_index cf.1 cols;
              reduce cf.2 ((λ r, r !!! i) <$> rws)) agg.

(** [df.agg(agg).to_frame().T]: the whole table reduced to one row.  With
    an empty mapping there is no reduction to collect and the engine
    raises. *)
Definition df_agg (df : DataFrame) (agg : list (pyval * pyval))
    : result DataFrame :=
  if decide (agg = []) then Raise (ValueError "No objects to concatenate")
  else
    vals ← aggregate_rows (columns df) agg (rows df);
    Return (mkDataFrame [] agg.*1 [vals]).

(** Lexicographic order on tuples of cells. *)
Fixpoint lex_leb (k1 k2 : list pyval) : bool :=
  match k1, k2 with
  | [], _ => true
  | _ :: _, [] => false
  | a :: k1', b :: k2' =>
      if decide (a = b) then lex_leb k1' k2' else cell_leb a b
  end.

Definition sort_by (key : list pyval → list pyval)
    (rws : list (list pyval)) : list (list pyval) :=
  merge_sort (λ r1 r2, lex_leb (key r1) (key r2)) rws.

Definition notnull (k : list pyval) : Prop := Forall (λ v, v ≠ PyNone) k.

(** The group keys of [df.groupby(by)]: the distinct combinations of the
    key columns, over the rows in which no key is null, in sorted order.
    Dropping the rows with a null key is the engine's default ([dropna]);
    the expected table of [test_cubinggroupby] has no group for them. *)
Definition group_keys (idxs : list nat) (rws : list (list pyval))
    : list (list pyval) :=
  sort_by id (remove_dups (filter notnull (project idxs <$> rws))).

(** [df.groupby(by, as_index=False).agg(agg)]: the keys are looked up
    by [groupby]; [agg] then refuses an empty mapping as it does for the
    whole table. *)
Definition df_groupby_agg (df : DataFrame) (by_cols : list pyval)
    (agg : list (pyval * pyval)) : result DataFrame :=
  idxs ← mapM (λ c, col_index c (columns df)) by_cols;
  if decide (agg = []) then Raise (ValueError "No objects to concatenate")
  else
    out ← mapM (λ k,
                  vals ← aggregate_rows (columns df) agg
                           (filter (λ r, project idxs r = k) (rows df));
                  Return (k ++ vals))
               (group_keys idxs (rows df));
    Return (mkDataFrame [] (by_cols ++ agg.*1) out).

(** [pd.concat(dfs, ignore_index=True)] for tables that share their
    columns, as all per-pass results do. *)
Definition concat (dfs : list DataFrame) : result DataFrame :=
  match dfs with
  | [] => Raise (ValueError "No objects to concatenate")
  | d :: _ => Return (mkDataFrame [] (columns d) (mjoin (rows <$> dfs)))
  end.

(** [df.sort_values(by)] *)
Definition sort_values (df : DataFrame) (by_cols : list pyval)
    : result DataFrame :=
  idxs ← mapM (λ c, unique_col_index c (columns df)) by_cols;
  Return (mkDataFrame (index_names df) (columns df)
            (sort_by (project idxs) (rows df))).

(** [df.reset_index(drop=True)]: the index levels are dropped. *)
Definition reset_index_drop (df : DataFrame) : DataFrame :=
  mkDataFrame [] (columns df) (drop (length (index_names df)) <$> rows df).

(** [df.set_index(keys)]: the key columns become the index levels and
    leave the columns.  The engine refuses an empty list of keys. *)
Definition set_index (df : DataFrame) (keys : list pyval)
    : result DataFrame :=
  if decide (keys = [])
  then Raise (ValueError "Must pass non-zero number of levels/codes")
  else
    idxs ← mapM (λ c, col_index c (columns df)) keys;
    let rest := filter (λ i, columns df !!! i ∉ keys)
                       (seq 0 (length (columns df))) in
    Return (mkDataFrame keys (project rest (columns df))
              ((λ r, project idxs r ++ project rest r) <$> rows df)).

(** [df.sort_index()] *)
Definition sort_index (df : DataFrame) : DataFrame :=
  mkDataFrame (index_names df) (columns df)
    (sort_by (take (length (index_names df))) (rows df)).
End engine.

(** ** The driver *)

(** What lines 105-128 of [cubinggroupby] fix before any pass: the three
    normalized column lists, their concatenation, the value columns, the
    aggregation in mapping form and the column order of the result. *)
Record plan : Type := mkPlan {
  plan_normal_cols : list pyval;
  plan_cube_cols : list pyval;
  plan_rollup_cols : list pyval;
  plan_all_groupby_cols : list pyval;
  plan_value_cols : list pyval;
  plan_agg : list (pyval * pyval);
  plan_result_cols : list pyval;
}.

(** A Python object used as a list from here on. *)
Definition as_list (v : pyval) : result (list pyval) :=
  match v with
  | PyList l => Return l
  | _ => Raise TypeError
  end.

Section driver.
Context `{Engine} `{Runtime}.

(** Lines 105-128: normalization, the overlap check, the dispatch on the
    shape of [agg], and [result_cols].  [result_cols] is
    [all_groupby_cols + value_cols] with [value_cols] a list, which Python
    evaluates only when [all_groupby_cols], hence each of the three column
    specifications, is a list. *)
Definition resolve (df : DataFrame)
    (normal_cols cube_cols rollup_cols agg : pyval) : result plan :=
  let normal_cols := _cols_normalize normal_cols in
  let cube_cols := _cols_normalize cube_cols in
  let rollup_cols := _cols_normalize rollup_cols in
  ok ← _check_no_interleaving_cols normal_cols cube_cols rollup_cols;
  if negb ok
  then Raise (ValueError "the columns to be grouped by should be different")
  else
    nc ← py_add normal_cols cube_cols;
    all_groupby_cols ← py_add nc rollup_cols;
    va ← (if isinstance_str agg then
            grouping ← py_set all_groupby_cols;
            let value_cols :=
              hash_order (list_to_set (columns df) ∖ grouping) in
            let grouping_func := agg in
            Return (value_cols, (λ x, (x, grouping_func)) <$> value_cols)
          else match agg with
               | PyDict d => Return (d.*1, d)
               | _ => Raise (ValueError
                               "the agg parameter should be only str or dict")
               end);
    let value_cols := va.1 in
    let agg := va.2 in
    result_cols ← py_add all_groupby_cols (PyList value_cols) ≫= as_list;
    all_groupby_cols ← as_list all_groupby_cols;
    normal_cols ← as_list normal_cols;
    cube_cols ← as_list cube_cols;
    rollup_cols ← as_list rollup_cols;
    Return (mkPlan normal_cols cube_cols rollup_cols all_groupby_cols
              value_cols agg result_cols).

(** The cell a folded column ends up holding (lines 154-170): the resolved
    fill value, re-typed after the column of the input table. *)
Definition folded_cell (df : DataFrame) (fill_grouping : pyval)
    (single_remaining_col : pyval) : result pyval :=
  let dim_value_to_fill :=
    _get_grouping_filling single_remaining_col fill_grouping in
  orig ← getitem df single_remaining_col;
  let original_dtype := dtype_of orig in
  if is_integer_dtype original_dtype && is_none dim_value_to_fill
  then to_numeric dim_value_to_fill
  else astype original_dtype dim_value_to_fill.

(** Lines 153-170, the body of the loop over [remaining_cols]. *)
Definition fill_folded (df : DataFrame) (fill_grouping : pyval)
    (single_result : DataFrame) (single_remaining_col : pyval)
    : result DataFrame :=
  let dim_value_to_fill :=
    _get_grouping_filling single_remaining_col fill_grouping in
  let single_result :=
    setitem_scalar single_result single_remaining_col dim_value_to_fill in
  orig ← getitem df single_remaining_col;
  let original_dtype := dtype_of orig in
  col ← getitem single_result single_remaining_col;
  if is_integer_dtype original_dtype && is_none dim_value_to_fill
  then
    col' ← mapM to_numeric col;
    Return (setitem single_result single_remaining_col col')
  else
    col' ← mapM (astype original_dtype) col;
    Return (setitem single_result single_remaining_col col').

(** Lines 137-172, one pass of the double loop. *)
Definition cubing_pass (df : DataFrame) (p : plan) (fill_grouping : pyval)
    (cube_single_comb rollup_single_comb : list pyval) : M DataFrame :=
  let groupby_cols :=
    (plan_normal_cols p ++ cube_single_comb) ++ rollup_single_comb in
  let remaining_cols :=
    hash_order (list_to_set (plan_all_groupby_cols p)
                ∖ list_to_set groupby_cols) in
  single_result ←
    (if decide (groupby_cols = [])
     then _ ← tell EvAgg; lift (df_agg df (plan_agg p))
     else _ ← tell (EvGroupBy groupby_cols);
          lift (df_groupby_agg df groupby_cols (plan_agg p)));
  single_result ←
    lift (for_each remaining_cols (fill_folded df fill_grouping)
            single_result);
  lift (select single_result (plan_result_cols p)).

(** [cubinggroupby(df, normal_cols=None, cube_cols=None, rollup_cols=None,
    agg=None, fill_grouping=None, as_index=True)] *)
Definition cubinggroupby (df : DataFrame)
    (normal_cols cube_cols rollup_cols agg fill_grouping : pyval)
    (as_index : bool) : M DataFrame :=
  p ← lift (resolve df normal_cols cube_cols rollup_cols agg);
  let cube_combs := _get_cube_combinations (plan_cube_cols p) in
  let rollup_combs := _get_rollup_combinations (plan_rollup_cols p) in
  comb_result_dfs ←
    for_each cube_combs (λ comb_result_dfs cube_single_comb,
      for_each rollup_combs (λ comb_result_dfs rollup_single_comb,
        single_result ←
          cubing_pass df p fill_grouping cube_single_comb rollup_single_comb;
        mret (comb_result_dfs ++ [single_result]))
      comb_result_dfs) [];
  unioned_result ←
    lift (u ← concat comb_result_dfs;
          s ← sort_values u (plan_all_groupby_cols p);
          Return (reset_index_drop s));
  if as_index
  then lift (sort_index <$> set_index unioned_result (plan_all_groupby_cols p))
  else mret unioned_result.
End driver.

(** ** A reference engine

    A small concrete engine over integer and string cells, used to run the
    driver on examples: [sum], [count], [min], [max] and the callable
    [nunique]; integer and object column types; nulls sorted last. *)

Module RefEngine.
Inductive ref_dtype := Int64 | Object.

(** A column of integers has the integer type; any other column, and a
    column without rows, the object type. *)
Definition ref_dtype_of (cells : list pyval) : ref_dtype :=
  match cells with
  | [] => Object
  | _ =>
      if forallb (λ v, match v with PyInt _ => true | _ => false end) cells
      then Int64 else Object
  end.

Definition ints (cells : list pyval) : list Z :=
  omap (λ v, match v with PyInt z => Some z | _ => None end) cells.

Definition ref_reduce (f : pyval) (cells : list pyval) : result pyval :=
  let present := filter (λ v, v ≠ PyNone) cells in
  match f with
  | PyStr "sum" => Return (PyInt (foldr Z.add 0%Z (ints present)))
  | PyStr "count" => Return (PyInt (Z.of_nat (length present)))
  | PyStr "min" =>
      match ints present with
      | [] => Return PyNone
      | z :: zs => Return (PyInt (foldr Z.min z zs))
      end
  | PyStr "max" =>
      match ints present with
      | [] => Return PyNone
      | z :: zs => Return (PyInt (foldr Z.max z zs))
      end
  | PyFunc "nunique" =>
      Return (PyInt (Z.of_nat (length (remove_dups present))))
  | _ => Raise (EngineError "unknown reduction")
  end.

(** Decimal literals as [int(s)] reads them: white space around, an
    optional sign, digits, single underscores between digits. *)
Definition is_space (c : Ascii.ascii) : bool :=
  let k := Ascii.nat_of_ascii c in
  ((9 <=? k)%nat && (k <=? 13)%nat) || (k =? 32)%nat.

Definition digit_of (c : Ascii.ascii) : option Z :=
  let k := Ascii.nat_of_ascii c in
  if (48 <=? k)%nat && (k <=? 57)%nat then Some (Z.of_nat (k - 48)) else None.

Fixpoint skip_spaces (l : list Ascii.ascii) : list Ascii.ascii :=
  match l with
  | c :: l' => if is_space c then skip_spaces l' else l
  | [] => []
  end.

(** [after_digit] tells whether the character just read was a digit: a
    literal neither starts nor ends with an underscore, nor has two in a
    row. *)
Fixpoint parse_digits (acc : Z) (after_digit : bool) (l : list Ascii.ascii)
    : option Z :=
  match l with
  | [] => if after_digit then Some acc else None
  | c :: l' =>
      if (Ascii.nat_of_ascii c =? 95)%nat
      then if after_digit then parse_digits acc false l' else None
      else match digit_of c with
           | Some d => parse_digits (10 * acc + d)%Z true l'
           | None => None
           end
  end.

Definition parse_int (s : string) : option Z :=
  let l := skip_spaces (String.list_ascii_of_string s) in
  let l := reverse (skip_spaces (reverse l)) in
  match l with
  | [] => None
  | c :: l' =>
      if (Ascii.nat_of_ascii c =? 45)%nat
      then Z.opp <$> parse_digits 0 false l'
      else if (Ascii.nat_of_ascii c =? 43)%nat
      then parse_digits 0 false l'
      else parse_digits 0 false l
  end.

(** [Series.astype]: an integer column takes integers and the strings
    that read as one; an object column takes anything. *)
Definition ref_astype (t : ref_dtype) (v : pyval) : result pyval :=
  match t, v with
  | Int64, PyInt _ => Return v
  | Int64, PyStr s =>
      match parse_int s with
      | Some z => Return (PyInt z)
      | None => Raise (ValueError "invalid literal for int() with base 10")
      end
  | Int64, _ => Raise TypeError
  | Object, _ => Return v
  end.

Definition ref_cell_leb (a b : pyval) : bool :=
  match a, b with
  | _, PyNone => true
  | PyNone, _ => false
  | PyInt x, PyInt y => bool_decide (x ≤ y)%Z
  | PyInt _, _ => true
  | _, PyInt _ => false
  | PyStr s, PyStr t => bool_decide (String.leb s t = true)
  | _, _ => true
  end.

Definition engine : Engine := {|
  dtype := ref_dtype;
  dtype_of := ref_dtype_of;
  is_integer_dtype t := match t with Int64 => true | Object => false end;
  to_numeric v := Return v;
  astype := ref_astype;
  reduce := ref_reduce;
  cell_leb := ref_cell_leb;
|}.

(** Two runs of the interpreter that iterate sets in opposite orders. *)
Program Definition run_a : Runtime :=
  {| hash_order X := elements X |}.
Next Obligation. done. Qed.

Program Definition run_b : Runtime :=
  {| hash_order X := reverse (elements X) |}.
Next Obligation. intros X. apply reverse_Permutation. Qed.
End RefEngine.

(** ** The documented domain of the arguments *)

(** A column specification as the docstring and the tests give it: [None],
    one name, or a list of (hashable) names; [colspec v names] relates it to
    the list of names it stands for. *)
Inductive colspec : pyval → list pyval → Prop :=
  | colspec_none : colspec PyNone []
  | colspec_name s : colspec (PyStr s) [PyStr s]
  | colspec_list l : forallb hashable l = true → colspec (PyList l) l.

(** No name is shared between two of the three groups. *)
Definition pairwise_disjoint (a b c : list pyval) : Prop :=
  (∀ x, x ∈ a → x ∉ b) ∧ (∀ x, x ∈ a → x ∉ c) ∧ (∀ x, x ∈ b → x ∉ c).

Global Instance pairwise_disjoint_dec a b c : Decision (pairwise_disjoint a b c).
Proof.
  unfold pairwise_disjoint.
  assert (∀ l k : list pyval, Decision (∀ x, x ∈ l → x ∉ k)) as Hdec.
  { intros l k. destruct (decide (Forall (λ x, x ∉ k) l)) as [Hy|Hn].
    - left. by apply Forall_forall.
    - right. intros Hall. by apply Hn, Forall_forall. }
  apply and_dec; [apply Hdec|]. apply and_dec; apply Hdec.
Defined.

(** [agg] is of neither shape the driver accepts. *)
Definition bad_agg (agg : pyval) : Prop :=
  isinstance_str agg = false ∧ isinstance_dict agg = false.

(** The fill value of a column in the words of the specification: the
    null marker when no fill specification is given; for a mapping, the
    value of the entry whose key is the column, and the null marker when
    there is no such entry; any other specification itself.  A mapping
    cannot be asked for an unhashable name: the lookup fails and the
    mapping itself comes back, like any specification on which the lookup
    fails. *)
Inductive fill_value_spec (col_name : pyval) : pyval → pyval → Prop :=
  | fill_spec_absent :
      fill_value_spec col_name PyNone PyNone
  | fill_spec_mapped d1 v d2 :
      hashable col_name = true → col_name ∉ d1.*1 →
      fill_value_spec col_name (PyDict (d1 ++ (col_name, v) :: d2)) v
  | fill_spec_unmapped d :
      hashable col_name = true → col_name ∉ d.*1 →
      fill_value_spec col_name (PyDict d) PyNone
  | fill_spec_unhashable d :
      hashable col_name = false →
      fill_value_spec col_name (PyDict d) (PyDict d)
  | fill_spec_other filling :
      filling ≠ PyNone → isinstance_dict filling = false →
      fill_value_spec col_name filling filling.

(** What the engine stores in one cell as it is: the null marker, a
    number, a string, a callable.  A list, a tuple or a dict is list-like
    to the engine, which spreads it over the rows. *)
Definition scalar (v : pyval) : bool :=
  match v with
  | PyNone | PyInt _ | PyStr _ | PyFunc _ => true
  | PyTuple _ | PyList _ | PyDict _ => false
  end.

(** Every fill value the fill specification can give is a scalar. *)
Definition scalar_fills (fill_grouping : pyval) : Prop :=
  match fill_grouping with
  | PyDict d => Forall (λ kv, scalar kv.2 = true) d
  | _ => scalar fill_grouping = true
  end.

(** Every column is reduced by one reduction, named by a string or passed
    as a callable (a list of reductions makes the engine return several
    columns for one). *)
Definition single_reductions (agg : pyval) : Prop :=
  match agg with
  | PyDict d =>
      Forall (λ kv, match kv.2 with
                    | PyStr _ | PyFunc _ => True
                    | _ => False
                    end) d
  | _ => True
  end.

(** The arguments with which a call gets past lines 105-128. *)
Definition accepted (n c r agg : pyval) : Prop :=
  ∃ ln lc lr, colspec n ln ∧ colspec c lc ∧ colspec r lr
              ∧ pairwise_disjoint ln lc lr
              ∧ isinstance_str agg || isinstance_dict agg = true.

(** ** Sample tables *)

Module Samples.
(** The table of [test_cubinggroupby]; an empty CSV field is a null. *)
Definition test_df : DataFrame :=
  mkDataFrame []
    [PyStr "category"; PyStr "area"; PyStr "year"; PyStr "product"; PyStr "price"]
    [ [PyStr "cat1"; PyStr "area1"; PyInt 1; PyStr "prod1"; PyInt 10];
      [PyStr "cat1"; PyStr "area1"; PyInt 2; PyStr "prod1"; PyInt 11];
      [PyStr "cat1"; PyStr "area2"; PyInt 3; PyStr "prod2"; PyInt 12];
      [PyStr "cat2"; PyStr "area1"; PyInt 1; PyStr "prod1"; PyInt 13];
      [PyStr "cat2"; PyStr "area2"; PyInt 3; PyStr "prod3"; PyInt 14];
      [PyStr "cat2"; PyStr "area1"; PyInt 2; PyStr "prod2"; PyInt 15];
      [PyNone; PyStr "area1"; PyInt 4; PyStr "prod3"; PyInt 16];
      [PyNone; PyStr "area2"; PyInt 2; PyStr "prod1"; PyInt 17];
      [PyStr "cat2"; PyNone; PyInt 3; PyStr "prod4"; PyInt 18] ].

(** The expected table of [test_cubinggroupby], row by row; the test reads
    the grouping years back as floats and the empty fields as nulls. *)
Definition expected_rows : list (list pyval) :=
  [ [PyStr "TOTAL"; PyStr "area1"; PyInt 1; PyInt 1; PyInt 23];
    [PyStr "TOTAL"; PyStr "area1"; PyInt 2; PyInt 2; PyInt 26];
    [PyStr "TOTAL"; PyStr "area1"; PyInt 4; PyInt 1; PyInt 16];
    [PyStr "TOTAL"; PyStr "area1"; PyNone; PyInt 3; PyInt 65];
    [PyStr "TOTAL"; PyStr "area2"; PyInt 2; PyInt 1; PyInt 17];
    [PyStr "TOTAL"; PyStr "area2"; PyInt 3; PyInt 2; PyInt 26];
    [PyStr "TOTAL"; PyStr "area2"; PyNone; PyInt 3; PyInt 43];
    [PyStr "TOTAL"; PyNone; PyInt 1; PyInt 1; PyInt 23];
    [PyStr "TOTAL"; PyNone; PyInt 2; PyInt 2; PyInt 43];
    [PyStr "TOTAL"; PyNone; PyInt 3; PyInt 3; PyInt 44];
    [PyStr "TOTAL"; PyNone; PyInt 4; PyInt 1; PyInt 16];
    [PyStr "TOTAL"; PyNone; PyNone; PyInt 4; PyInt 126];
    [PyStr "cat1"; PyStr "area1"; PyInt 1; PyInt 1; PyInt 10];
    [PyStr "cat1"; PyStr "area1"; PyInt 2; PyInt 1; PyInt 11];
    [PyStr "cat1"; PyStr "area1"; PyNone; PyInt 1; PyInt 21];
    [PyStr "cat1"; PyStr "area2"; PyInt 3; PyInt 1; PyInt 12];
    [PyStr "cat1"; PyStr "area2"; PyNone; PyInt 1; PyInt 12];
    [PyStr "cat1"; PyNone; PyInt 1; PyInt 1; PyInt 10];
    [PyStr "cat1"; PyNone; PyInt 2; PyInt 1; PyInt 11];
    [PyStr "cat1"; PyNone; PyInt 3; PyInt 1; PyInt 12];
    [PyStr "cat1"; PyNone; PyNone; PyInt 2; PyInt 33];
    [PyStr "cat2"; PyStr "area1"; PyInt 1; PyInt 1; PyInt 13];
    [PyStr "cat2"; PyStr "area1"; PyInt 2; PyInt 1; PyInt 15];
    [PyStr "cat2"; PyStr "area1"; PyNone; PyInt 2; PyInt 28];
    [PyStr "cat2"; PyStr "area2"; PyInt 3; PyInt 1; PyInt 14];
    [PyStr "cat2"; PyStr "area2"; PyNone; PyInt 1; PyInt 14];
    [PyStr "cat2"; PyNone; PyInt 1; PyInt 1; PyInt 13];
    [PyStr "cat2"; PyNone; PyInt 2; PyInt 1; PyInt 15];
    [PyStr "cat2"; PyNone; PyInt 3; PyInt 2; PyInt 32];
    [PyStr "cat2"; PyNone; PyNone; PyInt 4; PyInt 60] ].

(** Two columns, one of them with a null. *)
Definition small_df : DataFrame :=
  mkDataFrame [] [PyStr "a"; PyStr "v"]
    [ [PyStr "x"; PyInt 1]; [PyNone; PyInt 2]; [PyStr "x"; PyInt 3] ].

(** The same two columns, no row. *)
Definition empty_df : DataFrame :=
  mkDataFrame [] [PyStr "a"; PyStr "v"] [].
End Samples.

Module Calls.
Import Samples.

(** The call of [test_cubinggroupby], with ['sum'] for ['price'] (the
    reduction whose values the expected table of the test lists; the
    reference engine has no mean). *)
Definition test_call (R : Runtime) (as_index : bool) : M DataFrame :=
  @cubinggroupby RefEngine.engine R test_df PyNone
    (PyList [PyStr "category"; PyStr "area"]) (PyList [PyStr "year"])
    (PyDict [(PyStr "product", PyFunc "nunique"); (PyStr "price", PyStr "sum")])
    (PyDict [(PyStr "category", PyStr "TOTAL"); (PyStr "area", PyNone)])
    as_index.

(** The same grouping with a single reduction name for every value
    column. *)
Definition count_call (R : Runtime) : M DataFrame :=
  @cubinggroupby RefEngine.engine R test_df PyNone
    (PyList [PyStr "category"; PyStr "area"]) (PyList [PyStr "year"])
    (PyStr "count")
    (PyDict [(PyStr "category", PyStr "TOTAL"); (PyStr "area", PyNone)])
    false.

(** A cube over the column with a null. *)
Definition small_call : M DataFrame :=
  @cubinggroupby RefEngine.engine RefEngine.run_a small_df PyNone
    (PyList [PyStr "a"]) PyNone (PyStr "sum") PyNone false.

Definition result_of (m : M DataFrame) : DataFrame :=
  match outcome m with
  | Return d => d
  | Raise _ => mkDataFrame [] [] []
  end.

Definition test_result : DataFrame :=
  Eval vm_compute in result_of (test_call RefEngine.run_a false).

Definition small_result : DataFrame :=
  Eval vm_compute in result_of small_call.

(** A cube over the integer column of the test's table, folded to the
    string ['7']. *)
Definition retyped_call : M DataFrame :=
  @cubinggroupby RefEngine.engine RefEngine.run_a test_df PyNone
    (PyList [PyStr "year"]) PyNone (PyDict [(PyStr "price", PyStr "sum")])
    (PyDict [(PyStr "year", PyStr "7")]) false.

Definition retyped_result : DataFrame :=
  Eval vm_compute in result_of retyped_call.

(** A cube over one column of the table without rows. *)
Definition empty_call : M DataFrame :=
  @cubinggroupby RefEngine.engine RefEngine.run_a empty_df PyNone
    (PyList [PyStr "a"]) PyNone (PyStr "sum") PyNone false.

Definition empty_result : DataFrame :=
  Eval vm_compute in result_of empty_call.
End Calls.

(** ** Closed forms used to state the properties *)

Section closed_forms.
Context `{Engine} `{Runtime}.

(** The value columns and the mapping form of [agg], for the two accepted
    shapes. *)
Definition resolved_agg (df : DataFrame) (all_groupby_cols : list pyval)
    (agg : pyval) : list pyval * list (pyval * pyval) :=
  match agg with
  | PyDict d => (d.*1, d)
  | _ =>
      let value_cols :=
        hash_order (list_to_set (columns df) ∖ list_to_set all_groupby_cols) in
      (value_cols, (λ x, (x, agg)) <$> value_cols)
  end.

Definition resolved_plan (df : DataFrame) (ln lc lr : list pyval)
    (agg : pyval) : plan :=
  let all := (ln ++ lc) ++ lr in
  let va := resolved_agg df all agg in
  mkPlan ln lc lr all va.1 va.2 (all ++ va.1).

End closed_forms.

(** The grouping sets of a call, in the order the double loop visits them:
    plain ++ one cube subset ++ one rollup prefix. *)
Definition grouping_sets (normal_cols cube_cols rollup_cols : list pyval)
    : list (list pyval) :=
  cube_single_comb ← _get_cube_combinations cube_cols;
  rollup_single_comb ← _get_rollup_combinations rollup_cols;
  [(normal_cols ++ cube_single_comb) ++ rollup_single_comb].

(** The event a pass over [groupby_cols] leaves in the trace. *)
Definition pass_event (groupby_cols : list pyval) : event :=
  if decide (groupby_cols = []) then EvAgg else EvGroupBy groupby_cols.

(** Positions of the key columns in the table. *)
Definition key_positions (df : DataFrame) (by_cols : list pyval) : list nat :=
  omap (λ c, fst <$> list_find (λ x, x = c) (columns df)) by_cols.

(** Number of distinct combinations of the key columns over all rows of the
    table, nulls counted like any value; 1 for the empty grouping set. *)
Definition distinct_combinations (df : DataFrame) (by_cols : list pyval)
    : nat :=
  if decide (by_cols = []) then 1
  else length (remove_dups (project (key_positions df by_cols) <$> rows df)).

(** The same over the rows in which no key column is null. *)
Definition group_count (df : DataFrame) (by_cols : list pyval) : nat :=
  if decide (by_cols = []) then 1
  else length (remove_dups
                 (filter notnull
                    (project (key_positions df by_cols) <$> rows df))).

Section pass_closed_form.
Context `{Engine} `{Runtime}.

(** One pass without its trace. *)
Definition pass_result (df : DataFrame) (p : plan) (fill_grouping : pyval)
    (cube_single_comb rollup_single_comb : list pyval) : result DataFrame :=
  let groupby_cols :=
    (plan_normal_cols p ++ cube_single_comb) ++ rollup_single_comb in
  single_result ←
    (if decide (groupby_cols = []) then df_agg df (plan_agg p)
     else df_groupby_agg df groupby_cols (plan_agg p));
  single_result ←
    for_each (hash_order (list_to_set (plan_all_groupby_cols p)
                          ∖ list_to_set groupby_cols))
      (fill_folded df fill_grouping) single_result;
  select single_result (plan_result_cols p).

(** Lines 176-186: union, sort, and the optional promotion to an index. *)
Definition assemble (p : plan) (comb_result_dfs : list DataFrame)
    (as_index : bool) : result DataFrame :=
  unioned_result ←
    (u ← concat comb_result_dfs;
     s ← sort_values u (plan_all_groupby_cols p);
     Return (reset_index_drop s));
  if as_index
  then sort_index <$> set_index unioned_result (plan_all_groupby_cols p)
  else Return unioned_result.
End pass_closed_form.

(** Number of combinations of [x] of each size below [m]. *)
Definition count_upto {A} (x : list A) (m : nat) : nat :=
  sum_list_with (λ k, length (combinations (A:=A) x k)) (seq 0 m).

Section fill_closed_forms.
Context `{Engine}.

(** Rows as long as the column list. *)
Definition rows_wf (F : DataFrame) : Prop :=
  Forall (λ r, length r = length (columns F)) (rows F).

(** How one cell of a folded column is re-typed, given the column of the
    input table it stands for. *)
Definition retype (orig : list pyval) (dim_value_to_fill : pyval)
    : pyval → result pyval :=
  if is_integer_dtype (dtype_of orig) && is_none dim_value_to_fill
  then to_numeric
  else astype (dtype_of orig).

(** The cell a computation returned, if it did. *)
Definition cell_or_none (r : result pyval) : pyval :=
  match r with
  | Return v => v
  | Raise _ => PyNone
  end.

End fill_closed_forms.

Section flat_closed_forms.
Context `{Engine} `{Runtime}.

(** One pass as a function of its grouping set alone: lines 139-172 use
    the cube subset and the rollup prefix only through [groupby_cols]. *)
Definition grouping_pass (df : DataFrame) (p : plan) (fill_grouping : pyval)
    (groupby_cols : list pyval) : result DataFrame :=
  single_result ←
    (if decide (groupby_cols = []) then df_agg df (plan_agg p)
     else df_groupby_agg df groupby_cols (plan_agg p));
  single_result ←
    for_each (hash_order (list_to_set (plan_all_groupby_cols p)
                          ∖ list_to_set groupby_cols))
      (fill_folded df fill_grouping) single_result;
  select single_result (plan_result_cols p).

(** The same with the event it logs. *)
Definition logged_pass (df : DataFrame) (p : plan) (fill_grouping : pyval)
    (groupby_cols : list pyval) : M DataFrame :=
  mkM [pass_event groupby_cols] (grouping_pass df p fill_grouping groupby_cols).
End flat_closed_forms.

(** ** The rows a call is to return, written directly *)

Section direct_rows.
Context `{Engine}.

(** Lines 143-148: the table is reduced as a whole for the empty grouping
    set, group by group otherwise.  A row of the outcome lists the keys
    of a group, then its aggregates. *)
Definition aggregate_pass (df : DataFrame) (agg : list (pyval * pyval))
    (groupby_cols : list pyval) : result DataFrame :=
  if decide (groupby_cols = []) then df_agg df agg
  else df_groupby_agg df groupby_cols agg.

(** The cell of the grouping column [c] in the result row made from the
    row [r] of the pass over [groupby_cols]: the key of the group when [c]
    is one of the keys, the re-typed fill value when [c] is folded. *)
Definition grouping_cell (df : DataFrame) (fill_grouping : pyval)
    (groupby_cols r : list pyval) (c : pyval) : pyval :=
  match list_find (λ x, x = c) groupby_cols with
  | Some (i, _) => r !!! i
  | None => cell_or_none (folded_cell df fill_grouping c)
  end.

(** The row [r] of the pass over [groupby_cols], laid out over the columns
    of the result: one cell per grouping column, then the aggregates. *)
Definition result_row (df : DataFrame) (fill_grouping : pyval)
    (all_groupby_cols groupby_cols r : list pyval) : list pyval :=
  (grouping_cell df fill_grouping groupby_cols r <$> all_groupby_cols)
  ++ drop (length groupby_cols) r.

(** UNION ALL over the grouping sets, in loop order. *)
Definition union_all_rows (df : DataFrame) (p : plan) (fill_grouping : pyval)
    : result (list (list pyval)) :=
  tables ← mapM (λ groupby_cols,
                   T ← aggregate_pass df (plan_agg p) groupby_cols;
                   Return (result_row df fill_grouping
                             (plan_all_groupby_cols p) groupby_cols
                           <$> rows T))
              (grouping_sets (plan_normal_cols p) (plan_cube_cols p)
                 (plan_rollup_cols p));
  Return (mjoin tables).
End direct_rows.
(** * The helpers *)

Section loops.
Context {A : Type}.

Lemma foldl_snoc (l acc : list A) :
  foldl (λ res x, res ++ [x]) acc l = acc ++ l.
Proof.
  revert acc. induction l as [|x l IH]; intros acc; simpl.
  - by rewrite app_nil_r.
  - by rewrite IH, <-app_assoc.
Qed.

Lemma foldl_snoc_blocks {B} (f : B → list A) (ks : list B) (acc : list A) :
  foldl (λ res k, foldl (λ res x, res ++ [x]) res (f k)) acc ks
  = acc ++ mjoin (f <$> ks).
Proof.
  revert acc. induction ks as [|k ks IH]; intros acc; simpl.
  - by rewrite app_nil_r.
  - by rewrite IH, foldl_snoc, <-app_assoc.
Qed.

Lemma foldl_snoc_fmap {B} (g : B → A) (ks : list B) (acc : list A) :
  foldl (λ res k, res ++ [g k]) acc ks = acc ++ (g <$> ks).
Proof.
  revert acc. induction ks as [|k ks IH]; intros acc; csimpl.
  - by rewrite app_nil_r.
  - by rewrite IH, <-app_assoc.
Qed.

Lemma length_mjoin_fmap {B} (f : B → list (list A)) ks :
  length (mjoin (f <$> ks)) = sum_list_with (λ k, length (f k)) ks.
Proof.
  induction ks as [|k ks IH]; csimpl; [done|]. by rewrite length_app, IH.
Qed.
End loops.

Section combinations.
Context {A : Type}.

Lemma cube_combinations_unfold (x : list A) :
  _get_cube_combinations x
  = mjoin (combinations x <$> seq 0 (S (length x))).
Proof.
  unfold _get_cube_combinations.
  rewrite foldl_snoc_blocks. simpl. by rewrite Nat.add_1_r.
Qed.

Lemma rollup_combinations_unfold (x : list A) :
  _get_rollup_combinations x = (λ i, take i x) <$> seq 0 (S (length x)).
Proof.
  unfold _get_rollup_combinations. by rewrite foldl_snoc_fmap, Nat.add_1_r.
Qed.

(** *** [itertools.combinations] *)

Lemma combinations_0 (x : list A) : combinations x 0 = [[]].
Proof. by destruct x. Qed.

Lemma combinations_too_long (x : list A) k :
  length x < k → combinations x k = [].
Proof.
  revert k. induction x as [|a x IH]; intros [|k] Hk; simpl in *; try lia; [done|].
  rewrite !IH by lia. done.
Qed.

Lemma combinations_full (x : list A) : combinations x (length x) = [x].
Proof.
  induction x as [|a x IH]; simpl; [done|].
  rewrite IH, combinations_too_long by lia. done.
Qed.

Lemma combinations_spec (x t : list A) k :
  t ∈ combinations x k ↔ t `sublist_of` x ∧ length t = k.
Proof.
  revert t k. induction x as [|a x IH]; intros t [|k]; simpl.
  - rewrite list_elem_of_singleton. split.
    + intros ->. split; [constructor|done].
    + intros [_ Hl]. by destruct t.
  - split; [by intros ?%elem_of_nil|].
    intros [Hs Hl]. apply sublist_nil_r in Hs. by subst.
  - rewrite list_elem_of_singleton. split.
    + intros ->. split; [apply sublist_nil_l|done].
    + intros [_ Hl]. by destruct t.
  - rewrite elem_of_app, list_elem_of_fmap. split.
    + intros [(t' & -> & Ht')|Ht].
      * apply IH in Ht' as [Hs Hl]. split; [by constructor|simpl; lia].
      * apply IH in Ht as [Hs Hl]. split; [by constructor|done].
    + intros [Hs Hl]. apply sublist_cons_r in Hs as [Hs|(t' & -> & Hs)].
      * right. by apply IH.
      * left. exists t'. split; [done|]. apply IH. simpl in Hl. split; [done|lia].
Qed.

Lemma count_upto_S (x : list A) m :
  count_upto x (S m) = count_upto x m + length (combinations x m).
Proof.
  unfold count_upto. rewrite seq_S, sum_list_with_app. simpl. lia.
Qed.

Lemma count_upto_cons (a : A) x m :
  count_upto (a :: x) (S m) = count_upto x m + count_upto x (S m).
Proof.
  induction m as [|m IH].
  - unfold count_upto. simpl. rewrite combinations_0. simpl. lia.
  - rewrite count_upto_S, IH, !count_upto_S. simpl.
    rewrite length_app, length_fmap. lia.
Qed.

Lemma count_upto_all (x : list A) : count_upto x (S (length x)) = 2 ^ length x.
Proof.
  induction x as [|a x IH]; [done|].
  cbn [length]. rewrite count_upto_cons.
  rewrite (count_upto_S x (S (length x))), IH.
  rewrite combinations_too_long by lia.
  rewrite Nat.pow_succ_r'. simpl. lia.
Qed.

Lemma cube_blocks_sorted (x : list A) m n :
  StronglySorted (λ s t : list A, length s ≤ length t)
    (mjoin (combinations x <$> seq m n)).
Proof.
  revert m. induction n as [|n IH]; intros m; simpl; [constructor|].
  apply StronglySorted_app_2; [| | apply IH].
  - intros s t Hs Ht. apply combinations_spec in Hs as [_ <-].
    apply list_elem_of_join in Ht as (blk & Ht & Hblk).
    apply list_elem_of_fmap in Hblk as (k & -> & Hk).
    apply elem_of_seq in Hk. apply combinations_spec in Ht as [_ <-]. lia.
  - assert (Forall (λ t, length t = m) (combinations x m)) as Hall.
    { apply Forall_forall. intros t Ht. by apply combinations_spec in Ht as [_ ?]. }
    induction Hall as [|t l Ht Hl IHl]; constructor; [done|].
    eapply Forall_impl; [exact Hl|]. simpl. intros; lia.
Qed.
Lemma length_cube_combinations (x : list A) :
  length (_get_cube_combinations x) = 2 ^ length x.
Proof.
  rewrite cube_combinations_unfold, length_mjoin_fmap. apply count_upto_all.
Qed.

Lemma elem_of_cube_combinations (x t : list A) :
  t ∈ _get_cube_combinations x ↔ t `sublist_of` x.
Proof.
  rewrite cube_combinations_unfold. split.
  - intros Ht. apply list_elem_of_join in Ht as (blk & Ht & Hblk).
    apply list_elem_of_fmap in Hblk as (k & -> & _).
    by apply combinations_spec in Ht as [? _].
  - intros Hs. apply list_elem_of_join. exists (combinations x (length t)).
    split; [by apply combinations_spec|].
    apply list_elem_of_fmap. exists (length t). split; [done|].
    apply elem_of_seq. apply sublist_length in Hs. lia.
Qed.

Lemma cube_combinations_head (x : list A) :
  ∃ rest, _get_cube_combinations x = [] :: rest.
Proof.
  rewrite cube_combinations_unfold.
  cbn [seq fmap list_fmap mjoin list_join]. rewrite combinations_0.
  by eexists.
Qed.

Lemma length_rollup_combinations (x : list A) :
  length (_get_rollup_combinations x) = length x + 1.
Proof.
  rewrite rollup_combinations_unfold, length_fmap, length_seq. lia.
Qed.

Lemma rollup_combinations_lookup (x : list A) k t :
  _get_rollup_combinations x !! k = Some t ↔ t = take k x ∧ k ≤ length x.
Proof.
  rewrite rollup_combinations_unfold, list_lookup_fmap_Some. split.
  - intros (i & -> & Hi). apply lookup_seq in Hi as [-> ?]. split; [done|lia].
  - intros [-> Hk]. exists k. split; [done|]. apply lookup_seq. split; [done|lia].
Qed.

Lemma elem_of_rollup_combinations (x t : list A) :
  t ∈ _get_rollup_combinations x ↔ t `prefix_of` x.
Proof.
  rewrite list_elem_of_lookup. split.
  - intros (k & Hk). apply rollup_combinations_lookup in Hk as [-> _].
    apply prefix_take.
  - intros [rest ->]. exists (length t). apply rollup_combinations_lookup.
    rewrite take_app_length, length_app. split; [done|lia].
Qed.

Lemma rollup_combinations_head (x : list A) :
  ∃ rest, _get_rollup_combinations x = [] :: rest.
Proof. rewrite rollup_combinations_unfold. simpl. by eexists. Qed.
End combinations.
(** C8. Cube generator: on a sequence of length [n] the result has [2^n]
    tuples, the empty tuple first and the full sequence last, listed by
    non-decreasing size; the tuples are exactly the subsequences of the
    input (relative order kept); on the empty input the result is the single
    empty tuple.  Being a function, the generator is pure and
    deterministic. *)
Theorem cube_combinations_correct {A} (x : list A) :
  length (_get_cube_combinations x) = 2 ^ length x
  ∧ head (_get_cube_combinations x) = Some []
  ∧ last (_get_cube_combinations x) = Some x
  ∧ StronglySorted (λ s t, length s ≤ length t) (_get_cube_combinations x)
  ∧ (∀ t, t ∈ _get_cube_combinations x ↔ t `sublist_of` x)
  ∧ _get_cube_combinations (@nil A) = [[]].
Proof.
  split_and!.
  - apply length_cube_combinations.
  - by destruct (cube_combinations_head x) as [rest ->].
  - rewrite cube_combinations_unfold, seq_S, fmap_app, join_app. csimpl.
    by rewrite app_nil_r, combinations_full, last_snoc.
  - rewrite cube_combinations_unfold. apply cube_blocks_sorted.
  - apply elem_of_cube_combinations.
  - done.
Qed.

(** C9. Rollup generator: on a sequence of length [n] the result has [n+1]
    tuples, the [k]-th being the first [k] elements in their order; it
    starts with the empty tuple and ends with the full sequence; on the
    empty input the result is the single empty tuple. *)
Theorem rollup_combinations_correct {A} (x : list A) :
  length (_get_rollup_combinations x) = length x + 1
  ∧ (∀ k, k ≤ length x → _get_rollup_combinations x !! k = Some (take k x))
  ∧ (∀ k t, _get_rollup_combinations x !! k = Some t → t = take k x ∧ k ≤ length x)
  ∧ head (_get_rollup_combinations x) = Some []
  ∧ last (_get_rollup_combinations x) = Some x
  ∧ _get_rollup_combinations (@nil A) = [[]].
Proof.
  split_and!.
  - apply length_rollup_combinations.
  - intros k Hk. by apply rollup_combinations_lookup.
  - intros k t Hk. by apply rollup_combinations_lookup.
  - by destruct (rollup_combinations_head x) as [rest ->].
  - rewrite rollup_combinations_unfold, seq_S, fmap_app. csimpl.
    by rewrite last_snoc, firstn_all.
  - done.
Qed.

(** C10. The normalizer validates nothing: [None] becomes the empty list, a
    string is wrapped into a one-element list, and every other argument is
    returned as it is, a tuple or an integer included, so the result need
    not be a list.  Being a total function, it never raises. *)
Theorem cols_normalize_no_validation :
  _cols_normalize PyNone = PyList []
  ∧ (∀ s, _cols_normalize (PyStr s) = PyList [PyStr s])
  ∧ (∀ cols, cols ≠ PyNone → (∀ s, cols ≠ PyStr s) → _cols_normalize cols = cols)
  ∧ (∀ cols, _cols_normalize cols ≠ cols → cols = PyNone ∨ ∃ s, cols = PyStr s)
  ∧ (∀ names, _cols_normalize (PyTuple names) = PyTuple names)
  ∧ (∀ z, _cols_normalize (PyInt z) = PyInt z)
  ∧ (∃ cols, ∀ l, _cols_normalize cols ≠ PyList l).
Proof.
  repeat split; try done.
  - intros [] Hn Hs; try done. by destruct (Hs s).
  - intros [] Hne; try done; eauto.
  - exists (PyTuple [PyStr "a"; PyStr "b"]). done.
Qed.

Lemma dict_lookup_first col_name (d1 : list (pyval * pyval)) v d2 :
  col_name ∉ d1.*1 → dict_lookup col_name (d1 ++ (col_name, v) :: d2) = Some v.
Proof.
  induction d1 as [|[k w] d1 IH]; simpl; intros Hout.
  - by rewrite decide_True.
  - apply not_elem_of_cons in Hout as [Hne Hout].
    rewrite decide_False by done. by apply IH.
Qed.

Lemma dict_lookup_None col_name (d : list (pyval * pyval)) :
  col_name ∉ d.*1 → dict_lookup col_name d = None.
Proof.
  induction d as [|[k w] d IH]; simpl; intros Hout; [done|].
  apply not_elem_of_cons in Hout as [Hne Hout].
  rewrite decide_False by done. by apply IH.
Qed.

Lemma dict_lookup_split col_name (d : list (pyval * pyval)) :
  (∃ d1 v d2, d = d1 ++ (col_name, v) :: d2 ∧ col_name ∉ d1.*1)
  ∨ col_name ∉ d.*1.
Proof.
  induction d as [|[k w] d IH]; simpl.
  - right. apply not_elem_of_nil.
  - destruct (decide (col_name = k)) as [->|Hne].
    + left. exists [], w, d. split; [done|]. apply not_elem_of_nil.
    + destruct IH as [(d1 & v & d2 & -> & Hout)|Hout].
      * left. exists ((k, w) :: d1), v, d2. split; [done|].
        simpl. by apply not_elem_of_cons.
      * right. by apply not_elem_of_cons.
Qed.

Lemma fill_value_spec_fun col_name filling s :
  fill_value_spec col_name filling s →
  _get_grouping_filling col_name filling = s.
Proof.
  unfold _get_grouping_filling. destruct 1 as [|d1 v d2 Hh Hout|d Hh Hout|d Hh|f Hn Hd].
  - done.
  - simpl. by rewrite Hh, dict_lookup_first.
  - simpl. by rewrite Hh, dict_lookup_None.
  - simpl. by rewrite Hh.
  - by destruct f.
Qed.

Lemma grouping_filling_spec col_name filling :
  fill_value_spec col_name filling (_get_grouping_filling col_name filling).
Proof.
  destruct (decide (filling = PyNone)) as [->|Hn]; [constructor|].
  destruct (isinstance_dict filling) eqn:Hd.
  - destruct filling as [| | | | | |d]; try done.
    destruct (hashable col_name) eqn:Hh.
    + destruct (dict_lookup_split col_name d) as [(d1 & v & d2 & -> & Hout)|Hout].
      * rewrite (fill_value_spec_fun col_name _ v); by constructor.
      * rewrite (fill_value_spec_fun col_name _ PyNone); by constructor.
    + rewrite (fill_value_spec_fun col_name _ (PyDict d)); by constructor.
  - rewrite (fill_value_spec_fun col_name _ filling); by constructor.
Qed.

(** C6 (as amended).  The fill-value resolver never raises, and what it
    returns is the fill value of the specification: the null marker when
    the fill specification is absent; for a mapping and a hashable column
    name, the value of the entry whose key is the name, and the null marker
    when the mapping has no such entry; for a mapping and an unhashable
    name, the mapping itself; any other specification itself, whatever
    the name. *)
Theorem grouping_filling_total (col_name filling s : pyval) :
  _get_grouping_filling col_name filling = s
  ↔ fill_value_spec col_name filling s.
Proof.
  split.
  - intros <-. apply grouping_filling_spec.
  - apply fill_value_spec_fun.
Qed.

Lemma grouping_filling_total_witness :
  _get_grouping_filling (PyStr "area")
    (PyDict [(PyStr "category", PyStr "TOTAL"); (PyStr "area", PyInt 0)])
  = PyInt 0
  ∧ _get_grouping_filling (PyStr "year")
      (PyDict [(PyStr "category", PyStr "TOTAL"); (PyStr "area", PyInt 0)])
    = PyNone
  ∧ _get_grouping_filling (PyStr "year") (PyStr "ALL") = PyStr "ALL"
  ∧ _get_grouping_filling (PyStr "year") PyNone = PyNone.
Proof.
  split_and!.
  - apply (proj2 (grouping_filling_total (PyStr "area")
                    (PyDict [(PyStr "category", PyStr "TOTAL");
                             (PyStr "area", PyInt 0)]) (PyInt 0))).
    apply (fill_spec_mapped (PyStr "area")
             [(PyStr "category", PyStr "TOTAL")] (PyInt 0) []); [reflexivity|].
    apply (bool_decide_unpack _). vm_compute. exact I.
  - apply (proj2 (grouping_filling_total (PyStr "year")
                    (PyDict [(PyStr "category", PyStr "TOTAL");
                             (PyStr "area", PyInt 0)]) PyNone)).
    apply fill_spec_unmapped; [reflexivity|].
    apply (bool_decide_unpack _). vm_compute. exact I.
  - apply (proj2 (grouping_filling_total (PyStr "year") (PyStr "ALL")
                    (PyStr "ALL"))).
    apply fill_spec_other; [discriminate|reflexivity].
  - apply (proj2 (grouping_filling_total (PyStr "year") PyNone PyNone)).
    apply fill_spec_absent.
Defined.

(** A mapping asked for an unhashable name gives neither a mapped value
    nor the null marker: the lookup raises, and the bare [except] hands
    the mapping back. *)
Lemma grouping_filling_unhashable_name :
  _get_grouping_filling (PyList [PyStr "a"]) (PyDict [(PyStr "a", PyInt 1)])
  = PyDict [(PyStr "a", PyInt 1)]
  ∧ _get_grouping_filling (PyList [PyStr "a"]) (PyDict [(PyStr "a", PyInt 1)])
    ≠ PyNone
  ∧ _get_grouping_filling (PyList [PyStr "a"]) (PyDict [(PyStr "a", PyInt 1)])
    ≠ PyInt 1.
Proof. split_and!; [reflexivity|discriminate|discriminate]. Qed.

(** * The overlap validator *)

Section set_sizes.
Context `{Countable K}.
Implicit Types X Y Z : gset K.

Lemma size_difference_full X Y : size (Y ∖ X) = size Y → X ## Y.
Proof.
  intros Hsz.
  assert (Y ∖ X ≡ Y) as Heq.
  { apply set_subseteq_size_equiv; [apply subseteq_difference_l; done|lia]. }
  intros x Hx Hy. apply Heq in Hy. apply elem_of_difference in Hy as [_ Hy]. done.
Qed.

(** The cardinality identity the validator computes says exactly that the
    three sets are pairwise disjoint. *)
Lemma size_union3_disjoint X Y Z :
  size (X ∪ Y ∪ Z) = size X + size Y + size Z ↔ X ## Y ∧ X ## Z ∧ Y ## Z.
Proof.
  split.
  - intros Hsz. rewrite (size_union_alt (X ∪ Y)), (size_union_alt X) in Hsz.
    assert (size (Y ∖ X) ≤ size Y)
      by (apply subseteq_size, subseteq_difference_l; done).
    assert (size (Z ∖ (X ∪ Y)) ≤ size Z)
      by (apply subseteq_size, subseteq_difference_l; done).
    assert (X ## Y) as HXY by (apply size_difference_full; lia).
    assert (X ∪ Y ## Z) as HXYZ by (apply size_difference_full; lia).
    apply disjoint_union_l in HXYZ as [??]. done.
  - intros (HXY & HXZ & HYZ). rewrite !size_union; [lia|done|].
    by apply disjoint_union_l.
Qed.
End set_sizes.

Lemma colspec_normalize v l : colspec v l → _cols_normalize v = PyList l.
Proof. by destruct 1. Qed.

Lemma colspec_hashable v l : colspec v l → forallb hashable l = true.
Proof. by destruct 1. Qed.

Lemma cols_normalize_idemp v : _cols_normalize (_cols_normalize v) = _cols_normalize v.
Proof. by destruct v. Qed.

Lemma check_no_interleaving_cols_normalized n c r :
  _check_no_interleaving_cols (_cols_normalize n) (_cols_normalize c)
    (_cols_normalize r)
  = _check_no_interleaving_cols n c r.
Proof. unfold _check_no_interleaving_cols. by rewrite !cols_normalize_idemp. Qed.

Lemma check_no_interleaving_cols_lists ln lc lr :
  forallb hashable ln = true → forallb hashable lc = true →
  forallb hashable lr = true →
  _check_no_interleaving_cols (PyList ln) (PyList lc) (PyList lr)
  = Return (bool_decide (pairwise_disjoint ln lc lr)).
Proof.
  intros Hn Hc Hr. unfold _check_no_interleaving_cols, py_set. simpl.
  rewrite Hn, Hc, Hr. simpl. f_equal. apply bool_decide_ext.
  rewrite size_union3_disjoint. unfold pairwise_disjoint.
  rewrite !elem_of_disjoint. setoid_rewrite elem_of_list_to_set. done.
Qed.

Lemma check_no_interleaving_cols_colspec n c r ln lc lr :
  colspec n ln → colspec c lc → colspec r lr →
  _check_no_interleaving_cols n c r
  = Return (bool_decide (pairwise_disjoint ln lc lr)).
Proof.
  intros Hn Hc Hr. rewrite <-check_no_interleaving_cols_normalized.
  rewrite (colspec_normalize n ln), (colspec_normalize c lc),
    (colspec_normalize r lr) by done.
  apply check_no_interleaving_cols_lists; by eapply colspec_hashable.
Qed.

(** C7. On column specifications of the documented domain the overlap
    validator returns (it does not raise), and returns true exactly when no
    name is shared between two of the three groups, empty groups included;
    the cardinality identity it computes on the three sets is equivalent to
    their pairwise disjointness. *)
Theorem check_no_interleaving_cols_correct n c r ln lc lr :
  colspec n ln → colspec c lc → colspec r lr →
  _check_no_interleaving_cols n c r
    = Return (bool_decide (pairwise_disjoint ln lc lr))
  ∧ (let A : gset pyval := list_to_set ln in
     let B : gset pyval := list_to_set lc in
     let C : gset pyval := list_to_set lr in
     size (A ∪ B ∪ C) = size A + size B + size C ↔ A ## B ∧ A ## C ∧ B ## C).
Proof.
  intros Hn Hc Hr. split; [|apply size_union3_disjoint].
  by apply check_no_interleaving_cols_colspec.
Qed.

Lemma check_no_interleaving_cols_correct_witness :
  _check_no_interleaving_cols (PyList [PyInt 1; PyInt 2]) PyNone
    (PyList [PyInt 2; PyInt 4]) = Return false
  ∧ _check_no_interleaving_cols (PyList [PyInt 1; PyInt 2])
      (PyList [PyInt 3; PyInt 4]) (PyStr "year") = Return true.
Proof.
  split.
  - exact (proj1 (check_no_interleaving_cols_correct
             (PyList [PyInt 1; PyInt 2]) PyNone (PyList [PyInt 2; PyInt 4])
             [PyInt 1; PyInt 2] [] [PyInt 2; PyInt 4]
             (colspec_list [PyInt 1; PyInt 2] eq_refl) colspec_none
             (colspec_list [PyInt 2; PyInt 4] eq_refl))).
  - exact (proj1 (check_no_interleaving_cols_correct
             (PyList [PyInt 1; PyInt 2]) (PyList [PyInt 3; PyInt 4])
             (PyStr "year")
             [PyInt 1; PyInt 2] [PyInt 3; PyInt 4] [PyStr "year"]
             (colspec_list [PyInt 1; PyInt 2] eq_refl)
             (colspec_list [PyInt 3; PyInt 4] eq_refl)
             (colspec_name "year"))).
Defined.

(** * Validation and resolution (lines 105-128) *)

Section resolve_facts.
Context `{Engine} `{Runtime}.

Lemma hash_order_elem_of (X : gset pyval) x : x ∈ hash_order X ↔ x ∈ X.
Proof. by rewrite hash_order_perm, elem_of_elements. Qed.

Lemma hash_order_NoDup (X : gset pyval) : NoDup (hash_order X).
Proof. rewrite hash_order_perm. apply NoDup_elements. Qed.

(** What [resolve] computes on the documented domain. *)
Lemma resolve_colspec df n c r agg ln lc lr :
  colspec n ln → colspec c lc → colspec r lr →
  resolve df n c r agg =
    if bool_decide (pairwise_disjoint ln lc lr) then
      if isinstance_str agg || isinstance_dict agg
      then Return (resolved_plan df ln lc lr agg)
      else Raise (ValueError "the agg parameter should be only str or dict")
    else Raise (ValueError "the columns to be grouped by should be different").
Proof.
  intros Hn Hc Hr. unfold resolve.
  rewrite check_no_interleaving_cols_normalized.
  rewrite (check_no_interleaving_cols_colspec n c r ln lc lr) by done.
  rewrite (colspec_normalize n ln), (colspec_normalize c lc),
    (colspec_normalize r lr) by done.
  cbn [mbind result_bind]. case_bool_decide; cbn [negb]; [|done].
  cbn [py_add mbind result_bind].
  assert (forallb hashable ((ln ++ lc) ++ lr) = true) as Hh.
  { rewrite !forallb_app. by rewrite (colspec_hashable n ln),
      (colspec_hashable c lc), (colspec_hashable r lr). }
  unfold resolved_plan, resolved_agg.
  destruct agg; simpl; try done.
  unfold py_set. simpl. rewrite Hh. done.
Qed.
End resolve_facts.

(** C2 (as amended).  For a call that passes validation, the grouping
    columns are plain ++ cube ++ rollup; when [agg] is a single reduction
    name the value columns are the table's columns that are not grouping
    columns, hence disjoint from them; when [agg] is a mapping the value
    columns are exactly its keys, whether or not a key is also a grouping
    column. *)
Theorem resolve_value_cols `{Engine} `{Runtime}
    df n c r agg ln lc lr p :
  colspec n ln → colspec c lc → colspec r lr →
  resolve df n c r agg = Return p →
  plan_all_groupby_cols p = (ln ++ lc) ++ lr
  ∧ (isinstance_str agg = true →
       (∀ x, x ∈ plan_value_cols p ↔
               x ∈ columns df ∧ x ∉ plan_all_groupby_cols p)
       ∧ plan_agg p = (λ x, (x, agg)) <$> plan_value_cols p)
  ∧ (∀ d, agg = PyDict d → plan_value_cols p = d.*1 ∧ plan_agg p = d).
Proof.
  intros Hn Hc Hr Hres.
  rewrite (resolve_colspec df n c r agg ln lc lr) in Hres by done.
  case_bool_decide; [|done].
  destruct (isinstance_str agg || isinstance_dict agg) eqn:Hagg; [|done].
  injection Hres as <-. split_and!.
  - done.
  - intros Hstr. destruct agg; try done. simpl. split; [|done].
    intros x. rewrite hash_order_elem_of, elem_of_difference,
      !elem_of_list_to_set. done.
  - by intros d ->.
Qed.

Lemma resolve_value_cols_witness :
  let p := @resolved_plan RefEngine.run_a Samples.small_df []
             [PyStr "a"] [] (PyStr "sum") in
  plan_all_groupby_cols p = [PyStr "a"]
  ∧ (∀ x, x ∈ plan_value_cols p ↔
            x ∈ columns Samples.small_df ∧ x ∉ plan_all_groupby_cols p).
Proof.
  intros p.
  destruct (@resolve_value_cols RefEngine.engine RefEngine.run_a
              Samples.small_df PyNone (PyList [PyStr "a"]) PyNone
              (PyStr "sum") [] [PyStr "a"] [] p
              colspec_none (colspec_list [PyStr "a"] eq_refl) colspec_none
              eq_refl) as (Hall & Hstr & _).
  split; [exact Hall|]. exact (proj1 (Hstr eq_refl)).
Defined.

(** C2, as stated, fails: with a mapping whose key is also a cube column
    the call passes validation and starts its first pass, and column ["a"]
    is both a value column and a grouping column. *)
Lemma value_cols_overlap_grouping_cols :
  let agg := PyDict [(PyStr "a", PyStr "sum")] in
  (∃ p, @resolve RefEngine.run_a Samples.small_df PyNone (PyList [PyStr "a"])
          PyNone agg = Return p
        ∧ PyStr "a" ∈ plan_value_cols p
        ∧ PyStr "a" ∈ plan_all_groupby_cols p)
  ∧ head (trace (@cubinggroupby RefEngine.engine RefEngine.run_a
                   Samples.small_df PyNone (PyList [PyStr "a"]) PyNone agg
                   PyNone false)) = Some EvAgg.
Proof.
  split.
  - eexists. split; [reflexivity|]. split; apply list_elem_of_singleton; done.
  - vm_compute. reflexivity.
Qed.

Lemma py_set_Raise v e : py_set v = Raise e → e = TypeError.
Proof.
  unfold py_set. destruct (py_iter v) as [l|e'] eqn:Hv; simpl.
  - destruct (forallb hashable l); [done|]. congruence.
  - destruct v; simpl in Hv; congruence.
Qed.

Lemma py_add_Raise a b e : py_add a b = Raise e → e = TypeError.
Proof. destruct a, b; simpl; congruence. Qed.

Lemma check_no_interleaving_cols_Raise n c r e :
  _check_no_interleaving_cols n c r = Raise e → e = TypeError.
Proof.
  unfold _check_no_interleaving_cols.
  destruct (py_set (_cols_normalize n)) as [X|e1] eqn:Hn;
    [|intros [= <-]; by eapply py_set_Raise].
  destruct (py_set (_cols_normalize c)) as [Y|e2] eqn:Hc;
    [|intros [= <-]; by eapply py_set_Raise].
  destruct (py_set (_cols_normalize r)) as [Z|e3] eqn:Hr;
    [|intros [= <-]; by eapply py_set_Raise].
  done.
Qed.

Section configuration_errors.
Context `{Engine} `{Runtime}.

(** A shared column is the first thing looked for: whatever else is wrong
    with the call, it is reported as a [ValueError]. *)
Lemma resolve_overlap df n c r agg :
  _check_no_interleaving_cols n c r = Return false →
  resolve df n c r agg
  = Raise (ValueError "the columns to be grouped by should be different").
Proof.
  intros Hok. unfold resolve.
  by rewrite check_no_interleaving_cols_normalized, Hok.
Qed.

(** An [agg] of neither shape stops the call at line 125 at the latest;
    [set(...)] and the concatenations of line 114 come before it and raise
    [TypeError] on what they cannot take. *)
Lemma resolve_bad_agg df n c r agg :
  bad_agg agg →
  ∃ e, resolve df n c r agg = Raise e
       ∧ (e = TypeError ∨ ∃ msg, e = ValueError msg).
Proof.
  intros [Hstr Hdict]. unfold resolve.
  rewrite check_no_interleaving_cols_normalized.
  destruct (_check_no_interleaving_cols n c r) as [ok|e] eqn:Hok.
  2:{ exists e. split; [done|]. left.
      by eapply check_no_interleaving_cols_Raise. }
  cbn [mbind result_bind]. destruct ok; cbn [negb]; [|eauto].
  destruct (py_add (_cols_normalize n) (_cols_normalize c)) as [nc|e] eqn:Hnc.
  2:{ exists e. split; [done|]. left. by eapply py_add_Raise. }
  cbn [mbind result_bind].
  destruct (py_add nc (_cols_normalize r)) as [all|e] eqn:Hall.
  2:{ exists e. split; [done|]. left. by eapply py_add_Raise. }
  cbn [mbind result_bind]. rewrite Hstr.
  destruct agg; try done; cbn [mbind result_bind]; eauto.
Qed.
End configuration_errors.

(** C4 (as amended).  A column that the validator finds in two of the
    three roles makes the call raise [ValueError] with an empty trace.  An
    [agg] that is neither a string nor a dict makes the call raise with an
    empty trace too: a [ValueError], unless [set(...)] or the concatenation
    of the column lists has raised [TypeError] before line 125 is reached.
    On column specifications that are [None], one string or a list of
    names, either fault gives a [ValueError].  In every case no pass has
    been handed to the engine and no table is returned. *)
Theorem config_errors_before_aggregation `{Engine} `{Runtime}
    df n c r agg fill_grouping as_index :
  (_check_no_interleaving_cols n c r = Return false →
   cubinggroupby df n c r agg fill_grouping as_index
   = mkM [] (Raise (ValueError
                      "the columns to be grouped by should be different")))
  ∧ (bad_agg agg →
     ∃ e, cubinggroupby df n c r agg fill_grouping as_index = mkM [] (Raise e)
          ∧ (e = TypeError ∨ ∃ msg, e = ValueError msg))
  ∧ (∀ ln lc lr,
       colspec n ln → colspec c lc → colspec r lr →
       ¬ pairwise_disjoint ln lc lr ∨ bad_agg agg →
       ∃ msg, cubinggroupby df n c r agg fill_grouping as_index
              = mkM [] (Raise (ValueError msg))).
Proof.
  split_and!.
  - intros Hok. unfold cubinggroupby. by rewrite resolve_overlap.
  - intros Hbad. destruct (resolve_bad_agg df n c r agg Hbad) as (e & He & Hcls).
    exists e. split; [|done]. unfold cubinggroupby. by rewrite He.
  - intros ln lc lr Hn Hc Hr Hbad. unfold cubinggroupby.
    rewrite (resolve_colspec df n c r agg ln lc lr) by done.
    case_bool_decide as Hdisj.
    + destruct Hbad as [Hov|[Hstr Hdict]]; [done|].
      rewrite Hstr, Hdict. by eexists.
    + by eexists.
Qed.

Lemma config_errors_before_aggregation_witness :
  (∃ msg, @cubinggroupby RefEngine.engine RefEngine.run_a Samples.test_df
            (PyStr "year") (PyList [PyStr "category"; PyStr "area"])
            (PyList [PyStr "year"]) (PyStr "sum") PyNone true
          = mkM [] (Raise (ValueError msg)))
  ∧ (∃ msg, @cubinggroupby RefEngine.engine RefEngine.run_a Samples.test_df
              PyNone (PyList [PyStr "category"; PyStr "area"])
              (PyList [PyStr "year"]) (PyList [PyStr "sum"]) PyNone true
            = mkM [] (Raise (ValueError msg))).
Proof.
  split.
  - apply (proj2 (proj2
             (@config_errors_before_aggregation RefEngine.engine
                RefEngine.run_a Samples.test_df (PyStr "year")
                (PyList [PyStr "category"; PyStr "area"])
                (PyList [PyStr "year"]) (PyStr "sum") PyNone true))
             [PyStr "year"] [PyStr "category"; PyStr "area"] [PyStr "year"]
             (colspec_name "year")
             (colspec_list [PyStr "category"; PyStr "area"] eq_refl)
             (colspec_list [PyStr "year"] eq_refl)).
    left. intros (_ & Hov & _). apply (Hov (PyStr "year")); by apply list_elem_of_singleton.
  - apply (proj2 (proj2
             (@config_errors_before_aggregation RefEngine.engine
                RefEngine.run_a Samples.test_df PyNone
                (PyList [PyStr "category"; PyStr "area"])
                (PyList [PyStr "year"]) (PyList [PyStr "sum"]) PyNone true))
             [] [PyStr "category"; PyStr "area"] [PyStr "year"]
             colspec_none
             (colspec_list [PyStr "category"; PyStr "area"] eq_refl)
             (colspec_list [PyStr "year"] eq_refl)).
    right. by split.
Defined.

(** With a tuple of names the concatenation of line 114 raises before
    [agg] is looked at: an [agg] that is neither a string nor a dict is
    then answered by a [TypeError], not a [ValueError]. *)
Lemma bad_agg_answered_by_type_error :
  bad_agg PyNone
  ∧ @cubinggroupby RefEngine.engine RefEngine.run_a Samples.small_df
      PyNone (PyTuple [PyStr "a"]) PyNone PyNone PyNone true
    = mkM [] (Raise TypeError).
Proof. split; [by split|reflexivity]. Qed.

(** * Reasoning about the two monads *)

Lemma result_bind_Return {A B} (m : result A) (f : A → result B) b :
  m ≫= f = Return b → ∃ a, m = Return a ∧ f a = Return b.
Proof. destruct m as [a|e]; [|done]. intros Hf. by exists a. Qed.

Lemma result_fmap_Return {A B} (m : result A) (f : A → B) b :
  f <$> m = Return b → ∃ a, m = Return a ∧ b = f a.
Proof. destruct m as [a|e]; [|done]. intros [= <-]. by exists a. Qed.

Lemma mapM_Return {A B} (f : A → result B) l k :
  mapM f l = Return k → Forall2 (λ x y, f x = Return y) l k.
Proof.
  revert k. induction l as [|x l IH]; intros k; simpl.
  - intros [= <-]. constructor.
  - intros Hk. apply result_bind_Return in Hk as (y & Hy & Hk).
    apply result_bind_Return in Hk as (k' & Hk' & [= <-]).
    constructor; [done|]. by apply IH.
Qed.

Lemma mapM_Return_length {A B} (f : A → result B) l k :
  mapM f l = Return k → length k = length l.
Proof. intros Hk. symmetry. eapply Forall2_length, mapM_Return, Hk. Qed.

Lemma mapM_Return_2 {A B} (f : A → result B) l k :
  Forall2 (λ x y, f x = Return y) l k → mapM f l = Return k.
Proof.
  induction 1 as [|x y l k Hxy _ IH]; simpl; [done|]. by rewrite Hxy, IH.
Qed.

Lemma for_each_result_inv {A S} (P : S → Prop) (body : S → A → result S)
    (xs : list A) (s0 s : S) :
  P s0 →
  (∀ s x s', x ∈ xs → P s → body s x = Return s' → P s') →
  for_each xs body s0 = Return s → P s.
Proof.
  revert s0. induction xs as [|x xs IH]; intros s0 H0 Hstep; simpl.
  - by intros [= <-].
  - intros Hs. apply result_bind_Return in Hs as (s' & Hs' & Hs).
    eapply IH; [| |exact Hs].
    + eapply Hstep; [by left|exact H0|exact Hs'].
    + intros s1 y s2 Hy. apply Hstep. by right.
Qed.


Lemma M_bind_Return {A B} (m : M A) (f : A → M B) t b :
  m ≫= f = mkM t (Return b) →
  ∃ a t1 t2, m = mkM t1 (Return a) ∧ f a = mkM t2 (Return b) ∧ t = t1 ++ t2.
Proof.
  destruct m as [t1 [a|e]]; unfold mbind, M_bind; simpl; [|done].
  destruct (f a) as [t2 o] eqn:Hf. simpl. intros [= <- ->].
  exists a, t1, t2. by rewrite Hf.
Qed.

Lemma M_lift_Return {A} (r : result A) t a :
  lift r = mkM t (Return a) → r = Return a ∧ t = [].
Proof. by intros [= <- ->]. Qed.

(** A loop that appends one result per item is [mapM]. *)
Lemma for_each_append {A B} (f : A → M B) (xs : list A) (acc : list B) :
  for_each xs (λ acc x, y ← f x; mret (acc ++ [y])) acc
  = (ys ← mapM f xs; mret (acc ++ ys)).
Proof.
  revert acc. induction xs as [|x xs IH]; intros acc; simpl.
  - unfold mbind, M_bind, mret, M_ret. simpl. by rewrite app_nil_r.
  - destruct (f x) as [t1 [y|e]]; unfold mbind, M_bind, mret, M_ret; simpl;
      [|done].
    rewrite IH. unfold mbind, M_bind, mret, M_ret.
    destruct (mapM f xs) as [t2 [ys|e]]; simpl.
    + by rewrite !app_nil_r, <-!app_assoc.
    + by rewrite !app_nil_r.
Qed.


(** A successful [mapM] ran every item; its trace is the items' traces in
    order. *)
Lemma M_mapM_Return {A B} (f : A → M B) (xs : list A) t ys :
  mapM f xs = mkM t (Return ys) →
  Forall2 (λ x y, outcome (f x) = Return y) xs ys
  ∧ t = mjoin ((λ x, trace (f x)) <$> xs).
Proof.
  revert t ys. induction xs as [|x xs IH]; intros t ys; simpl.
  - intros [= <- <-]. split; [constructor|done].
  - intros Hm. apply M_bind_Return in Hm as (y & t1 & t2 & Hy & Hm & ->).
    apply M_bind_Return in Hm as (ys' & t3 & t4 & Hys & [= <- <-] & ->).
    apply IH in Hys as [Hall ->]. rewrite Hy. simpl. split.
    + constructor; [by rewrite Hy|done].
    + by rewrite app_nil_r.
Qed.

(** * The shape of a successful run *)

Lemma for_each_nested_append {A C B} (f : A → C → M B) (xs : list A)
    (zs : list C) (acc : list B) :
  for_each xs (λ acc x,
    for_each zs (λ acc z, y ← f x z; mret (acc ++ [y])) acc) acc
  = (yss ← mapM (λ x, mapM (f x) zs) xs; mret (acc ++ mjoin yss)).
Proof.
  revert acc. induction xs as [|x xs IH]; intros acc; simpl.
  - unfold mbind, M_bind, mret, M_ret. simpl. by rewrite app_nil_r.
  - rewrite for_each_append.
    destruct (mapM (f x) zs) as [t1 [ys|e]];
      unfold mbind, M_bind, mret, M_ret; simpl; [|done].
    rewrite IH. unfold mbind, M_bind, mret, M_ret.
    destruct (mapM _ xs) as [t2 [yss|e]]; simpl.
    + by rewrite !app_nil_r, <-!app_assoc.
    + by rewrite !app_nil_r.
Qed.


Lemma bind_singleton_fmap {A B} (h : A → B) (l : list A) :
  (l ≫= λ x, [h x]) = h <$> l.
Proof. induction l as [|x l IH]; csimpl; [done|]. by rewrite IH. Qed.

Lemma grouping_sets_unfold normal cube rollup :
  grouping_sets normal cube rollup
  = mjoin ((λ cs, (λ rs, (normal ++ cs) ++ rs)
                    <$> _get_rollup_combinations rollup)
           <$> _get_cube_combinations cube).
Proof.
  unfold grouping_sets.
  induction (_get_cube_combinations cube) as [|cs css IH]; csimpl; [done|].
  by rewrite IH, bind_singleton_fmap.
Qed.

Lemma length_grouping_sets normal cube rollup :
  length (grouping_sets normal cube rollup)
  = 2 ^ length cube * (length rollup + 1).
Proof.
  rewrite grouping_sets_unfold, length_mjoin_fmap.
  rewrite <-(length_cube_combinations cube).
  rewrite <-(length_rollup_combinations rollup).
  generalize (_get_cube_combinations cube) as css.
  induction css as [|cs css IH]; simpl; [done|].
  rewrite IH, length_fmap. done.
Qed.

Section driver_run.
Context `{Engine} `{Runtime}.

Lemma cubing_pass_closed df p fill_grouping cs rs :
  cubing_pass df p fill_grouping cs rs
  = mkM [pass_event ((plan_normal_cols p ++ cs) ++ rs)]
        (pass_result df p fill_grouping cs rs).
Proof.
  unfold cubing_pass, pass_result, pass_event.
  case_decide.
  - destruct (df_agg df (plan_agg p)) as [sr|e];
      unfold mbind, M_bind; simpl; [|done].
    unfold mbind. by destruct (for_each _ _ sr).
  - destruct (df_groupby_agg df _ (plan_agg p)) as [sr|e];
      unfold mbind, M_bind; simpl; [|done].
    unfold mbind. by destruct (for_each _ _ sr).
Qed.

Lemma passes_trace df p fill_grouping cs rss t ys :
  mapM (cubing_pass df p fill_grouping cs) rss = mkM t (Return ys) →
  Forall2 (λ rs y, pass_result df p fill_grouping cs rs = Return y) rss ys
  ∧ t = pass_event <$> ((λ rs, (plan_normal_cols p ++ cs) ++ rs) <$> rss).
Proof.
  intros Hm. apply M_mapM_Return in Hm as [Hall ->]. split.
  - eapply Forall2_impl; [exact Hall|]. intros rs y Hy. simpl in Hy.
    by rewrite cubing_pass_closed in Hy.
  - clear Hall. induction rss as [|rs rss IH]; csimpl; [done|].
    by rewrite cubing_pass_closed, IH.
Qed.

(** A call that returns has resolved its plan, run every pass of the double
    loop with success, and assembled their results. *)
Lemma cubinggroupby_Return df n c r agg fill_grouping as_index t res :
  cubinggroupby df n c r agg fill_grouping as_index = mkM t (Return res) →
  ∃ p yss,
    resolve df n c r agg = Return p
    ∧ Forall2 (λ cs ys,
         Forall2 (λ rs y, pass_result df p fill_grouping cs rs = Return y)
           (_get_rollup_combinations (plan_rollup_cols p)) ys)
        (_get_cube_combinations (plan_cube_cols p)) yss
    ∧ t = pass_event <$> grouping_sets (plan_normal_cols p)
                           (plan_cube_cols p) (plan_rollup_cols p)
    ∧ assemble p (mjoin yss) as_index = Return res.
Proof.
  unfold cubinggroupby. intros Hrun.
  apply M_bind_Return in Hrun as (p & t1 & t2 & Hp & Hrun & ->).
  apply M_lift_Return in Hp as [Hp ->].
  exists p. rewrite for_each_nested_append in Hrun.
  apply M_bind_Return in Hrun as (dfs & t3 & t4 & Hloops & Hrun & ->).
  apply M_bind_Return in Hloops as (yss & t5 & t6 & Hloops & [= <- <-] & ->).
  exists yss.
  assert (assemble p (mjoin yss) as_index = Return res ∧ t4 = []) as [Hasm ->].
  { unfold assemble. simpl in Hrun.
    apply M_bind_Return in Hrun as (u & t7 & t8 & Hu & Hrun & ->).
    apply M_lift_Return in Hu as [-> ->]. simpl.
    destruct as_index.
    - by apply M_lift_Return in Hrun as [-> ->].
    - by injection Hrun as <- <-. }
  split_and!; [done| |  |done].
  - apply M_mapM_Return in Hloops as [Hall _].
    eapply Forall2_impl; [exact Hall|]. intros cs ys Hys. simpl in Hys.
    destruct (mapM _ _) as [t' o] eqn:Hm. simpl in Hys. subst o.
    by apply passes_trace in Hm as [? _].
  - simpl. rewrite !app_nil_r, grouping_sets_unfold.
    apply M_mapM_Return in Hloops as [Hall ->]. clear Hrun Hasm.
    induction Hall as [|cs ys css yss Hys _ IH]; csimpl; [done|].
    rewrite fmap_app. f_equal; [|exact IH].
    destruct (mapM _ _) as [t' o] eqn:Hm. simpl in Hys. subst o.
    by apply passes_trace in Hm as [_ ->].
Qed.
End driver_run.

(** * Facts about the table operations *)

Section frames.
Context `{Engine}.

Lemma sort_by_Permutation key rws : sort_by key rws ≡ₚ rws.
Proof. unfold sort_by. apply merge_sort_Permutation. Qed.

Lemma length_sort_by key rws : length (sort_by key rws) = length rws.
Proof. by rewrite sort_by_Permutation. Qed.

Lemma col_index_Return c cols i :
  col_index c cols = Return i ↔
  cols !! i = Some c ∧ ∀ j, j < i → cols !! j ≠ Some c.
Proof.
  unfold col_index.
  destruct (list_find _ cols) as [[j y]|] eqn:Hfind.
  - apply list_find_Some in Hfind as (Hj & -> & Hfirst). split.
    + intros [= <-]. split; [done|]. intros k Hk Hck. by eapply Hfirst.
    + intros [Hi Hfirst']. f_equal.
      destruct (Nat.lt_trichotomy i j) as [Hlt|[->|Hgt]]; [|done|].
      * by destruct (Hfirst i c Hi Hlt).
      * by destruct (Hfirst' j Hgt).
  - split; [done|]. intros [Hi _].
    eapply list_find_None, Forall_forall in Hfind; [|by eapply list_elem_of_lookup_2].
    done.
Qed.

Lemma col_index_key_positions df by_cols idxs :
  mapM (λ c, col_index c (columns df)) by_cols = Return idxs →
  key_positions df by_cols = idxs.
Proof.
  intros Hm. apply mapM_Return in Hm. unfold key_positions.
  induction Hm as [|c i cs idxs Hc _ IH]; csimpl; [done|].
  unfold col_index in Hc. destruct (list_find _ _) as [[j y]|]; [|done].
  injection Hc as ->. csimpl. by rewrite IH.
Qed.

Lemma length_rows_setitem df c cells :
  length cells = length (rows df) →
  length (rows (setitem df c cells)) = length (rows df).
Proof.
  intros Hlen. unfold setitem.
  destruct (list_find _ _) as [[i y]|]; simpl;
    rewrite length_zip_with; lia.
Qed.

Lemma getitem_length df c cells :
  getitem df c = Return cells → length cells = length (rows df).
Proof.
  unfold getitem. intros Hg.
  apply result_bind_Return in Hg as (i & _ & [= <-]). by rewrite length_fmap.
Qed.

Lemma df_agg_Return df agg F :
  df_agg df agg = Return F →
  ∃ vals, aggregate_rows (columns df) agg (rows df) = Return vals
          ∧ F = mkDataFrame [] agg.*1 [vals].
Proof.
  unfold df_agg. case_decide; [done|]. intros HF.
  apply result_bind_Return in HF as (vals & Hvals & [= <-]). eauto.
Qed.

Lemma df_groupby_agg_rows df by_cols agg F :
  df_groupby_agg df by_cols agg = Return F →
  length (rows F)
  = length (remove_dups
              (filter notnull (project (key_positions df by_cols) <$> rows df))).
Proof.
  unfold df_groupby_agg. intros HF.
  apply result_bind_Return in HF as (idxs & Hidxs & HF).
  case_decide; [done|].
  apply result_bind_Return in HF as (out & Hout & [= <-]). simpl.
  apply mapM_Return_length in Hout. rewrite Hout.
  unfold group_keys. rewrite length_sort_by.
  by rewrite (col_index_key_positions df by_cols idxs).
Qed.

Lemma select_Return df cols F :
  select df cols = Return F →
  columns F = cols ∧ length (rows F) = length (rows df).
Proof.
  unfold select. intros HF.
  apply result_bind_Return in HF as (idxs & _ & [= <-]). simpl.
  by rewrite length_fmap.
Qed.

Lemma concat_rows dfs u :
  concat dfs = Return u → rows u = mjoin (rows <$> dfs).
Proof. destruct dfs; [done|]. by intros [= <-]. Qed.

Lemma sort_values_Return df by_cols s :
  sort_values df by_cols = Return s →
  index_names s = index_names df ∧ columns s = columns df
  ∧ rows s ≡ₚ rows df
  ∧ Forall (λ c, ∃ i, unique_col_index c (columns df) = Return i) by_cols.
Proof.
  unfold sort_values. intros Hs.
  apply result_bind_Return in Hs as (idxs & Hidxs & [= <-]). simpl.
  split_and!; [done|done|apply sort_by_Permutation|].
  apply mapM_Return in Hidxs.
  induction Hidxs; constructor; eauto.
Qed.
End frames.

Section row_count.
Context `{Engine} `{Runtime}.

Lemma fill_folded_rows df fill_grouping sr c sr' :
  fill_folded df fill_grouping sr c = Return sr' →
  length (rows sr') = length (rows sr).
Proof.
  unfold fill_folded. intros Hf.
  apply result_bind_Return in Hf as (orig & _ & Hf).
  apply result_bind_Return in Hf as (col & Hcol & Hf).
  assert (length (rows (setitem_scalar sr c
             (_get_grouping_filling c fill_grouping))) = length (rows sr))
    as Hlen.
  { unfold setitem_scalar. apply length_rows_setitem. by rewrite length_replicate. }
  apply getitem_length in Hcol.
  destruct (_ && _);
    apply result_bind_Return in Hf as (col' & Hcol' & [= <-]);
    apply mapM_Return_length in Hcol';
    rewrite length_rows_setitem; lia.
Qed.

Lemma pass_result_rows df p fill_grouping cs rs y :
  pass_result df p fill_grouping cs rs = Return y →
  columns y = plan_result_cols p
  ∧ length (rows y) = group_count df ((plan_normal_cols p ++ cs) ++ rs).
Proof.
  unfold pass_result, group_count. intros Hy.
  apply result_bind_Return in Hy as (sr & Hsr & Hy).
  apply result_bind_Return in Hy as (sr' & Hfill & Hy).
  apply select_Return in Hy as [Hcols ->]. split; [done|].
  assert (length (rows sr') = length (rows sr)) as ->.
  { eapply (for_each_result_inv (λ s, length (rows s) = length (rows sr)));
      [done| |exact Hfill].
    intros s x s' _ <- Hs. by eapply fill_folded_rows. }
  case_decide.
  - by apply df_agg_Return in Hsr as (vals & _ & ->).
  - by apply df_groupby_agg_rows in Hsr.
Qed.

Lemma assemble_rows p dfs as_index res :
  assemble p dfs as_index = Return res →
  length (rows res) = sum_list_with (λ d, length (rows d)) dfs.
Proof.
  unfold assemble. intros Hres.
  apply result_bind_Return in Hres as (u & Hu & Hres).
  apply result_bind_Return in Hu as (u0 & Hu0 & Hu).
  apply result_bind_Return in Hu as (s & Hs & [= <-]).
  apply concat_rows in Hu0. apply sort_values_Return in Hs as (_ & _ & Hperm & _).
  assert (length (rows (reset_index_drop s))
          = sum_list_with (λ d, length (rows d)) dfs) as Hlen.
  { unfold reset_index_drop. simpl. rewrite length_fmap, Hperm, Hu0.
    clear. induction dfs as [|d dfs IH]; csimpl; [done|].
    by rewrite length_app, IH. }
  destruct as_index.
  - apply result_fmap_Return in Hres as (si & Hsi & ->).
    unfold sort_index. simpl. rewrite length_sort_by.
    unfold set_index in Hsi. case_decide; [done|].
    apply result_bind_Return in Hsi as (idxs & _ & [= <-]). simpl.
    by rewrite length_fmap.
  - by injection Hres as <-.
Qed.

Lemma passes_row_count df p fill_grouping css rss yss :
  Forall2 (λ cs ys,
     Forall2 (λ rs y, pass_result df p fill_grouping cs rs = Return y) rss ys)
    css yss →
  sum_list_with (λ d, length (rows d)) (mjoin yss)
  = sum_list_with (group_count df)
      (mjoin ((λ cs, (λ rs, (plan_normal_cols p ++ cs) ++ rs) <$> rss) <$> css)).
Proof.
  induction 1 as [|cs ys css yss Hys _ IH]; csimpl; [done|].
  rewrite !sum_list_with_app, IH. f_equal.
  clear IH. induction Hys as [|rs y rss ys Hy _ IH]; csimpl; [done|].
  apply pass_result_rows in Hy as [_ ->]. by rewrite IH.
Qed.
End row_count.

(** * The fully folded pass *)

Section labels.
Context `{Engine}.

Lemma list_find_label_None (c : pyval) cols :
  list_find (λ x, x = c) cols = None ↔ c ∉ cols.
Proof.
  rewrite list_find_None, Forall_forall. split.
  - intros Hall Hc. by apply (Hall c).
  - intros Hc x Hx ->. done.
Qed.

Lemma list_find_label_Some (c : pyval) cols i :
  col_index c cols = Return i →
  list_find (λ x, x = c) cols = Some (i, c).
Proof.
  unfold col_index. destruct (list_find _ cols) as [[j y]|] eqn:Hfind; [|done].
  intros [= ->]. by apply list_find_Some in Hfind as (_ & -> & _).
Qed.


Lemma col_index_app_l l1 l2 i c :
  NoDup l1 → l1 !! i = Some c → col_index c (l1 ++ l2) = Return i.
Proof.
  intros Hnd Hi. apply col_index_Return. split.
  - by apply lookup_app_l_Some.
  - intros j Hj Hjc. apply lookup_lt_Some in Hi as Hlen.
    rewrite lookup_app_l in Hjc by lia.
    assert (j = i) by (by eapply NoDup_lookup). lia.
Qed.

Lemma col_index_app_r l1 l2 k c :
  c ∉ l1 → NoDup l2 → l2 !! k = Some c →
  col_index c (l1 ++ l2) = Return (length l1 + k).
Proof.
  intros Hc Hnd Hk. apply col_index_Return. split.
  - rewrite lookup_app_r by lia. by replace (length l1 + k - length l1) with k by lia.
  - intros j Hj Hjc. destruct (decide (j < length l1)) as [Hlt|Hge].
    + rewrite lookup_app_l in Hjc by done. by apply list_elem_of_lookup_2 in Hjc.
    + rewrite lookup_app_r in Hjc by lia.
      assert (j - length l1 = k) by (by eapply NoDup_lookup). lia.
Qed.

Lemma col_indexes_prefix l1 l2 :
  NoDup l1 →
  mapM (λ c, col_index c (l1 ++ l2)) l1 = Return (seq 0 (length l1)).
Proof.
  intros Hnd. apply mapM_Return_2.
  apply Forall2_same_length_lookup_2; [by rewrite length_seq|].
  intros i c j Hc Hj. apply lookup_seq in Hj as [-> _].
  by apply col_index_app_l.
Qed.

Lemma project_seq (l : list pyval) a n :
  a + n ≤ length l → project (seq a n) l = take n (drop a l).
Proof.
  intros Hlen. unfold project. apply list_eq. intros i.
  rewrite list_lookup_fmap. destruct (decide (i < n)) as [Hi|Hi].
  - rewrite lookup_seq_lt, lookup_take_lt, lookup_drop by done. simpl.
    symmetry. apply list_lookup_lookup_total_lt. lia.
  - rewrite lookup_seq_ge, lookup_take_ge by lia. done.
Qed.

Lemma project_prefix (l1 l2 : list pyval) :
  project (seq 0 (length l1)) (l1 ++ l2) = l1.
Proof.
  rewrite project_seq by (rewrite length_app; lia).
  by rewrite drop_0, take_app_length.
Qed.

Lemma project_suffix (l1 l2 : list pyval) :
  project (seq (length l1) (length l2)) (l1 ++ l2) = l2.
Proof.
  rewrite project_seq by (rewrite length_app; lia).
  by rewrite drop_app_length, firstn_all.
Qed.

(** Sorting by a label that several columns carry is refused, so a sort
    that went through certifies that its keys are distinct and label no
    other column. *)
Lemma unique_labels all vc :
  Forall (λ c, ∃ i, unique_col_index c (all ++ vc) = Return i) all →
  NoDup all ∧ ∀ c, c ∈ all → c ∉ vc.
Proof.
  intros Hall.
  assert (∀ c, c ∈ all → ∃ i, all !! i = Some c
            ∧ (∀ j, j < i → all !! j ≠ Some c)
            ∧ (c ∉ drop (S i) all) ∧ (c ∉ vc)) as Hfirst.
  { intros c Hc. eapply Forall_forall in Hall as [i Hi]; [|exact Hc].
    unfold unique_col_index in Hi.
    apply result_bind_Return in Hi as (i' & Hci & Hi).
    case_decide as Hdrop; [done|]. injection Hi as ->.
    apply col_index_Return in Hci as [Hi Hbefore].
    assert (i < length all) as Hlt.
    { apply list_elem_of_lookup in Hc as [k Hk].
      destruct (decide (i < length all)); [done|].
      apply lookup_lt_Some in Hk as Hklen.
      destruct (Hbefore k); [lia|]. by apply lookup_app_l_Some. }
    rewrite drop_app_le in Hdrop by lia.
    rewrite elem_of_app in Hdrop.
    exists i. rewrite lookup_app_l in Hi by done. split_and!; [done| |tauto|tauto].
    intros j Hj Hjc. apply (Hbefore j Hj). by apply lookup_app_l_Some. }
  split.
  - apply NoDup_alt. intros i j c Hi Hj.
    destruct (Hfirst c) as (i0 & Hi0 & Hbefore & Hafter & _);
      [by eapply list_elem_of_lookup_2|].
    assert (∀ k, all !! k = Some c → k = i0) as Honly.
    { intros k Hk. destruct (Nat.lt_trichotomy k i0) as [Hlt|[->|Hgt]]; [|done|].
      - by destruct (Hbefore k Hlt).
      - destruct Hafter. apply list_elem_of_lookup. exists (k - S i0).
        rewrite lookup_drop. by replace (S i0 + (k - S i0)) with k by lia. }
    by rewrite (Honly i Hi), (Honly j Hj).
  - intros c Hc. by destruct (Hfirst c Hc) as (_ & _ & _ & _ & ?).
Qed.
End labels.

Section folded_pass.
Context `{Engine} `{Runtime}.

(** Filling one folded column of a one-row table that does not have it
    yet appends the column, holding [folded_cell]. *)
Lemma fill_folded_single df fill_grouping F c r F' :
  c ∉ columns F → rows F = [r] → length r = length (columns F) →
  fill_folded df fill_grouping F c = Return F' →
  ∃ v, folded_cell df fill_grouping c = Return v
       ∧ index_names F' = index_names F
       ∧ columns F' = columns F ++ [c]
       ∧ rows F' = [r ++ [v]].
Proof.
  intros Hc Hrows Hlen. unfold fill_folded, folded_cell.
  set (s := _get_grouping_filling c fill_grouping).
  assert (setitem_scalar F c s
          = mkDataFrame (index_names F) (columns F ++ [c]) [r ++ [s]]) as ->.
  { unfold setitem_scalar, setitem.
    rewrite (proj2 (list_find_label_None c (columns F)) Hc), Hrows. done. }
  assert (col_index c (columns F ++ [c]) = Return (length (columns F) + 0))
    as Hidx.
  { apply col_index_app_r; [done|apply NoDup_singleton|done]. }
  rewrite Nat.add_0_r in Hidx.
  assert (getitem (mkDataFrame (index_names F) (columns F ++ [c]) [r ++ [s]]) c
          = Return [s]) as Hcol.
  { unfold getitem. simpl. rewrite Hidx. simpl.
    by rewrite <-Hlen, list_lookup_total_middle. }
  intros HF. apply result_bind_Return in HF as (orig & -> & HF).
  rewrite Hcol in HF. simpl in HF. simpl.
  unfold setitem in HF. simpl in HF.
  rewrite (list_find_label_Some c _ _ Hidx) in HF.
  destruct (_ && _); simpl in HF.
  - destruct (to_numeric s) as [v|e]; [|done]. injection HF as <-.
    exists v. simpl. split_and!; try done.
    by rewrite <-Hlen, insert_app_r_alt, Nat.sub_diag by done.
  - destruct (astype _ s) as [v|e]; [|done]. injection HF as <-.
    exists v. simpl. split_and!; try done.
    by rewrite <-Hlen, insert_app_r_alt, Nat.sub_diag by done.
Qed.

Lemma fill_folded_loop df fill_grouping rem F r F' :
  NoDup rem → (∀ c, c ∈ rem → c ∉ columns F) →
  rows F = [r] → length r = length (columns F) →
  for_each rem (fill_folded df fill_grouping) F = Return F' →
  ∃ fills,
    Forall2 (λ c v, folded_cell df fill_grouping c = Return v) rem fills
    ∧ index_names F' = index_names F
    ∧ columns F' = columns F ++ rem
    ∧ rows F' = [r ++ fills].
Proof.
  revert F r. induction rem as [|c rem IH]; intros F r Hnd Hnew Hrows Hlen; simpl.
  - intros [= <-]. exists []. by rewrite !app_nil_r.
  - intros HF. apply result_bind_Return in HF as (F1 & HF1 & HF).
    apply NoDup_cons in Hnd as [Hc Hnd].
    apply fill_folded_single with (r := r) in HF1
      as (v & Hv & Hix1 & Hcols1 & Hrows1); [|by apply Hnew; left|done..].
    apply IH with (r := r ++ [v]) in HF
      as (fills & Hfills & Hix & Hcols & Hrows'); [|done| |done|].
    + exists (v :: fills). split_and!.
      * by constructor.
      * congruence.
      * by rewrite Hcols, Hcols1, <-app_assoc.
      * by rewrite Hrows', <-app_assoc.
    + intros c' Hc'. rewrite Hcols1, elem_of_app, list_elem_of_singleton.
      intros [Hin| ->]; [|done]. eapply Hnew; [by right|done].
    + rewrite Hcols1, !length_app, Hlen. done.
Qed.
End folded_pass.

Lemma mapM_app_Return {A B} (f : A → result B) l1 l2 k :
  mapM f (l1 ++ l2) = Return k →
  ∃ k1 k2, k = k1 ++ k2 ∧ mapM f l1 = Return k1 ∧ mapM f l2 = Return k2.
Proof.
  intros Hk. apply mapM_Return, Forall2_app_inv_l in Hk
    as (k1 & k2 & H1 & H2 & ->).
  exists k1, k2. split_and!; [done|by apply mapM_Return_2..].
Qed.

Section grand_total.
Context `{Engine} `{Runtime}.

(** The pass over the empty grouping set: one row, holding the folded
    cell of every grouping column and then the whole-table aggregates. *)
Lemma pass_result_fully_folded df p fill_grouping y :
  plan_normal_cols p = [] →
  (plan_agg p).*1 = plan_value_cols p →
  plan_result_cols p = plan_all_groupby_cols p ++ plan_value_cols p →
  NoDup (plan_all_groupby_cols p) → NoDup (plan_value_cols p) →
  (∀ c, c ∈ plan_all_groupby_cols p → c ∉ plan_value_cols p) →
  pass_result df p fill_grouping [] [] = Return y →
  ∃ fills totals,
    Forall2 (λ c v, folded_cell df fill_grouping c = Return v)
      (plan_all_groupby_cols p) fills
    ∧ df_agg df (plan_agg p)
      = Return (mkDataFrame [] (plan_value_cols p) [totals])
    ∧ length totals = length (plan_value_cols p)
    ∧ index_names y = []
    ∧ columns y = plan_all_groupby_cols p ++ plan_value_cols p
    ∧ rows y = [fills ++ totals].
Proof.
  destruct p as [ln lc lr all vc agg rc]. simpl.
  intros -> Hkeys -> Hnd_all Hnd_vc Hdisj. unfold pass_result. simpl.
  intros Hy. apply result_bind_Return in Hy as (F & HF & Hy).
  apply result_bind_Return in Hy as (F' & HF' & Hy).
  apply df_agg_Return in HF as Hvals. destruct Hvals as (vals & Hvals & ->).
  assert (length vals = length vc) as Hlen.
  { apply mapM_Return_length in Hvals. by rewrite Hvals, <-Hkeys, length_fmap. }
  rewrite Hkeys in HF, HF'.
  apply fill_folded_loop with (r := vals) in HF'
    as (fills_rem & Hfills & Hix & Hcols & Hrows); simpl; [|..|done|done].
  2:{ apply hash_order_NoDup. }
  2:{ intros c Hc. apply Hdisj.
      apply hash_order_elem_of, elem_of_difference in Hc as [Hc _].
      by apply elem_of_list_to_set in Hc. }
  simpl in *.
  unfold select in Hy. rewrite Hcols, Hrows in Hy.
  apply result_bind_Return in Hy as (idxs & Hidxs & [= <-]). simpl.
  apply mapM_app_Return in Hidxs as (i_all & i_vc & -> & Hi_all & Hi_vc).
  rewrite col_indexes_prefix in Hi_vc by done. injection Hi_vc as <-.
  exists (project i_all (vals ++ fills_rem)), vals.
  split_and!; [|done|done|done|done|].
  - apply mapM_Return in Hi_all.
    apply Forall2_same_length_lookup_2.
    { unfold project. rewrite length_fmap. by eapply Forall2_length. }
    intros j g v Hg Hv. unfold project in Hv.
    apply list_lookup_fmap_Some in Hv as (i & -> & Hi).
    eapply Forall2_lookup_lr in Hi_all; [|exact Hg|exact Hi].
    assert (g ∈ hash_order (list_to_set all ∖ list_to_set [])) as Hrem.
    { apply hash_order_elem_of, elem_of_difference. split.
      - apply elem_of_list_to_set. by eapply list_elem_of_lookup_2.
      - rewrite list_to_set_nil. apply not_elem_of_empty. }
    apply list_elem_of_lookup in Hrem as [k Hk].
    rewrite (col_index_app_r vc _ k g) in Hi_all;
      [|apply Hdisj; by eapply list_elem_of_lookup_2
       |apply hash_order_NoDup|done].
    injection Hi_all as <-.
    destruct (Forall2_lookup_l _ _ _ _ _ Hfills Hk) as (v & Hv & Hcell).
    rewrite <-Hlen, lookup_total_app_r, Nat.add_comm, Nat.add_sub by lia.
    by rewrite (list_lookup_total_correct _ _ _ Hv).
  - unfold project. rewrite fmap_app. f_equal. f_equal.
    rewrite <-Hlen. apply project_prefix.
Qed.
End grand_total.

Lemma filter_all {A} (P : A → Prop) `{∀ x, Decision (P x)} (l : list A) :
  Forall P l → filter P l = l.
Proof.
  induction 1 as [|x l Hx _ IH]; [done|]. by rewrite filter_cons_True, IH.
Qed.

Lemma filter_none {A} (P : A → Prop) `{∀ x, Decision (P x)} (l : list A) :
  Forall (λ x, ¬ P x) l → filter P l = [].
Proof.
  induction 1 as [|x l Hx _ IH]; [done|]. by rewrite filter_cons_False, IH.
Qed.

Section assembling.
Context `{Engine}.

(** The positions [set_index] leaves as columns, when the keys are the
    leading columns and label no other. *)
Lemma set_index_rest (all vc : list pyval) :
  (∀ c, c ∈ all → c ∉ vc) →
  filter (λ i, (all ++ vc) !!! i ∉ all) (seq 0 (length (all ++ vc)))
  = seq (length all) (length vc).
Proof.
  intros Hdisj. rewrite length_app, seq_app, filter_app. simpl.
  rewrite filter_none, filter_all; [done| |].
  - apply Forall_seq. intros j Hj.
    rewrite lookup_total_app_r by lia. intros Hin. eapply Hdisj; [exact Hin|].
    apply list_elem_of_lookup_total_2. lia.
  - apply Forall_seq. intros j Hj Hnot. apply Hnot.
    rewrite lookup_total_app_l by lia. apply list_elem_of_lookup_total_2. lia.
Qed.

Lemma project_split (row : list pyval) a b :
  length row = a + b →
  project (seq 0 a) row ++ project (seq a b) row = row.
Proof.
  intros Hlen. rewrite !project_seq by lia. rewrite drop_0.
  rewrite (take_ge (drop a row)) by (rewrite length_drop; lia).
  apply take_drop.
Qed.

(** A sort over the grouping columns went through only if these are
    distinct and label no value column. *)
Lemma assemble_unique p y rest as_index res :
  columns y = plan_all_groupby_cols p ++ plan_value_cols p →
  assemble p (y :: rest) as_index = Return res →
  NoDup (plan_all_groupby_cols p)
  ∧ ∀ c, c ∈ plan_all_groupby_cols p → c ∉ plan_value_cols p.
Proof.
  intros Hcols. unfold assemble. intros Hres.
  apply result_bind_Return in Hres as (u & Hu & _).
  apply result_bind_Return in Hu as (u0 & [= <-] & Hu).
  apply result_bind_Return in Hu as (s & Hs & _).
  apply sort_values_Return in Hs as (_ & _ & _ & Huniq). simpl in Huniq.
  rewrite Hcols in Huniq. by apply unique_labels.
Qed.

(** A row of the first pass, as long as the result's column list, is a
    row of the final table, index levels first. *)
Lemma assemble_row p y rest as_index res row :
  columns y = plan_all_groupby_cols p ++ plan_value_cols p →
  NoDup (plan_all_groupby_cols p) →
  (∀ c, c ∈ plan_all_groupby_cols p → c ∉ plan_value_cols p) →
  row ∈ rows y →
  length row = length (plan_all_groupby_cols p) + length (plan_value_cols p) →
  assemble p (y :: rest) as_index = Return res →
  index_names res ++ columns res
    = plan_all_groupby_cols p ++ plan_value_cols p
  ∧ index_names res = (if as_index then plan_all_groupby_cols p else [])
  ∧ row ∈ rows res.
Proof.
  intros Hcols Hnd Hdisj Hrow Hlen. unfold assemble. intros Hres.
  apply result_bind_Return in Hres as (u & Hu & Hres).
  apply result_bind_Return in Hu as (u0 & [= <-] & Hu).
  apply result_bind_Return in Hu as (s & Hs & [= <-]).
  apply sort_values_Return in Hs as (Hix & Hscols & Hperm & _).
  simpl in Hix, Hscols, Hperm.
  assert (row ∈ rows s) as Hin.
  { rewrite Hperm. csimpl. apply elem_of_app. by left. }
  unfold reset_index_drop in Hres. rewrite Hix, Hscols, Hcols in Hres.
  simpl in Hres.
  assert (drop 0 <$> rows s = rows s) as Hdrop.
  { rewrite <-(list_fmap_id (rows s)) at 2. apply list_fmap_ext.
    intros ???. apply drop_0. }
  rewrite Hdrop in Hres.
  destruct as_index.
  - apply result_fmap_Return in Hres as (si & Hsi & ->).
    unfold set_index in Hsi. case_decide; [done|]. simpl in Hsi.
    rewrite col_indexes_prefix in Hsi by done. simpl in Hsi.
    rewrite set_index_rest in Hsi by done. injection Hsi as <-.
    unfold sort_index. simpl. rewrite project_suffix.
    split_and!; [done|done|].
    rewrite sort_by_Permutation. apply list_elem_of_fmap.
    exists row. split; [|done]. symmetry. by apply project_split.
  - injection Hres as <-. simpl. by split_and!.
Qed.
End assembling.

(** * Independence from the iteration order of sets *)

Section fresh_columns.
Context `{Engine}.

Lemma zip_with_snoc_replicate (rws : list (list pyval)) v :
  zip_with (λ r v, r ++ [v]) rws (replicate (length rws) v)
  = (λ r, r ++ [v]) <$> rws.
Proof. induction rws as [|r rws IH]; csimpl; [done|]. by rewrite IH. Qed.

Lemma mapM_replicate (g : pyval → result pyval) n s vs :
  mapM g (replicate n s) = Return vs →
  length vs = n ∧ (n = 0 ∨ ∃ v, g s = Return v ∧ vs = replicate n v).
Proof.
  revert vs. induction n as [|n IH]; intros vs; simpl.
  - intros [= <-]. auto.
  - intros Hvs. apply result_bind_Return in Hvs as (v & Hv & Hvs).
    apply result_bind_Return in Hvs as (vs' & Hvs' & [= <-]).
    apply IH in Hvs' as [Hlen Hvs']. split; [simpl; lia|]. right. exists v.
    split; [done|]. destruct Hvs' as [->|(v' & Hv' & ->)].
    + by destruct vs'.
    + rewrite Hv in Hv'. by injection Hv' as <-.
Qed.

Lemma mapM_replicate_2 (g : pyval → result pyval) n s v :
  g s = Return v → mapM g (replicate n s) = Return (replicate n v).
Proof. intros Hv. induction n as [|n IH]; simpl; [done|]. by rewrite Hv, IH. Qed.
End fresh_columns.

Section fill_fresh.
Context `{Engine} `{Runtime}.

(** Filling a folded column that the table does not have yet. *)
Lemma fill_folded_fresh df fill_grouping F c :
  c ∉ columns F → rows_wf F →
  fill_folded df fill_grouping F c =
    (orig ← getitem df c;
     vs ← mapM (retype orig (_get_grouping_filling c fill_grouping))
            (replicate (length (rows F)) (_get_grouping_filling c fill_grouping));
     Return (mkDataFrame (index_names F) (columns F ++ [c])
               (zip_with (λ r v, r ++ [v]) (rows F) vs))).
Proof.
  intros Hc Hwf. unfold fill_folded.
  set (s := _get_grouping_filling c fill_grouping).
  assert (setitem_scalar F c s
          = mkDataFrame (index_names F) (columns F ++ [c])
              ((λ r, r ++ [s]) <$> rows F)) as ->.
  { unfold setitem_scalar, setitem.
    rewrite (proj2 (list_find_label_None c (columns F)) Hc).
    by rewrite zip_with_snoc_replicate. }
  assert (col_index c (columns F ++ [c]) = Return (length (columns F) + 0))
    as Hidx.
  { apply col_index_app_r; [done|apply NoDup_singleton|done]. }
  rewrite Nat.add_0_r in Hidx.
  assert (getitem (mkDataFrame (index_names F) (columns F ++ [c])
                     ((λ r, r ++ [s]) <$> rows F)) c
          = Return (replicate (length (rows F)) s)) as ->.
  { unfold getitem. simpl. rewrite Hidx. simpl. f_equal.
    unfold rows_wf in Hwf. induction Hwf as [|r rws Hr _ IH]; csimpl; [done|].
    by rewrite IH, <-Hr, list_lookup_total_middle. }
  destruct (getitem df c) as [orig|e]; [|done]. simpl.
  assert (∀ vs, setitem (mkDataFrame (index_names F) (columns F ++ [c])
                           ((λ r, r ++ [s]) <$> rows F)) c vs
                = mkDataFrame (index_names F) (columns F ++ [c])
                    (zip_with (λ r v, r ++ [v]) (rows F) vs)) as Hset.
  { intros vs. unfold setitem. simpl.
    rewrite (list_find_label_Some c _ _ Hidx). f_equal.
    unfold rows_wf in Hwf. revert vs.
    induction Hwf as [|r rws Hr _ IH]; intros [|v vs]; csimpl; try done.
    by rewrite IH, <-Hr, insert_app_r_alt, Nat.sub_diag by done. }
  unfold retype.
  destruct (_ && _); simpl;
    (destruct (mapM _ _) as [vs|e]; simpl; [by rewrite Hset|done]).
Qed.

(** The loop over fresh, distinct folded columns appends them in loop
    order; each row gets the same cells. *)
Lemma fill_folded_loop_rows df fill_grouping rem F F' :
  NoDup rem → (∀ c, c ∈ rem → c ∉ columns F) → rows_wf F →
  for_each rem (fill_folded df fill_grouping) F = Return F' →
  index_names F' = index_names F
  ∧ columns F' = columns F ++ rem
  ∧ Forall (λ c, ∃ orig, getitem df c = Return orig) rem
  ∧ ((rows F = [] ∧ rows F' = [])
     ∨ ∃ fills,
         Forall2 (λ c v, folded_cell df fill_grouping c = Return v) rem fills
         ∧ rows F' = (λ r, r ++ fills) <$> rows F).
Proof.
  revert F. induction rem as [|c rem IH]; intros F Hnd Hnew Hwf; simpl.
  - intros [= <-]. rewrite app_nil_r. split_and!; [done|done|constructor|].
    right. exists []. split; [constructor|].
    rewrite <-(list_fmap_id (rows F)) at 1. apply list_fmap_ext.
    intros ???. by rewrite app_nil_r.
  - intros HF. apply result_bind_Return in HF as (F1 & HF1 & HF).
    apply NoDup_cons in Hnd as [Hc Hnd].
    rewrite fill_folded_fresh in HF1; [|by apply Hnew; left|done].
    apply result_bind_Return in HF1 as (orig & Horig & HF1).
    apply result_bind_Return in HF1 as (vs & Hvs & [= <-]).
    apply mapM_replicate in Hvs as [Hlen Hvs].
    apply IH in HF as (Hix & Hcols & Hget & Hrows); simpl in *; [|done| |].
    + split_and!; [done|by rewrite Hcols, <-app_assoc|constructor; eauto|].
      destruct Hvs as [Hnil|(v & Hv & ->)].
      * left. apply length_zero_iff_nil in Hnil. rewrite Hnil in *.
        split; [done|]. destruct Hrows as [[_ ?]|(fills & _ & ->)]; done.
      * rewrite zip_with_snoc_replicate in Hrows.
        destruct Hrows as [[Hnil ->]|(fills & Hfills & ->)].
        -- left. split; [|done]. by destruct (rows F).
        -- right. exists (v :: fills). split.
           ++ constructor; [|done]. unfold folded_cell. rewrite Horig.
              simpl. unfold retype in Hv. by destruct (_ && _).
           ++ rewrite <-list_fmap_compose. apply list_fmap_ext.
              intros ???. simpl. by rewrite <-app_assoc.
    + intros c' Hc'. rewrite elem_of_app, list_elem_of_singleton.
      intros [Hin| ->]; [|done]. eapply Hnew; [by right|done].
    + unfold rows_wf in *. simpl. clear IH HF Hvs.
      revert vs Hlen. induction Hwf as [|r rws Hr _ IHw]; intros [|v vs] Hl;
        csimpl; try done; simpl in Hl.
      constructor; [rewrite !length_app, Hr; done|]. apply IHw. lia.
Qed.

(** Conversely, the loop goes through as soon as every cell it needs can
    be computed. *)
Lemma fill_folded_loop_rows_2 df fill_grouping rem F fills :
  NoDup rem → (∀ c, c ∈ rem → c ∉ columns F) → rows_wf F →
  Forall (λ c, ∃ orig, getitem df c = Return orig) rem →
  (rows F ≠ [] →
   Forall2 (λ c v, folded_cell df fill_grouping c = Return v) rem fills) →
  ∃ F', for_each rem (fill_folded df fill_grouping) F = Return F'
        ∧ index_names F' = index_names F
        ∧ columns F' = columns F ++ rem
        ∧ (rows F = [] → rows F' = [])
        ∧ (rows F ≠ [] → rows F' = (λ r, r ++ fills) <$> rows F).
Proof.
  revert F fills. induction rem as [|c rem IH];
    intros F fills Hnd Hnew Hwf Hget Hfills; simpl.
  - exists F. rewrite app_nil_r. split_and!; try done.
    intros Hne. apply Hfills, Forall2_nil_inv_l in Hne as ->.
    rewrite <-(list_fmap_id (rows F)) at 1. apply list_fmap_ext.
    intros ???. by rewrite app_nil_r.
  - apply NoDup_cons in Hnd as [Hc Hnd].
    apply Forall_cons in Hget as [[orig Horig] Hget].
    rewrite fill_folded_fresh; [|by apply Hnew; left|done].
    rewrite Horig. cbn [mbind result_bind].
    destruct (decide (rows F = [])) as [Hnil|Hne].
    + rewrite Hnil. cbn [length replicate mapM mret result_ret mbind result_bind zip_with].
      destruct (IH (mkDataFrame (index_names F) (columns F ++ [c]) []) [])
        as (F' & HF' & Hix & Hcols & Hrows & _); simpl; try done.
      { intros c' Hc'. rewrite elem_of_app, list_elem_of_singleton.
        intros [Hin| ->]; [|done]. eapply Hnew; [by right|done]. }
      { constructor. }
      exists F'. split_and!; [done|done|simpl in Hcols; by rewrite Hcols, <-app_assoc|auto|done].
    + specialize (Hfills Hne).
      apply Forall2_cons_inv_l in Hfills as (v & fills' & Hv & Hfills & ->).
      assert (retype orig (_get_grouping_filling c fill_grouping)
                (_get_grouping_filling c fill_grouping) = Return v) as Hv'.
      { unfold folded_cell in Hv. rewrite Horig in Hv. simpl in Hv.
        unfold retype. by destruct (_ && _). }
      rewrite (mapM_replicate_2 _ _ _ v Hv'). cbn [mbind result_bind].
      rewrite zip_with_snoc_replicate.
      destruct (IH (mkDataFrame (index_names F) (columns F ++ [c])
                      ((λ r, r ++ [v]) <$> rows F)) fills')
        as (F' & HF' & Hix & Hcols & _ & Hrows); simpl; try done.
      { intros c' Hc'. rewrite elem_of_app, list_elem_of_singleton.
        intros [Hin| ->]; [|done]. eapply Hnew; [by right|done]. }
      { unfold rows_wf in *. simpl. apply Forall_fmap.
        eapply Forall_impl; [exact Hwf|]. intros r Hr. simpl.
        by rewrite !length_app, Hr. }
      exists F'. split_and!; [done|done|simpl in Hcols; by rewrite Hcols, <-app_assoc|done|].
      intros _. simpl in Hrows. rewrite Hrows by (by destruct (rows F)).
      rewrite <-list_fmap_compose. apply list_fmap_ext.
      intros ???. simpl. by rewrite <-app_assoc.
Qed.
End fill_fresh.

Section select_by_label.
Context `{Engine}.

(** Selecting by label does not see in which order fresh columns were
    appended. *)
Lemma col_index_appended cols rem1 rem2 fills1 fills2
    (g : pyval → result pyval) l i1 :
  NoDup rem2 → rem1 ≡ₚ rem2 → (∀ c, c ∈ rem1 → c ∉ cols) →
  col_index l (cols ++ rem1) = Return i1 →
  ∃ i2, col_index l (cols ++ rem2) = Return i2
        ∧ (Forall2 (λ c v, g c = Return v) rem1 fills1 →
           Forall2 (λ c v, g c = Return v) rem2 fills2 →
           ∀ r, length r = length cols →
                (r ++ fills1) !!! i1 = (r ++ fills2) !!! i2).
Proof.
  intros Hnd2 Hperm Hnew Hi1. apply col_index_Return in Hi1 as [Hi1 Hfirst].
  destruct (decide (i1 < length cols)) as [Hlt|Hge].
  - rewrite lookup_app_l in Hi1 by done. exists i1. split.
    + apply col_index_Return. split; [by apply lookup_app_l_Some|].
      intros j Hj Hjl. apply (Hfirst j Hj).
      rewrite lookup_app_l in Hjl by lia. by apply lookup_app_l_Some.
    + intros _ _ r Hr. by rewrite !lookup_total_app_l by lia.
  - rewrite lookup_app_r in Hi1 by lia.
    assert (l ∈ rem1) as Hl1 by (by eapply list_elem_of_lookup_2).
    assert (l ∈ rem2) as Hl2 by (by rewrite <-Hperm).
    apply list_elem_of_lookup in Hl2 as [k2 Hk2].
    exists (length cols + k2). split.
    + apply col_index_app_r; [by apply Hnew|done|done].
    + intros Hf1 Hf2 r Hr.
      destruct (Forall2_lookup_l _ _ _ _ _ Hf1 Hi1) as (v1 & Hv1 & Hg1).
      destruct (Forall2_lookup_l _ _ _ _ _ Hf2 Hk2) as (v2 & Hv2 & Hg2).
      rewrite Hg1 in Hg2. injection Hg2 as <-.
      rewrite !lookup_total_app_r by lia. rewrite Hr.
      rewrite (list_lookup_total_correct _ _ _ Hv1).
      replace (length cols + k2 - length cols) with k2 by lia.
      by rewrite (list_lookup_total_correct _ _ _ Hv2).
Qed.

Lemma col_indexes_appended cols rem1 rem2 fills1 fills2
    (g : pyval → result pyval) rc idxs1 :
  NoDup rem2 → rem1 ≡ₚ rem2 → (∀ c, c ∈ rem1 → c ∉ cols) →
  mapM (λ l, col_index l (cols ++ rem1)) rc = Return idxs1 →
  ∃ idxs2, mapM (λ l, col_index l (cols ++ rem2)) rc = Return idxs2
           ∧ (Forall2 (λ c v, g c = Return v) rem1 fills1 →
              Forall2 (λ c v, g c = Return v) rem2 fills2 →
              ∀ r, length r = length cols →
                   project idxs1 (r ++ fills1) = project idxs2 (r ++ fills2)).
Proof.
  intros Hnd2 Hperm Hnew Hm. apply mapM_Return in Hm.
  induction Hm as [|l i1 rc idxs1 Hl _ (idxs2 & Hm2 & Hcells)].
  - by exists [].
  - destruct (col_index_appended cols rem1 rem2 fills1 fills2 g l i1)
      as (i2 & Hi2 & Hcell); try done.
    exists (i2 :: idxs2). split.
    + simpl. by rewrite Hi2, Hm2.
    + intros Hf1 Hf2 r Hr. unfold project in *. csimpl.
      by rewrite (Hcell Hf1 Hf2 r Hr), (Hcells Hf1 Hf2 r Hr).
Qed.

Lemma select_appended ix cols rem1 rem2 fills1 fills2
    (g : pyval → result pyval) rws rc y :
  NoDup rem2 → rem1 ≡ₚ rem2 → (∀ c, c ∈ rem1 → c ∉ cols) →
  Forall (λ r, length r = length cols) rws →
  (rws ≠ [] → Forall2 (λ c v, g c = Return v) rem1 fills1
              ∧ Forall2 (λ c v, g c = Return v) rem2 fills2) →
  select (mkDataFrame ix (cols ++ rem1) ((λ r, r ++ fills1) <$> rws)) rc
    = Return y →
  select (mkDataFrame ix (cols ++ rem2) ((λ r, r ++ fills2) <$> rws)) rc
    = Return y.
Proof.
  intros Hnd2 Hperm Hnew Hwf Hfills. unfold select. simpl. intros Hy.
  apply result_bind_Return in Hy as (idxs1 & Hidxs1 & [= <-]).
  destruct (col_indexes_appended cols rem1 rem2 fills1 fills2 g rc idxs1)
    as (idxs2 & -> & Hcells); try done.
  simpl. do 2 f_equal. rewrite <-!list_fmap_compose.
  destruct rws as [|r0 rws]; [done|].
  destruct Hfills as [Hf1 Hf2]; [done|].
  apply Forall_fmap_ext_1. eapply Forall_impl; [exact Hwf|].
  intros r Hr. simpl. symmetry. by apply Hcells.
Qed.

Lemma df_agg_wf df agg F :
  df_agg df agg = Return F → rows_wf F ∧ columns F = agg.*1.
Proof.
  intros HF. apply df_agg_Return in HF as (vals & Hvals & ->).
  split; [|done]. unfold rows_wf. simpl. constructor; [|constructor].
  apply mapM_Return_length in Hvals. by rewrite Hvals, length_fmap.
Qed.

Lemma df_groupby_agg_wf df by_cols agg F :
  df_groupby_agg df by_cols agg = Return F →
  rows_wf F ∧ columns F = by_cols ++ agg.*1.
Proof.
  unfold df_groupby_agg. intros HF.
  apply result_bind_Return in HF as (idxs & Hidxs & HF).
  case_decide; [done|].
  apply result_bind_Return in HF as (out & Hout & [= <-]).
  split; [|done]. unfold rows_wf. simpl.
  apply mapM_Return_length in Hidxs.
  apply mapM_Return in Hout.
  assert (Forall (λ k, length k = length by_cols)
            (group_keys idxs (rows df))) as Hkeys.
  { apply Forall_forall. intros k Hk. unfold group_keys in Hk.
    rewrite sort_by_Permutation in Hk.
    apply elem_of_remove_dups, list_elem_of_filter in Hk as [_ Hk].
    apply list_elem_of_fmap in Hk as (r & -> & _).
    unfold project. by rewrite length_fmap. }
  induction Hout as [|k row ks out Hrow _ IH]; [constructor|].
  apply Forall_cons in Hkeys as [Hk Hkeys]. constructor; [|by apply IH].
  apply result_bind_Return in Hrow as (vals & Hvals & [= <-]).
  apply mapM_Return_length in Hvals.
  by rewrite !length_app, !length_fmap, Hk, Hvals.
Qed.
End select_by_label.

Section two_runs.
Context `{Engine} (R1 R2 : Runtime).

(** A pass that went through in one run goes through in any other run,
    with the same table, provided no grouping column labels a value
    column. *)
Lemma pass_result_any_order df p fill_grouping cs rs y :
  (plan_agg p).*1 = plan_value_cols p →
  (∀ c, c ∈ plan_all_groupby_cols p → c ∉ plan_value_cols p) →
  @pass_result _ R1 df p fill_grouping cs rs = Return y →
  @pass_result _ R2 df p fill_grouping cs rs = Return y.
Proof.
  intros Hkeys Hdisj. unfold pass_result.
  set (gs := (plan_normal_cols p ++ cs) ++ rs).
  set (X := list_to_set (plan_all_groupby_cols p) ∖ list_to_set gs).
  intros Hy. apply result_bind_Return in Hy as (sr & Hsr & Hy).
  apply result_bind_Return in Hy as (F1 & HF1 & Hy).
  rewrite Hsr. cbn [mbind result_bind].
  assert (rows_wf sr ∧ ∀ c, c ∈ X → c ∉ columns sr) as [Hwf Hnew].
  { case_decide as Hgs.
    - apply df_agg_wf in Hsr as [Hwf ->]. split; [done|].
      intros c Hc. rewrite Hkeys. apply Hdisj.
      apply elem_of_difference in Hc as [Hc _]. by apply elem_of_list_to_set in Hc.
    - apply df_groupby_agg_wf in Hsr as [Hwf ->]. split; [done|].
      intros c Hc. apply elem_of_difference in Hc as [Hall Hgs'].
      rewrite elem_of_list_to_set in Hall, Hgs'.
      rewrite elem_of_app, Hkeys. intros [?|?]; [done|]. by eapply Hdisj. }
  assert (@hash_order R1 X ≡ₚ @hash_order R2 X) as Hperm.
  { by rewrite (@hash_order_perm R1), (@hash_order_perm R2). }
  apply fill_folded_loop_rows in HF1 as (Hix1 & Hcols1 & Hget1 & Hrows1);
    [|apply (@hash_order_NoDup R1)
     |intros c Hc; by apply Hnew, (@hash_order_elem_of R1)|done].
  set (fills2 := (λ c, cell_or_none (folded_cell df fill_grouping c))
                   <$> @hash_order R2 X).
  assert (∃ fills1,
            rows F1 = (λ r, r ++ fills1) <$> rows sr
            ∧ (rows sr ≠ [] →
               Forall2 (λ c v, folded_cell df fill_grouping c = Return v)
                 (@hash_order R1 X) fills1)) as (fills1 & Hrows1' & Hfills1).
  { destruct Hrows1 as [[Hnil ->]|(fills1 & Hfills1 & ->)].
    - exists []. by rewrite Hnil.
    - by exists fills1. }
  assert (rows sr ≠ [] →
          Forall2 (λ c v, folded_cell df fill_grouping c = Return v)
            (@hash_order R2 X) fills2) as Hfills2.
  { intros Hne. specialize (Hfills1 Hne). unfold fills2.
    apply Forall2_fmap_r, Forall_Forall2_diag, Forall_forall.
    intros c Hc. rewrite <-Hperm in Hc.
    apply list_elem_of_lookup in Hc as [k Hk].
    destruct (Forall2_lookup_l _ _ _ _ _ Hfills1 Hk) as (v & _ & Hv).
    unfold compose. simpl. by rewrite Hv. }
  destruct (fill_folded_loop_rows_2 df fill_grouping (@hash_order R2 X) sr fills2)
    as (F2 & -> & Hix2 & Hcols2 & Hnil2 & Hrows2); try done.
  { apply (@hash_order_NoDup R2). }
  { intros c Hc. by apply Hnew, (@hash_order_elem_of R2). }
  { by rewrite <-Hperm. }
  cbn [mbind result_bind].
  assert (rows F2 = (λ r, r ++ fills2) <$> rows sr) as Hrows2'.
  { destruct (decide (rows sr = [])) as [Hnil|Hne]; [|by apply Hrows2].
    by rewrite (Hnil2 Hnil), Hnil. }
  destruct F1 as [ix1 cols1 rws1], F2 as [ix2 cols2 rws2]. simpl in *. subst.
  eapply (select_appended _ _ _ _ fills1 fills2
            (folded_cell df fill_grouping)); [..|exact Hy]; try done.
  - apply (@hash_order_NoDup R2).
  - intros c Hc. by apply Hnew, (@hash_order_elem_of R1).
  - intros Hne. split; auto.
Qed.
End two_runs.

Lemma M_mapM_Return_2 {A B} (f : A → M B) (xs : list A) ys :
  Forall2 (λ x y, outcome (f x) = Return y) xs ys →
  mapM f xs = mkM (mjoin ((λ x, trace (f x)) <$> xs)) (Return ys).
Proof.
  induction 1 as [|x y xs ys Hy _ IH]; [done|].
  change (mapM f (x :: xs))
    with (f x ≫= λ y, mapM f xs ≫= λ k, mret (y :: k)).
  rewrite IH. csimpl. destruct (f x) as [t1 o1]. simpl in Hy. subst o1.
  unfold mbind, M_bind, mret, M_ret. simpl. by rewrite app_nil_r.
Qed.

Lemma M_ret_bind {A B} (a : A) (f : A → M B) : mret a ≫= f = f a.
Proof. unfold mbind, M_bind, mret, M_ret. simpl. by destruct (f a). Qed.

Lemma M_lift_Return_bind {A B} (a : A) (f : A → M B) :
  lift (Return a) ≫= f = f a.
Proof. apply M_ret_bind. Qed.

Lemma M_bind_assoc {A B C} (m : M A) (f : A → M B) (g : B → M C) :
  (m ≫= f) ≫= g = m ≫= (λ a, f a ≫= g).
Proof.
  destruct m as [t1 [a|e]]; unfold mbind, M_bind; simpl; [|done].
  destruct (f a) as [t2 [b|e]]; simpl; [|done]. by rewrite app_assoc.
Qed.

Lemma M_bind_ext {A B} (m : M A) (f g : A → M B) :
  (∀ a, f a = g a) → m ≫= f = m ≫= g.
Proof.
  intros Hfg. destruct m as [t1 [a|e]]; unfold mbind, M_bind; simpl; [|done].
  by rewrite Hfg.
Qed.

Section driver_closed_form.
Context `{Engine} `{Runtime}.

(** The driver as three stages: resolve, run the passes, assemble. *)
Lemma cubinggroupby_unfold df n c r agg fill_grouping as_index :
  cubinggroupby df n c r agg fill_grouping as_index =
    (p ← lift (resolve df n c r agg);
     yss ← mapM (λ cs, mapM (cubing_pass df p fill_grouping cs)
                         (_get_rollup_combinations (plan_rollup_cols p)))
              (_get_cube_combinations (plan_cube_cols p));
     lift (assemble p (mjoin yss) as_index)).
Proof.
  unfold cubinggroupby.
  destruct (resolve df n c r agg) as [p|e]; [|reflexivity].
  rewrite !M_lift_Return_bind, for_each_nested_append, M_bind_assoc.
  apply M_bind_ext. intros yss. rewrite M_ret_bind. cbn [app].
  unfold assemble.
  destruct (concat (mjoin yss)) as [u|e]; [|reflexivity].
  cbn [mbind result_bind].
  destruct (sort_values u _) as [s|e]; [|reflexivity].
  cbn [mbind result_bind]. rewrite M_lift_Return_bind.
  by destruct as_index.
Qed.
End driver_closed_form.

Lemma M_bind_outcome {A B} (m : M A) (f : A → M B) a :
  outcome m = Return a → outcome (m ≫= f) = outcome (f a).
Proof. intros Hm. unfold mbind, M_bind. by rewrite Hm. Qed.

Lemma M_mapM_outcome {A B} (f : A → M B) (xs : list A) ys :
  Forall2 (λ x y, outcome (f x) = Return y) xs ys →
  outcome (mapM f xs) = Return ys.
Proof. intros Hall. by rewrite (M_mapM_Return_2 f xs ys Hall). Qed.

Section two_runs_of_the_driver.
Context `{Engine} (R1 R2 : Runtime).

(** When no hash order enters the plan and no grouping column labels a
    value column, a run that returns has the same outcome under any other
    iteration order. *)
Lemma cubinggroupby_any_order df n c r agg fill_grouping as_index p yss res :
  @resolve R2 df n c r agg = Return p →
  (plan_agg p).*1 = plan_value_cols p →
  (∀ c, c ∈ plan_all_groupby_cols p → c ∉ plan_value_cols p) →
  Forall2 (λ cs ys,
     Forall2 (λ rs y, @pass_result _ R1 df p fill_grouping cs rs = Return y)
       (_get_rollup_combinations (plan_rollup_cols p)) ys)
    (_get_cube_combinations (plan_cube_cols p)) yss →
  assemble p (mjoin yss) as_index = Return res →
  outcome (@cubinggroupby _ R2 df n c r agg fill_grouping as_index)
  = Return res.
Proof.
  intros Hp Hkeys Hdisj Hpasses Hasm.
  rewrite cubinggroupby_unfold, Hp, M_lift_Return_bind.
  rewrite (M_bind_outcome _ _ yss); [done|].
  apply M_mapM_outcome.
  eapply Forall2_impl; [exact Hpasses|]. intros cs ys Hys. simpl.
  apply M_mapM_outcome.
  eapply Forall2_impl; [exact Hys|]. intros rs y Hy. simpl.
  rewrite cubing_pass_closed. simpl.
  by apply (pass_result_any_order R1 R2).
Qed.
End two_runs_of_the_driver.

(** * The driver's properties *)

Section plan_facts.
Context `{Engine} `{Runtime}.

Lemma resolve_colspec_Return df n c r agg ln lc lr p :
  colspec n ln → colspec c lc → colspec r lr →
  resolve df n c r agg = Return p →
  p = resolved_plan df ln lc lr agg
  ∧ (isinstance_str agg = true ∨ isinstance_dict agg = true).
Proof.
  intros Hn Hc Hr. rewrite (resolve_colspec df n c r agg ln lc lr) by done.
  case_bool_decide; [|done].
  destruct (isinstance_str agg) eqn:Hs, (isinstance_dict agg) eqn:Hd;
    simpl; intros [= <-]; auto.
Qed.

Lemma resolved_agg_keys df all agg :
  (resolved_agg df all agg).2.*1 = (resolved_agg df all agg).1.
Proof.
  unfold resolved_agg. destruct agg; simpl; try done;
    by rewrite <-list_fmap_compose, list_fmap_id.
Qed.

Lemma resolved_agg_NoDup df all agg :
  (∀ d, agg = PyDict d → NoDup d.*1) → NoDup (resolved_agg df all agg).1.
Proof.
  intros Hd. unfold resolved_agg.
  destruct agg; simpl; try apply hash_order_NoDup. by apply Hd.
Qed.
End plan_facts.

Lemma elem_of_grouping_sets ln lc lr gs :
  gs ∈ grouping_sets ln lc lr ↔
  ∃ cs rs, cs `sublist_of` lc ∧ rs `prefix_of` lr ∧ gs = (ln ++ cs) ++ rs.
Proof.
  rewrite grouping_sets_unfold, list_elem_of_join. split.
  - intros (blk & Hgs & Hblk).
    apply list_elem_of_fmap in Hblk as (cs & -> & Hcs).
    apply list_elem_of_fmap in Hgs as (rs & -> & Hrs).
    exists cs, rs. split_and!; [|  |done].
    + by apply elem_of_cube_combinations.
    + by apply elem_of_rollup_combinations.
  - intros (cs & rs & Hcs & Hrs & ->).
    exists ((λ rs, (ln ++ cs) ++ rs) <$> _get_rollup_combinations lr). split.
    + apply list_elem_of_fmap. exists rs. split; [done|].
      by apply elem_of_rollup_combinations.
    + apply list_elem_of_fmap. exists cs. split; [done|].
      by apply elem_of_cube_combinations.
Qed.

Section grand_total_folded.
Context `{Engine} `{Runtime}.

(** The row of totals with its cells as the driver computes them. *)
Lemma grand_total_row_folded df n c r agg fill_grouping as_index lc lr t res :
  colspec n [] → colspec c lc → colspec r lr →
  (∀ d, agg = PyDict d → NoDup d.*1) →
  cubinggroupby df n c r agg fill_grouping as_index = mkM t (Return res) →
  ∃ p fills totals,
    resolve df n c r agg = Return p
    ∧ plan_all_groupby_cols p = lc ++ lr
    ∧ Forall2 (λ col v, folded_cell df fill_grouping col = Return v)
        (lc ++ lr) fills
    ∧ df_agg df (plan_agg p)
      = Return (mkDataFrame [] (plan_value_cols p) [totals])
    ∧ index_names res = (if as_index then lc ++ lr else [])
    ∧ index_names res ++ columns res = (lc ++ lr) ++ plan_value_cols p
    ∧ fills ++ totals ∈ rows res.
Proof.
  intros Hn Hc Hr Hdict Hrun.
  apply cubinggroupby_Return in Hrun as (p & yss & Hp & Hpasses & _ & Hasm).
  exists p.
  destruct (resolve_colspec_Return df n c r agg [] lc lr p) as [-> _]; try done.
  set (p := resolved_plan df [] lc lr agg) in *.
  change (plan_cube_cols p) with lc in Hpasses.
  change (plan_rollup_cols p) with lr in Hpasses.
  destruct (cube_combinations_head lc) as [crest Hchead].
  destruct (rollup_combinations_head lr) as [rrest Hrhead].
  rewrite Hchead, Hrhead in Hpasses.
  apply Forall2_cons_inv_l in Hpasses as (ys0 & yss' & Hys0 & _ & ->).
  apply Forall2_cons_inv_l in Hys0 as (y0 & ys0' & Hy0 & _ & ->).
  csimpl in Hasm.
  apply pass_result_rows in Hy0 as Hcols. destruct Hcols as [Hcols _].
  change (plan_result_cols p)
    with (plan_all_groupby_cols p ++ plan_value_cols p) in Hcols.
  destruct (assemble_unique p y0 (ys0' ++ mjoin yss') as_index res Hcols Hasm)
    as [Hnd Hdisj].
  apply pass_result_fully_folded in Hy0
    as (fills & totals & Hfills & Htotals & Hlen & _ & _ & Hrows);
    [|done|apply resolved_agg_keys|done|done
     |by apply resolved_agg_NoDup|done].
  exists fills, totals.
  destruct (assemble_row p y0 (ys0' ++ mjoin yss') as_index res
              (fills ++ totals)) as (Hres_cols & Hres_ix & Hin);
    [done|done|done| | |done|].
  - rewrite Hrows. by apply list_elem_of_singleton.
  - rewrite length_app, Hlen. f_equal. symmetry. by eapply Forall2_length.
  - by split_and!.
Qed.

(** A folded cell is the fill value of the specification, re-typed as
    lines 159-170 say. *)
Lemma folded_cell_spec df fill_grouping col v :
  folded_cell df fill_grouping col = Return v →
  ∃ s orig,
    fill_value_spec col fill_grouping s
    ∧ getitem df col = Return orig
    ∧ (if is_integer_dtype (dtype_of orig) && is_none s
       then to_numeric s else astype (dtype_of orig) s) = Return v.
Proof.
  unfold folded_cell. intros Hv.
  apply result_bind_Return in Hv as (orig & Horig & Hv).
  exists (_get_grouping_filling col fill_grouping), orig.
  split; [apply grouping_filling_spec|]. by split.
Qed.
End grand_total_folded.







(** The table of the repository's test: 30 rows, as the expected table of
    the test has, against 41 distinct combinations with nulls counted. *)
Example test_table_row_count :
  length (rows Calls.test_result) = 30
  ∧ sum_list_with (group_count Samples.test_df)
      (grouping_sets [] [PyStr "category"; PyStr "area"] [PyStr "year"]) = 30
  ∧ sum_list_with (distinct_combinations Samples.test_df)
      (grouping_sets [] [PyStr "category"; PyStr "area"] [PyStr "year"]) = 41.
Proof. split_and!; vm_compute; reflexivity. Qed.

(** On the table of the repository's test, with the prices summed, the
    driver returns the expected table of the test, column by column and row
    by row, and hands the engine the eight grouping sets in loop order. *)
Theorem test_table_expected :
  Calls.test_call RefEngine.run_a false
  = mkM [EvAgg; EvGroupBy [PyStr "year"];
         EvGroupBy [PyStr "category"];
         EvGroupBy [PyStr "category"; PyStr "year"];
         EvGroupBy [PyStr "area"];
         EvGroupBy [PyStr "area"; PyStr "year"];
         EvGroupBy [PyStr "category"; PyStr "area"];
         EvGroupBy [PyStr "category"; PyStr "area"; PyStr "year"]]
        (Return (mkDataFrame []
                   [PyStr "category"; PyStr "area"; PyStr "year";
                    PyStr "product"; PyStr "price"]
                   Samples.expected_rows)).
Proof. vm_compute. reflexivity. Qed.

(** The grand-total row of the test: 4 distinct products and a price total
    of 126, under ['TOTAL'], null, null. *)
Example test_table_grand_total :
  [PyStr "TOTAL"; PyNone; PyNone; PyInt 4; PyInt 126]
    ∈ rows Calls.test_result.
Proof. apply (bool_decide_unpack _). vm_compute. exact I. Qed.

(** C3 fails on the code when [agg] is a single reduction name: two runs
    of the same call that differ only in the order their interpreter
    iterates a set return the value columns in different orders. *)
Theorem column_order_follows_hash_order :
  columns (Calls.result_of (Calls.count_call RefEngine.run_a))
  = [PyStr "category"; PyStr "area"; PyStr "year";
     PyStr "product"; PyStr "price"]
  ∧ columns (Calls.result_of (Calls.count_call RefEngine.run_b))
    = [PyStr "category"; PyStr "area"; PyStr "year";
       PyStr "price"; PyStr "product"]
  ∧ Calls.count_call RefEngine.run_a ≠ Calls.count_call RefEngine.run_b.
Proof.
  split_and!; [vm_compute; reflexivity..|].
  intros Heq. apply (f_equal (λ m, columns (Calls.result_of m))) in Heq.
  vm_compute in Heq. discriminate Heq.
Qed.



(** * The double loop as one loop over the grouping sets *)

Lemma M_bind_ret {A} (m : M A) : m ≫= mret = m.
Proof.
  destruct m as [t [a|e]]; unfold mbind, M_bind, mret, M_ret; simpl; [|done].
  by rewrite app_nil_r.
Qed.

Lemma M_mapM_ext {A B} (f g : A → M B) (l : list A) :
  (∀ x, f x = g x) → mapM f l = mapM g l.
Proof.
  intros Hfg. induction l as [|x l IH]; [done|].
  change (mapM f (x :: l)) with (f x ≫= λ y, mapM f l ≫= λ k, mret (y :: k)).
  change (mapM g (x :: l)) with (g x ≫= λ y, mapM g l ≫= λ k, mret (y :: k)).
  by rewrite Hfg, IH.
Qed.

Lemma M_mapM_fmap {A C B} (h : A → C) (f : C → M B) (l : list A) :
  mapM f (h <$> l) = mapM (λ x, f (h x)) l.
Proof.
  induction l as [|x l IH]; [done|].
  change (mapM f (h <$> x :: l))
    with (f (h x) ≫= λ y, mapM f (h <$> l) ≫= λ k, mret (y :: k)).
  change (mapM (λ x, f (h x)) (x :: l))
    with (f (h x) ≫= λ y, mapM (λ x, f (h x)) l ≫= λ k, mret (y :: k)).
  by rewrite IH.
Qed.

Lemma M_mapM_app {A B} (f : A → M B) (l1 l2 : list A) :
  mapM f (l1 ++ l2)
  = (a ← mapM f l1; b ← mapM f l2; mret (a ++ b)).
Proof.
  induction l1 as [|x l1 IH].
  - change (mapM f []) with (mret (M:=M) (@nil B)). rewrite M_ret_bind.
    simpl. symmetry. apply M_bind_ret.
  - change (mapM f ((x :: l1) ++ l2))
      with (f x ≫= λ y, mapM f (l1 ++ l2) ≫= λ k, mret (y :: k)).
    change (mapM f (x :: l1))
      with (f x ≫= λ y, mapM f l1 ≫= λ k, mret (y :: k)).
    rewrite IH, !M_bind_assoc. apply M_bind_ext. intros y.
    rewrite !M_bind_assoc. apply M_bind_ext. intros a.
    rewrite M_ret_bind, M_bind_assoc. apply M_bind_ext. intros b.
    by rewrite M_ret_bind.
Qed.

Lemma M_mapM_nested {A C G B} (h : A → C → G) (f : G → M B)
    (xs : list A) (zs : list C) :
  (yss ← mapM (λ x, mapM (λ z, f (h x z)) zs) xs; mret (mjoin yss))
  = mapM f (mjoin ((λ x, h x <$> zs) <$> xs)).
Proof.
  induction xs as [|x xs IH].
  - change (mapM _ []) with (mret (M:=M) (@nil (list B))).
    by rewrite M_ret_bind.
  - change (mapM (λ x, mapM (λ z, f (h x z)) zs) (x :: xs))
      with (mapM (λ z, f (h x z)) zs
            ≫= λ y, mapM (λ x, mapM (λ z, f (h x z)) zs) xs
            ≫= λ k, mret (y :: k)).
    csimpl. rewrite M_mapM_app, <-IH, M_mapM_fmap, !M_bind_assoc.
    apply M_bind_ext. intros ys. rewrite !M_bind_assoc.
    apply M_bind_ext. intros yss. by rewrite !M_ret_bind.
Qed.

Section flat_driver.
Context `{Engine} `{Runtime}.

Lemma cubing_pass_logged df p fill_grouping cs rs :
  cubing_pass df p fill_grouping cs rs
  = logged_pass df p fill_grouping ((plan_normal_cols p ++ cs) ++ rs).
Proof. apply cubing_pass_closed. Qed.

(** The driver as: resolve, one logged pass per grouping set, assemble. *)
Lemma cubinggroupby_flat df n c r agg fill_grouping as_index :
  cubinggroupby df n c r agg fill_grouping as_index =
    (p ← lift (resolve df n c r agg);
     dfs ← mapM (logged_pass df p fill_grouping)
             (grouping_sets (plan_normal_cols p) (plan_cube_cols p)
                (plan_rollup_cols p));
     lift (assemble p dfs as_index)).
Proof.
  rewrite cubinggroupby_unfold. apply M_bind_ext. intros p.
  rewrite grouping_sets_unfold.
  rewrite <-(M_mapM_nested (λ cs rs, (plan_normal_cols p ++ cs) ++ rs)).
  rewrite M_bind_assoc.
  erewrite (M_mapM_ext (λ cs, mapM (cubing_pass df p fill_grouping cs) _)).
  - apply M_bind_ext. intros yss. by rewrite M_ret_bind.
  - intros cs. apply M_mapM_ext. intros rs. apply cubing_pass_logged.
Qed.
End flat_driver.

(** A loop of logged steps either runs every step, or stops at the first
    step that raises. *)
Lemma logged_mapM_shape {A B} (ev : A → event) (g : A → result B)
    (xs : list A) :
  (∃ ys, Forall2 (λ x y, g x = Return y) xs ys
         ∧ mapM (λ x, mkM [ev x] (g x)) xs = mkM (ev <$> xs) (Return ys))
  ∨ (∃ i x e, xs !! i = Some x ∧ g x = Raise e
              ∧ Forall (λ x', ∃ y, g x' = Return y) (take i xs)
              ∧ mapM (λ x, mkM [ev x] (g x)) xs
                = mkM (ev <$> take (S i) xs) (Raise e)).
Proof.
  induction xs as [|x xs IH].
  - left. exists []. split; [constructor|done].
  - change (mapM (λ x, mkM [ev x] (g x)) (x :: xs))
      with (mkM [ev x] (g x)
            ≫= λ y, mapM (λ x, mkM [ev x] (g x)) xs ≫= λ k, mret (y :: k)).
    destruct (g x) as [y|e] eqn:Hx.
    + destruct IH as [(ys & Hall & ->)|(i & x' & e & Hi & Hx' & Hbefore & ->)].
      * left. exists (y :: ys). split; [by constructor|].
        unfold mbind, M_bind, mret, M_ret. simpl. by rewrite app_nil_r.
      * right. exists (S i), x', e. split_and!; [done|done| |done].
        simpl. constructor; eauto.
    + right. exists 0, x, e. split_and!; [done|done|constructor|].
      done.
Qed.

Section run_shape.
Context `{Engine} `{Runtime}.

(** Past validation, a call either runs the pass of every grouping set and
    ends with what the assembly gives, or ends with the exception of the
    first pass that raises, having started no later pass.  Which of the
    two does not depend on [as_index]. *)
Lemma cubinggroupby_runs df n c r agg fill_grouping p :
  resolve df n c r agg = Return p →
  let sets := grouping_sets (plan_normal_cols p) (plan_cube_cols p)
                (plan_rollup_cols p) in
  (∃ dfs, Forall2 (λ gs y, grouping_pass df p fill_grouping gs = Return y)
            sets dfs
          ∧ ∀ as_index,
              cubinggroupby df n c r agg fill_grouping as_index
              = mkM (pass_event <$> sets) (assemble p dfs as_index))
  ∨ (∃ i gs e, sets !! i = Some gs
               ∧ grouping_pass df p fill_grouping gs = Raise e
               ∧ Forall (λ gs', ∃ y, grouping_pass df p fill_grouping gs'
                                      = Return y) (take i sets)
               ∧ ∀ as_index,
                   cubinggroupby df n c r agg fill_grouping as_index
                   = mkM (pass_event <$> take (S i) sets) (Raise e)).
Proof.
  intros Hp sets.
  destruct (logged_mapM_shape pass_event (grouping_pass df p fill_grouping) sets)
    as [(dfs & Hall & Hrun)|(i & gs & e & Hi & Hgs & Hbefore & Hrun)].
  - left. exists dfs. split; [done|]. intros as_index.
    rewrite cubinggroupby_flat, Hp, M_lift_Return_bind.
    fold sets. unfold logged_pass. rewrite Hrun.
    unfold mbind, M_bind, lift. simpl. by rewrite app_nil_r.
  - right. exists i, gs, e. split_and!; [done..|]. intros as_index.
    rewrite cubinggroupby_flat, Hp, M_lift_Return_bind.
    fold sets. unfold logged_pass. by rewrite Hrun.
Qed.

Lemma cubinggroupby_shape df n c r agg fill_grouping as_index p :
  resolve df n c r agg = Return p →
  let sets := grouping_sets (plan_normal_cols p) (plan_cube_cols p)
                (plan_rollup_cols p) in
  (∃ dfs, Forall2 (λ gs y, grouping_pass df p fill_grouping gs = Return y)
            sets dfs
          ∧ cubinggroupby df n c r agg fill_grouping as_index
            = mkM (pass_event <$> sets) (assemble p dfs as_index))
  ∨ (∃ i gs e, sets !! i = Some gs
               ∧ grouping_pass df p fill_grouping gs = Raise e
               ∧ Forall (λ gs', ∃ y, grouping_pass df p fill_grouping gs'
                                      = Return y) (take i sets)
               ∧ cubinggroupby df n c r agg fill_grouping as_index
                 = mkM (pass_event <$> take (S i) sets) (Raise e)).
Proof.
  intros Hp sets.
  destruct (cubinggroupby_runs df n c r agg fill_grouping p Hp)
    as [(dfs & Hall & Hrun)|(i & gs & e & Hi & Hgs & Hbefore & Hrun)].
  - left. by exists dfs.
  - right. by exists i, gs, e.
Qed.
End run_shape.

(** * What the call accepts, and how it fails *)

Lemma as_list_Return v l : as_list v = Return l → v = PyList l.
Proof. destruct v; simpl; congruence. Qed.

Lemma cols_normalize_list_colspec v l :
  _cols_normalize v = PyList l → forallb hashable l = true → colspec v l.
Proof.
  destruct v; simpl; try done.
  - intros [= <-] _. constructor.
  - intros [= <-] _. constructor.
  - intros [= <-] Hh. by constructor.
Qed.

Lemma py_set_list_Return l X :
  py_set (PyList l) = Return X → forallb hashable l = true.
Proof. unfold py_set. simpl. by destruct (forallb hashable l). Qed.

Section acceptance.
Context `{Engine} `{Runtime}.

(** Lines 105-128 go through only for column specifications that are
    [None], one string, or a list of hashable names: a tuple, a dict or a
    non-iterable fails in [set(...)] or in one of the list concatenations. *)
Lemma resolve_Return_colspec df n c r agg p :
  resolve df n c r agg = Return p →
  ∃ ln lc lr, colspec n ln ∧ colspec c lc ∧ colspec r lr.
Proof.
  unfold resolve. intros Hp.
  apply result_bind_Return in Hp as (ok & Hok & Hp).
  destruct (negb ok); [done|].
  apply result_bind_Return in Hp as (nc & _ & Hp).
  apply result_bind_Return in Hp as (all & _ & Hp).
  apply result_bind_Return in Hp as (va & _ & Hp).
  apply result_bind_Return in Hp as (rc & _ & Hp).
  apply result_bind_Return in Hp as (all' & _ & Hp).
  apply result_bind_Return in Hp as (ln & Hn%as_list_Return & Hp).
  apply result_bind_Return in Hp as (lc & Hc%as_list_Return & Hp).
  apply result_bind_Return in Hp as (lr & Hr%as_list_Return & _).
  unfold _check_no_interleaving_cols in Hok.
  rewrite !cols_normalize_idemp, Hn, Hc, Hr in Hok.
  apply result_bind_Return in Hok as (X & HX%py_set_list_Return & Hok).
  apply result_bind_Return in Hok as (Y & HY%py_set_list_Return & Hok).
  apply result_bind_Return in Hok as (Z & HZ%py_set_list_Return & _).
  exists ln, lc, lr. split_and!; by apply cols_normalize_list_colspec.
Qed.

Lemma cubinggroupby_resolve_Raise df n c r agg fill_grouping as_index e :
  resolve df n c r agg = Raise e →
  cubinggroupby df n c r agg fill_grouping as_index = mkM [] (Raise e).
Proof. intros He. unfold cubinggroupby. by rewrite He. Qed.

Lemma grouping_sets_nonempty ln lc lr : grouping_sets ln lc lr ≠ [].
Proof.
  intros Hnil. apply (f_equal length) in Hnil.
  rewrite length_grouping_sets in Hnil.
  apply Nat.eq_mul_0 in Hnil as [Hpow|?]; [|lia].
  by apply Nat.pow_nonzero in Hpow.
Qed.

Lemma cubinggroupby_resolve_Return df n c r agg fill_grouping as_index p :
  resolve df n c r agg = Return p →
  trace (cubinggroupby df n c r agg fill_grouping as_index) ≠ [].
Proof.
  intros Hp.
  destruct (cubinggroupby_shape df n c r agg fill_grouping as_index p Hp)
    as [(dfs & _ & ->)|(i & gs & e & Hi & _ & _ & ->)]; cbn [trace].
  - intros Hnil%fmap_nil_inv. by apply grouping_sets_nonempty in Hnil.
  - intros Hnil%fmap_nil_inv.
    by destruct (grouping_sets _ _ _).
Qed.
End acceptance.


Lemma mapM_Return_Forall {A B} (f : A → result B) l k :
  mapM f l = Return k → Forall (λ x, ∃ y, f x = Return y) l.
Proof.
  revert k. induction l as [|x l IH]; intros k; [constructor|].
  change (mapM f (x :: l)) with (f x ≫= λ y, mapM f l ≫= λ k, mret (y :: k)).
  intros Hk. apply result_bind_Return in Hk as (y & Hy & Hk).
  apply result_bind_Return in Hk as (k' & Hk' & _).
  constructor; eauto.
Qed.

Lemma for_each_result_steps {A S} (body : S → A → result S) xs s0 s :
  for_each xs body s0 = Return s →
  Forall (λ x, ∃ s1 s2, body s1 x = Return s2) xs.
Proof.
  revert s0. induction xs as [|x xs IH]; intros s0; [constructor|].
  simpl. intros Hs. apply result_bind_Return in Hs as (s' & Hs' & Hs).
  constructor; eauto.
Qed.

Lemma col_index_elem_of c cols i : col_index c cols = Return i → c ∈ cols.
Proof.
  intros [Hi _]%col_index_Return. by eapply list_elem_of_lookup_2.
Qed.

Lemma grouping_sets_head ln lc lr :
  ∃ rest, grouping_sets ln lc lr = ln :: rest.
Proof.
  rewrite grouping_sets_unfold.
  destruct (cube_combinations_head lc) as [cs ->].
  destruct (rollup_combinations_head lr) as [rs ->].
  csimpl. rewrite !app_nil_r. by eexists.
Qed.

Section missing_column.
Context `{Engine} `{Runtime}.

Lemma fill_folded_Return_column df fill_grouping F c F' :
  fill_folded df fill_grouping F c = Return F' → c ∈ columns df.
Proof.
  unfold fill_folded. intros HF.
  apply result_bind_Return in HF as (orig & Horig & _).
  unfold getitem in Horig.
  apply result_bind_Return in Horig as (i & Hi & _).
  by eapply col_index_elem_of.
Qed.

(** No pass goes through when a grouping column is not a column of the
    table: [df.groupby] refuses it as a key, and [df[col].dtype] refuses
    it as a folded column. *)
Lemma grouping_pass_missing_column df p fill_grouping gs c :
  c ∈ plan_all_groupby_cols p → c ∉ columns df →
  ∃ e, grouping_pass df p fill_grouping gs = Raise e.
Proof.
  intros Hall Hmiss.
  destruct (grouping_pass df p fill_grouping gs) as [y|e] eqn:Hy; [|by eexists].
  exfalso. unfold grouping_pass in Hy.
  apply result_bind_Return in Hy as (sr & Hsr & Hy).
  apply result_bind_Return in Hy as (F & HF & _).
  destruct (decide (c ∈ gs)) as [Hin|Hout].
  - rewrite decide_False in Hsr by (intros ->; by apply not_elem_of_nil in Hin).
    unfold df_groupby_agg in Hsr.
    apply result_bind_Return in Hsr as (idxs & Hidxs & _).
    apply mapM_Return_Forall in Hidxs.
    rewrite Forall_forall in Hidxs.
    destruct (Hidxs c Hin) as [i Hi]. by apply col_index_elem_of in Hi.
  - apply for_each_result_steps in HF. rewrite Forall_forall in HF.
    destruct (HF c) as (s1 & s2 & Hs).
    { apply hash_order_elem_of, elem_of_difference.
      by rewrite !elem_of_list_to_set. }
    by apply fill_folded_Return_column in Hs.
Qed.
End missing_column.

(** * The rows of the result, grouping set by grouping set *)

Lemma NoDup_list_find (c : pyval) l k :
  NoDup l → l !! k = Some c → list_find (λ x, x = c) l = Some (k, c).
Proof.
  intros Hnd Hk. apply list_find_Some. split_and!; [done|done|].
  intros j y Hj Hlt ->. pose proof (NoDup_lookup _ _ _ _ Hnd Hj Hk). lia.
Qed.

Section layout.
Context `{Engine}.

(** Selecting [all ++ vc] from a pass table whose columns are the keys,
    the value columns and the folded columns lays every row out as
    [result_row] does. *)
Lemma project_result_row df fill_grouping all vc gs rem fills idxs r :
  NoDup gs → NoDup vc → NoDup rem →
  (∀ c, c ∈ all → c ∉ vc) →
  (∀ c, c ∈ gs → c ∈ all) →
  (∀ c, c ∈ all → c ∉ gs → c ∈ rem) →
  (∀ c, c ∈ rem → (c ∉ gs) ∧ (c ∉ vc)) →
  Forall2 (λ c v, folded_cell df fill_grouping c = Return v) rem fills →
  length r = length gs + length vc →
  mapM (λ c, col_index c ((gs ++ vc) ++ rem)) (all ++ vc) = Return idxs →
  project idxs (r ++ fills) = result_row df fill_grouping all gs r.
Proof.
  intros Hgs Hvc Hrem Hdisj Hsub Hcover Hfresh Hfills Hlen Hidxs.
  assert (NoDup (gs ++ vc)) as Hkv.
  { apply NoDup_app. split_and!; [done| |done]. intros c Hc. by apply Hdisj, Hsub. }
  apply mapM_app_Return in Hidxs as (i_all & i_vc & -> & Hi_all & Hi_vc).
  unfold project, result_row. rewrite fmap_app. f_equal.
  - apply mapM_Return in Hi_all. clear Hi_vc.
    assert (∀ l i_l,
              Forall (λ c, c ∈ all) l →
              Forall2 (λ c i, col_index c ((gs ++ vc) ++ rem) = Return i) l i_l →
              (λ i, (r ++ fills) !!! i) <$> i_l
              = grouping_cell df fill_grouping gs r <$> l) as Hgen;
      [|apply Hgen; [by apply Forall_forall|done]].
    clear Hi_all. intros l i_l Hin Hi_l.
    induction Hi_l as [|c i l i_l Hi _ IH]; [done|].
    apply Forall_cons in Hin as [Hc Hin]. csimpl. f_equal; [|by apply IH].
    unfold grouping_cell. destruct (decide (c ∈ gs)) as [Hcin|Hcout].
    + apply list_elem_of_lookup in Hcin as [k Hk].
      rewrite (NoDup_list_find c gs k) by done.
      rewrite (col_index_app_l (gs ++ vc) rem k c) in Hi;
        [|done|by apply lookup_app_l_Some].
      injection Hi as <-. apply lookup_lt_Some in Hk.
      rewrite lookup_total_app_l by lia. done.
    + rewrite (proj2 (list_find_label_None c gs)) by done.
      pose proof (Hcover c Hc Hcout) as Hcrem.
      apply list_elem_of_lookup in Hcrem as [k Hk].
      rewrite (col_index_app_r (gs ++ vc) rem k c) in Hi; [|
        rewrite elem_of_app; intros [?|?]; [done|by eapply Hdisj] |done|done].
      injection Hi as <-.
      destruct (Forall2_lookup_l _ _ _ _ _ Hfills Hk) as (v & Hv & Hcell).
      rewrite Hcell. simpl.
      rewrite lookup_total_app_r by (rewrite length_app; lia).
      rewrite length_app, Hlen, Nat.add_comm, Nat.add_sub.
      by apply list_lookup_total_correct.
  - assert (i_vc = seq (length gs) (length vc)) as ->.
    { apply mapM_Return in Hi_vc.
      apply list_eq_same_length with (length vc);
        [by rewrite length_seq|by rewrite <-(Forall2_length _ _ _ Hi_vc)|].
      intros k i j Hk Hi Hj. apply lookup_seq in Hj as [-> _].
      destruct (lookup_lt_is_Some_2 vc k) as [c Hc]; [done|].
      pose proof (Forall2_lookup_lr _ _ _ _ _ _ Hi_vc Hc Hi) as Hci.
      cbv beta in Hci.
      rewrite (col_index_app_l (gs ++ vc) rem (length gs + k) c) in Hci;
        [congruence|done|].
      rewrite lookup_app_r by lia. by rewrite Nat.add_comm, Nat.add_sub. }
    change ((λ i, (r ++ fills) !!! i) <$> seq (length gs) (length vc))
      with (project (seq (length gs) (length vc)) (r ++ fills)).
    rewrite project_seq by (rewrite length_app; lia).
    rewrite drop_app_le by lia.
    rewrite take_app_le by (rewrite length_drop; lia).
    apply take_ge. rewrite length_drop. lia.
Qed.
End layout.

Section pass_rows.
Context `{Engine} `{Runtime}.

Lemma aggregate_pass_wf df agg gs T :
  aggregate_pass df agg gs = Return T →
  index_names T = [] ∧ columns T = gs ++ agg.*1 ∧ rows_wf T.
Proof.
  unfold aggregate_pass. case_decide as Hgs.
  - subst gs. intros HT. destruct (df_agg_wf _ _ _ HT) as [Hwf Hcols].
    apply df_agg_Return in HT as (vals & _ & ->). done.
  - intros HT. destruct (df_groupby_agg_wf _ _ _ _ HT) as [Hwf Hcols].
    split_and!; [|done|done].
    unfold df_groupby_agg in HT.
    apply result_bind_Return in HT as (idxs & _ & HT).
    case_decide; [done|].
    by apply result_bind_Return in HT as (out & _ & [= <-]).
Qed.

(** One pass, row by row: the rows of the aggregated table, each laid out
    over the columns of the result. *)
Lemma grouping_pass_rows df p fill_grouping gs y :
  (plan_agg p).*1 = plan_value_cols p →
  plan_result_cols p = plan_all_groupby_cols p ++ plan_value_cols p →
  NoDup (plan_value_cols p) →
  (∀ c, c ∈ plan_all_groupby_cols p → c ∉ plan_value_cols p) →
  NoDup gs → (∀ c, c ∈ gs → c ∈ plan_all_groupby_cols p) →
  grouping_pass df p fill_grouping gs = Return y →
  ∃ T, aggregate_pass df (plan_agg p) gs = Return T
       ∧ index_names y = []
       ∧ columns y = plan_all_groupby_cols p ++ plan_value_cols p
       ∧ rows y = result_row df fill_grouping (plan_all_groupby_cols p) gs
                  <$> rows T.
Proof.
  destruct p as [ln lc lr all vc agg rc]. simpl.
  intros Hkeys -> Hvc Hdisj Hgs Hsub. unfold grouping_pass. simpl.
  change (if decide (gs = []) then df_agg df agg
          else df_groupby_agg df gs agg) with (aggregate_pass df agg gs).
  set (rem := hash_order (list_to_set all ∖ list_to_set gs)).
  intros Hy. apply result_bind_Return in Hy as (T & HT & Hy).
  apply result_bind_Return in Hy as (F & HF & Hy).
  exists T. split; [done|].
  destruct (aggregate_pass_wf _ _ _ _ HT) as (Hix & Hcols & Hwf).
  rewrite Hkeys in Hcols.
  assert (∀ c, c ∈ rem ↔ c ∈ all ∧ c ∉ gs) as Hrem.
  { intros c. unfold rem.
    by rewrite hash_order_elem_of, elem_of_difference, !elem_of_list_to_set. }
  assert (∀ c, c ∈ rem → (c ∉ gs) ∧ (c ∉ vc)) as Hfresh.
  { intros c [Hc Hout]%Hrem. split; [done|]. by apply Hdisj. }
  apply fill_folded_loop_rows in HF as (HixF & HcolsF & _ & HrowsF);
    [|apply hash_order_NoDup| |done].
  2:{ intros c Hc. rewrite Hcols, elem_of_app.
      destruct (Hfresh c Hc). tauto. }
  unfold select in Hy.
  apply result_bind_Return in Hy as (idxs & Hidxs & [= <-]). simpl.
  split_and!; [congruence|done|].
  destruct HrowsF as [[Hnil ->]|(fills & Hfills & ->)]; [by rewrite Hnil|].
  rewrite <-list_fmap_compose. apply Forall_fmap_ext_1.
  rewrite HcolsF, Hcols in Hidxs.
  eapply Forall_impl; [exact Hwf|]. intros r Hr. simpl.
  eapply (project_result_row df fill_grouping all vc gs rem); try done.
  - apply hash_order_NoDup.
  - intros c Hc Hout. by apply Hrem.
  - by rewrite Hr, Hcols, length_app.
Qed.
End pass_rows.

Section assemble_closed_form.
Context `{Engine}.

Lemma unique_col_index_col_index c cols i :
  unique_col_index c cols = Return i → col_index c cols = Return i.
Proof.
  unfold unique_col_index. intros Hi.
  apply result_bind_Return in Hi as (j & Hj & Hi).
  case_decide; [done|]. congruence.
Qed.

Lemma fmap_drop_0 (rws : list (list pyval)) : drop 0 <$> rws = rws.
Proof.
  rewrite <-(list_fmap_id rws) at 2. apply list_fmap_ext. intros ???. apply drop_0.
Qed.

(** Lines 176-186 in closed form: the rows of all passes sorted on the
    grouping columns, which lead the row; with [as_index] these become the
    index levels and the rows are sorted on them once more. *)
Lemma assemble_closed p y rest as_index res :
  columns y = plan_all_groupby_cols p ++ plan_value_cols p →
  Forall (λ row, length row = length (plan_all_groupby_cols p)
                              + length (plan_value_cols p))
    (mjoin (rows <$> y :: rest)) →
  assemble p (y :: rest) as_index = Return res →
  NoDup (plan_all_groupby_cols p)
  ∧ (∀ c, c ∈ plan_all_groupby_cols p → c ∉ plan_value_cols p)
  ∧ res =
      let n := length (plan_all_groupby_cols p) in
      let sorted := sort_by (project (seq 0 n)) (mjoin (rows <$> y :: rest)) in
      if as_index
      then mkDataFrame (plan_all_groupby_cols p) (plan_value_cols p)
             (sort_by (take n) sorted)
      else mkDataFrame [] (plan_all_groupby_cols p ++ plan_value_cols p)
             sorted.
Proof.
  intros Hcols Hlen Hres.
  destruct (assemble_unique p y rest as_index res Hcols Hres) as [Hnd Hdisj].
  split; [done|]. split; [done|].
  set (all := plan_all_groupby_cols p) in *.
  set (vc := plan_value_cols p) in *.
  unfold assemble in Hres. fold all in Hres.
  apply result_bind_Return in Hres as (u & Hu & Hres).
  apply result_bind_Return in Hu as (u0 & [= <-] & Hu).
  apply result_bind_Return in Hu as (s & Hs & [= <-]).
  unfold sort_values in Hs. cbn [columns index_names rows] in Hs.
  rewrite Hcols in Hs.
  apply result_bind_Return in Hs as (idxs & Hidxs & [= <-]).
  assert (idxs = seq 0 (length all)) as ->.
  { apply mapM_Return in Hidxs.
    assert (mapM (λ c, col_index c (all ++ vc)) all = Return idxs) as Hci.
    { apply mapM_Return_2. eapply Forall2_impl; [exact Hidxs|].
      intros c i. apply unique_col_index_col_index. }
    rewrite col_indexes_prefix in Hci by done. congruence. }
  unfold reset_index_drop in Hres. cbn [columns index_names rows length] in Hres.
  rewrite fmap_drop_0 in Hres.
  set (sorted := sort_by (project (seq 0 (length all))) (mjoin (rows <$> y :: rest))) in *.
  cbv zeta. destruct as_index; [|by injection Hres as <-].
  apply result_fmap_Return in Hres as (si & Hsi & ->).
  unfold set_index in Hsi. case_decide; [done|].
  cbn [columns index_names rows] in Hsi.
  rewrite col_indexes_prefix in Hsi by done. cbn [mbind result_bind] in Hsi.
  rewrite set_index_rest in Hsi by done. injection Hsi as <-.
  unfold sort_index. cbn [columns index_names rows]. rewrite project_suffix.
  f_equal. f_equal.
  enough (∀ l : list (list pyval),
            Forall (λ row, length row = length all + length vc) l →
            (λ r, project (seq 0 (length all)) r
                  ++ project (seq (length all) (length vc)) r) <$> l = l)
    as Hgen.
  { apply Hgen. by rewrite sort_by_Permutation. }
  intros l Hl. rewrite <-(list_fmap_id l) at 2. apply Forall_fmap_ext_1.
  eapply Forall_impl; [exact Hl|]. intros row Hrow. simpl.
  by apply project_split.
Qed.
End assemble_closed_form.

Section returning_run.
Context `{Engine} `{Runtime}.

Lemma select_wf df cols F :
  select df cols = Return F → columns F = cols ∧ rows_wf F.
Proof.
  unfold select. intros HF.
  apply result_bind_Return in HF as (idxs & Hidxs & [= <-]).
  split; [done|]. unfold rows_wf. simpl.
  apply mapM_Return_length in Hidxs.
  apply Forall_fmap, Forall_forall. intros r _. simpl.
  unfold project. by rewrite length_fmap.
Qed.

Lemma grouping_pass_wf df p fill_grouping gs y :
  grouping_pass df p fill_grouping gs = Return y →
  columns y = plan_result_cols p ∧ rows_wf y.
Proof.
  unfold grouping_pass. intros Hy.
  apply result_bind_Return in Hy as (T & _ & Hy).
  apply result_bind_Return in Hy as (F & _ & Hy).
  by apply select_wf in Hy.
Qed.

Lemma grouping_set_sublist ln lc lr gs :
  gs ∈ grouping_sets ln lc lr → gs `sublist_of` (ln ++ lc) ++ lr.
Proof.
  intros (cs & rs & Hcs & [k ->] & ->)%elem_of_grouping_sets.
  apply sublist_app; [apply sublist_app; [done|done]|].
  by apply sublist_inserts_r.
Qed.

(** A returning call on the documented domain: every pass returned, the
    grouping names are distinct and label no value column, and the result
    is the sorted union of the pass tables. *)
Lemma cubinggroupby_Return_closed df n c r agg fill_grouping as_index
    ln lc lr t res :
  colspec n ln → colspec c lc → colspec r lr →
  cubinggroupby df n c r agg fill_grouping as_index = mkM t (Return res) →
  let p := resolved_plan df ln lc lr agg in
  let all := (ln ++ lc) ++ lr in
  let vc := plan_value_cols p in
  ∃ dfs,
    resolve df n c r agg = Return p
    ∧ Forall2 (λ gs y, grouping_pass df p fill_grouping gs = Return y)
        (grouping_sets ln lc lr) dfs
    ∧ (∀ b, cubinggroupby df n c r agg fill_grouping b
            = mkM (pass_event <$> grouping_sets ln lc lr) (assemble p dfs b))
    ∧ NoDup all ∧ (∀ x, x ∈ all → x ∉ vc)
    ∧ Forall (λ row, length row = length all + length vc)
        (mjoin (rows <$> dfs))
    ∧ res = (let sorted := sort_by (project (seq 0 (length all)))
                             (mjoin (rows <$> dfs)) in
             if as_index
             then mkDataFrame all vc (sort_by (take (length all)) sorted)
             else mkDataFrame [] (all ++ vc) sorted).
Proof.
  intros Hn Hc Hr Hrun p all vc.
  destruct (resolve df n c r agg) as [p'|e] eqn:Hp.
  2:{ rewrite (cubinggroupby_resolve_Raise _ _ _ _ _ _ _ _ Hp) in Hrun.
      discriminate Hrun. }
  destruct (resolve_colspec_Return df n c r agg ln lc lr p') as [-> _];
    [done..|]. fold p in Hp.
  destruct (cubinggroupby_runs df n c r agg fill_grouping p Hp)
    as [(dfs & Hall & Hb)|(i & gs & e & _ & _ & _ & Hb)];
    [|rewrite Hb in Hrun; discriminate Hrun].
  cbn [p resolved_plan plan_normal_cols plan_cube_cols plan_rollup_cols] in Hall, Hb.
  fold p in Hall, Hb.
  exists dfs. split; [done|]. split; [done|]. split; [done|].
  rewrite Hb in Hrun. injection Hrun as _ Hres.
  assert (Forall (λ y, columns y = all ++ vc ∧ rows_wf y) dfs) as Hwf.
  { apply Forall_forall. intros y Hy.
    apply list_elem_of_lookup in Hy as [k Hk].
    destruct (Forall2_lookup_r _ _ _ _ _ Hall Hk) as (gs & _ & Hgs).
    by apply grouping_pass_wf in Hgs. }
  assert (Forall (λ row, length row = length all + length vc)
            (mjoin (rows <$> dfs))) as Hlen.
  { apply Forall_join, Forall_fmap, Forall_impl with (1 := Hwf).
    intros y [Hcols Hy]. simpl. unfold rows_wf in Hy.
    by rewrite Hcols, length_app in Hy. }
  destruct dfs as [|y rest].
  { destruct (grouping_sets_head ln lc lr) as [rest Hsets].
    rewrite Hsets in Hall. by apply Forall2_nil_inv_r in Hall. }
  apply Forall_cons in Hwf as [[Hcols _] _].
  destruct (assemble_closed p y rest as_index res) as (Hnd & Hdisj & Hclosed);
    [done|done|done|].
  by split_and!.
Qed.

(** With distinct value columns on top, the union of the pass tables is
    the direct UNION ALL over the grouping sets. *)
Lemma union_all_rows_Return df p fill_grouping dfs :
  (plan_agg p).*1 = plan_value_cols p →
  plan_result_cols p = plan_all_groupby_cols p ++ plan_value_cols p →
  NoDup (plan_all_groupby_cols p) → NoDup (plan_value_cols p) →
  (∀ x, x ∈ plan_all_groupby_cols p → x ∉ plan_value_cols p) →
  plan_all_groupby_cols p
  = (plan_normal_cols p ++ plan_cube_cols p) ++ plan_rollup_cols p →
  Forall2 (λ gs y, grouping_pass df p fill_grouping gs = Return y)
    (grouping_sets (plan_normal_cols p) (plan_cube_cols p)
       (plan_rollup_cols p)) dfs →
  union_all_rows df p fill_grouping = Return (mjoin (rows <$> dfs)).
Proof.
  intros Hkeys Hrc Hnd Hvc Hdisj Hall Hpasses. unfold union_all_rows.
  rewrite (mapM_Return_2 _ _ (rows <$> dfs)); [done|].
  apply Forall2_fmap_r.
  assert (Forall (λ gs, gs `sublist_of` plan_all_groupby_cols p)
            (grouping_sets (plan_normal_cols p) (plan_cube_cols p)
               (plan_rollup_cols p))) as Hsub.
  { apply Forall_forall. intros gs Hgs. rewrite Hall.
    by apply grouping_set_sublist. }
  induction Hpasses as [|gs y sets dfs Hy _ IH]; [constructor|].
  apply Forall_cons in Hsub as [Hgs Hsub]. constructor; [|by apply IH].
  apply grouping_pass_rows in Hy as (T & HT & _ & _ & Hrows); try done.
  - cbv beta. rewrite HT. cbn [mbind result_bind]. unfold compose. by rewrite Hrows.
  - exact (sublist_NoDup _ _ Hnd Hgs).
  - intros x Hx. exact (elem_of_sublist _ _ _ Hx Hgs).
Qed.
End returning_run.

Section promotion.
Context `{Engine}.

(** [set_index] and [sort_index] on the sorted union: the leading cells
    of each row become its index levels, no cell changes. *)
Lemma promote_closed (all vc : list pyval) (rws : list (list pyval)) :
  all ≠ [] → NoDup all → (∀ x, x ∈ all → x ∉ vc) →
  Forall (λ row, length row = length all + length vc) rws →
  sort_index <$> set_index (mkDataFrame [] (all ++ vc) rws) all
  = Return (mkDataFrame all vc (sort_by (take (length all)) rws)).
Proof.
  intros Hne Hnd Hdisj Hlen. unfold set_index.
  rewrite decide_False by done. cbn [columns index_names rows].
  rewrite col_indexes_prefix by done. cbn [mbind result_bind].
  rewrite set_index_rest by done.
  unfold sort_index. cbn [fmap result_fmap columns index_names rows].
  rewrite project_suffix. f_equal. f_equal. f_equal.
  rewrite <-(list_fmap_id rws) at 2. apply Forall_fmap_ext_1.
  eapply Forall_impl; [exact Hlen|]. intros row Hrow. simpl.
  by apply project_split.
Qed.

Lemma assemble_false_true p dfs rf :
  assemble p dfs false = Return rf →
  assemble p dfs true
  = sort_index <$> set_index rf (plan_all_groupby_cols p).
Proof.
  unfold assemble.
  destruct (concat dfs ≫= _) as [u|e]; cbn [mbind result_bind]; [|done].
  by intros [= ->].
Qed.

Lemma assemble_false_Raise p dfs e :
  assemble p dfs false = Raise e → assemble p dfs true = Raise e.
Proof.
  unfold assemble.
  by destruct (concat dfs ≫= _) as [u|e']; cbn [mbind result_bind].
Qed.

Lemma lex_leb_total :
  (∀ a b, cell_leb a b = true ∨ cell_leb b a = true) →
  ∀ k1 k2, lex_leb k1 k2 = true ∨ lex_leb k2 k1 = true.
Proof.
  intros Htotal k1. induction k1 as [|a k1 IH]; intros k2; [by left|].
  destruct k2 as [|b k2]; [by right|]. simpl.
  destruct (decide (a = b)) as [->|Hab].
  - rewrite decide_True by done. apply IH.
  - rewrite decide_False by done. apply Htotal.
Qed.

Lemma sort_by_Sorted (key : list pyval → list pyval) rws :
  (∀ a b, cell_leb a b = true ∨ cell_leb b a = true) →
  Sorted (λ r1 r2, lex_leb (key r1) (key r2)) (sort_by key rws).
Proof.
  intros Htotal. unfold sort_by. apply Sorted_merge_sort.
  intros r1 r2.
  destruct (lex_leb_total Htotal (key r1) (key r2)) as [Hle|Hle];
    rewrite Hle; [by left|by right].
Qed.
End promotion.

Lemma Sorted_impl_Forall {A} (R R' : relation A) (P : A → Prop) l :
  (∀ x y, P x → P y → R x y → R' x y) →
  Forall P l → Sorted R l → Sorted R' l.
Proof.
  intros Himp HP HS. induction HS as [|x l HS IH Hhd]; [constructor|].
  apply Forall_cons in HP as [Hx HP]. constructor; [by apply IH|].
  destruct Hhd as [|y l' Hxy]; constructor.
  apply Forall_cons in HP as [Hy _]. by apply Himp.
Qed.

Lemma ref_cell_leb_total a b :
  RefEngine.ref_cell_leb a b = true ∨ RefEngine.ref_cell_leb b a = true.
Proof.
  destruct a, b; simpl; auto.
  - destruct (Z.le_ge_cases z z0); [left|right]; by apply bool_decide_eq_true.
  - destruct (String.leb_total s s0) as [Hle|Hle]; [left|right];
      by apply bool_decide_eq_true.
Qed.

(** * The generators: repeated names, and how the two relate *)

Section distinct_combinations.
Context {A : Type}.

Lemma combinations_NoDup (x : list A) k : NoDup x → NoDup (combinations x k).
Proof.
  intros Hx. revert k. induction Hx as [|a x Ha Hx IH]; intros [|k]; simpl.
  - apply NoDup_singleton.
  - constructor.
  - apply NoDup_singleton.
  - apply NoDup_app. split_and!.
    + apply NoDup_fmap_2_strong; [|apply IH]. by intros t1 t2 _ _ [= ->].
    + intros t (t' & -> & _)%list_elem_of_fmap [Hsub _]%combinations_spec.
      apply Ha. eapply elem_of_sublist; [|exact Hsub]. by left.
    + apply IH.
Qed.

Lemma combinations_1 (x : list A) : combinations x 1 = (λ a, [a]) <$> x.
Proof.
  induction x as [|a x IH]; [done|].
  cbn [combinations]. by rewrite combinations_0, IH.
Qed.

Lemma combinations_head (x : list A) k :
  k ≤ length x → ∃ rest, combinations x k = take k x :: rest.
Proof.
  revert k. induction x as [|a x IH]; intros [|k] Hk; simpl in *;
    try lia; try by eexists.
  destruct (IH k) as [rest ->]; [lia|]. simpl. by eexists.
Qed.

Lemma cube_combinations_NoDup_2 (x : list A) :
  NoDup x → NoDup (_get_cube_combinations x).
Proof.
  intros Hx. rewrite cube_combinations_unfold, list_join_bind, list_fmap_bind.
  apply NoDup_bind.
  - intros k1 k2 t _ _ Hk1 Hk2. simpl in Hk1, Hk2.
    apply combinations_spec in Hk1 as [_ <-].
    by apply combinations_spec in Hk2 as [_ <-].
  - intros k _. simpl. by apply combinations_NoDup.
  - apply NoDup_seq.
Qed.

Lemma cube_combinations_NoDup_1 (x : list A) :
  NoDup (_get_cube_combinations x) → NoDup x.
Proof.
  rewrite cube_combinations_unfold. destruct x as [|a x]; [constructor|].
  cbn [length seq fmap list_fmap mjoin list_join].
  intros (_ & _ & Hnd)%NoDup_app. apply NoDup_app in Hnd as (Hnd & _ & _).
  rewrite combinations_1 in Hnd. by apply NoDup_fmap_1 in Hnd.
Qed.

Lemma rollup_combinations_NoDup (x : list A) :
  NoDup (_get_rollup_combinations x).
Proof.
  rewrite rollup_combinations_unfold.
  apply NoDup_fmap_2_strong; [|apply NoDup_seq].
  intros i j Hi Hj Hij. apply elem_of_seq in Hi, Hj.
  apply (f_equal length) in Hij. rewrite !length_take in Hij. lia.
Qed.

Lemma rollup_sublist_cube (x : list A) :
  _get_rollup_combinations x `sublist_of` _get_cube_combinations x.
Proof.
  rewrite rollup_combinations_unfold, cube_combinations_unfold.
  assert (Forall (λ k, k ≤ length x) (seq 0 (S (length x)))) as Hks.
  { apply Forall_seq. lia. }
  induction Hks as [|k ks Hk _ IH]; [constructor|]. csimpl.
  destruct (combinations_head x k Hk) as [rest ->]. simpl.
  apply sublist_skip. by apply sublist_inserts_l.
Qed.

Lemma cube_combinations_tail (x : list A) :
  ∃ rest, _get_cube_combinations x = [] :: rest ∧ Forall (λ t, t ≠ []) rest.
Proof.
  rewrite cube_combinations_unfold.
  cbn [seq fmap list_fmap mjoin list_join]. rewrite combinations_0.
  eexists. split; [done|].
  apply Forall_join, Forall_fmap, Forall_seq. intros k Hk. simpl.
  apply Forall_forall. intros t [_ Hlen]%combinations_spec ->. simpl in Hlen. lia.
Qed.

Lemma rollup_combinations_tail (x : list A) :
  ∃ rest, _get_rollup_combinations x = [] :: rest ∧ Forall (λ t, t ≠ []) rest.
Proof.
  rewrite rollup_combinations_unfold. cbn [seq fmap list_fmap]. rewrite take_0.
  eexists. split; [done|].
  apply Forall_fmap, Forall_seq. intros k Hk. simpl.
  destruct x as [|a x]; simpl in *; [lia|]. destruct k; [lia|done].
Qed.

Lemma app_inj_partition (P : A → Prop) (l1 l1' l2 l2' : list A) :
  Forall P l1 → Forall P l1' →
  Forall (λ a, ¬ P a) l2 → Forall (λ a, ¬ P a) l2' →
  l1 ++ l2 = l1' ++ l2' → l1 = l1' ∧ l2 = l2'.
Proof.
  revert l1'. induction l1 as [|a l1 IH]; intros [|b l1'] H1 H1' H2 H2' Heq;
    simpl in Heq.
  - done.
  - subst l2. apply Forall_cons in H1' as [Hb _].
    apply Forall_cons in H2 as [Hnb _]. done.
  - subst l2'. apply Forall_cons in H1 as [Ha _].
    apply Forall_cons in H2' as [Hna _]. done.
  - injection Heq as -> Heq.
    apply Forall_cons in H1 as [_ H1]. apply Forall_cons in H1' as [_ H1'].
    destruct (IH l1' H1 H1' H2 H2' Heq) as [-> ->]. done.
Qed.
End distinct_combinations.

Lemma grouping_sets_NoDup_2 ln lc lr :
  NoDup lc → (∀ x, x ∈ lc → x ∉ lr) → NoDup (grouping_sets ln lc lr).
Proof.
  intros Hlc Hdisj. unfold grouping_sets. apply NoDup_bind.
  - intros cs1 cs2 gs Hcs1 Hcs2 Hgs1 Hgs2.
    apply list_elem_of_bind in Hgs1 as (rs1 & Hgs1 & Hrs1).
    apply list_elem_of_bind in Hgs2 as (rs2 & Hgs2 & Hrs2).
    apply list_elem_of_singleton in Hgs1, Hgs2. subst gs.
    rewrite <-!(assoc_L (++)) in Hgs2. apply app_inv_head in Hgs2.
    apply elem_of_cube_combinations in Hcs1, Hcs2.
    apply elem_of_rollup_combinations in Hrs1 as [k1 Hk1], Hrs2 as [k2 Hk2].
    assert (cs1 = cs2 ∧ rs1 = rs2) as [? _]; [|done].
    apply (app_inj_partition (λ x, x ∈ lc) cs1 cs2 rs1 rs2); [..|done].
    + apply Forall_forall. intros x Hx. by eapply elem_of_sublist.
    + apply Forall_forall. intros x Hx. by eapply elem_of_sublist.
    + apply Forall_forall. intros x Hx Hin. apply (Hdisj x Hin).
      rewrite Hk1. apply elem_of_app. by left.
    + apply Forall_forall. intros x Hx Hin. apply (Hdisj x Hin).
      rewrite Hk2. apply elem_of_app. by left.
  - intros cs _. rewrite bind_singleton_fmap.
    apply NoDup_fmap_2_strong; [|apply rollup_combinations_NoDup].
    by intros rs1 rs2 _ _ ?%app_inv_head.
  - by apply cube_combinations_NoDup_2.
Qed.

Lemma grouping_sets_tail ln lc lr :
  ∃ rest, grouping_sets ln lc lr = ln :: rest
          ∧ (Forall (λ gs, gs ≠ []) rest).
Proof.
  rewrite grouping_sets_unfold.
  destruct (cube_combinations_tail lc) as (crest & -> & Hc).
  destruct (rollup_combinations_tail lr) as (rrest & -> & Hr).
  csimpl. rewrite !app_nil_r. eexists. split; [done|].
  apply Forall_app. split.
  - apply Forall_fmap. eapply Forall_impl; [exact Hr|].
    intros rs Hrs. simpl. intros Hnil. by apply app_eq_nil in Hnil as [_ ?].
  - apply Forall_join, Forall_fmap. eapply Forall_impl; [exact Hc|].
    intros cs Hcs. simpl. constructor.
    + intros Hnil. apply app_eq_nil in Hnil as [Hnil _].
      by apply app_eq_nil in Hnil as [_ ?].
    + apply Forall_fmap, Forall_forall. intros rs _. simpl. intros Hnil.
      apply app_eq_nil in Hnil as [Hnil _].
      by apply app_eq_nil in Hnil as [_ ?].
Qed.

Lemma pass_event_inj gs1 gs2 : pass_event gs1 = pass_event gs2 → gs1 = gs2.
Proof.
  unfold pass_event. repeat case_decide; congruence.
Qed.

Lemma group_count_no_rows df gs :
  rows df = [] → group_count df gs = if decide (gs = []) then 1 else 0.
Proof. intros Hrows. unfold group_count. by rewrite Hrows. Qed.

Section pass_row_count.
Context `{Engine} `{Runtime}.

Lemma grouping_pass_row_count df p fill_grouping gs y :
  grouping_pass df p fill_grouping gs = Return y →
  length (rows y) = group_count df gs.
Proof.
  unfold grouping_pass, group_count. intros Hy.
  apply result_bind_Return in Hy as (sr & Hsr & Hy).
  apply result_bind_Return in Hy as (sr' & Hfill & Hy).
  apply select_Return in Hy as [_ ->].
  assert (length (rows sr') = length (rows sr)) as ->.
  { eapply (for_each_result_inv (λ s, length (rows s) = length (rows sr)));
      [done| |exact Hfill].
    intros s x s' _ <- Hs. by eapply fill_folded_rows. }
  case_decide.
  - by apply df_agg_Return in Hsr as (vals & _ & ->).
  - by apply df_groupby_agg_rows in Hsr.
Qed.

Lemma passes_no_rows df p fill_grouping sets dfs :
  rows df = [] → Forall (λ gs, gs ≠ []) sets →
  Forall2 (λ gs y, grouping_pass df p fill_grouping gs = Return y) sets dfs →
  mjoin (rows <$> dfs) = [].
Proof.
  intros Hrows Hsets Hpasses.
  induction Hpasses as [|gs y sets dfs Hy _ IH]; [done|].
  apply Forall_cons in Hsets as [Hgs Hsets]. csimpl. rewrite IH by done.
  apply grouping_pass_row_count in Hy.
  rewrite group_count_no_rows, decide_False in Hy by done.
  apply nil_length_inv in Hy. by rewrite Hy.
Qed.
End pass_row_count.

Lemma py_set_list_ext l l' :
  (∀ x, x ∈ l ↔ x ∈ l') → py_set (PyList l) = py_set (PyList l').
Proof.
  intros Hiff. unfold py_set. simpl.
  assert (∀ k k' : list pyval, (∀ x, x ∈ k → x ∈ k') →
            forallb hashable k' = true → forallb hashable k = true) as Hmono.
  { intros k k' Hsub Hk'%Is_true_true%forallb_True.
    apply Is_true_true, forallb_True. rewrite Forall_forall in Hk' |- *.
    intros x Hx. by apply Hk', Hsub. }
  assert (list_to_set l =@{gset pyval} list_to_set l') as ->.
  { apply set_eq. intros x. by rewrite !elem_of_list_to_set. }
  destruct (forallb hashable l) eqn:Hl, (forallb hashable l') eqn:Hl'; try done.
  - rewrite (Hmono l' l) in Hl'; [done|by intros x ?%Hiff|done].
  - rewrite (Hmono l l') in Hl; [done|by intros x ?%Hiff|done].
Qed.

Section group_keys_not_null.
Context `{Engine}.

(** The leading cells of a row of [groupby(...).agg(...)] are the key of
    a group: the cells some row of the table has in the key columns, none
    of them null, since [groupby] drops the rows with a null key. *)
Lemma df_groupby_agg_key_rows df by_cols agg T :
  df_groupby_agg df by_cols agg = Return T →
  ∃ idxs,
    mapM (λ c, col_index c (columns df)) by_cols = Return idxs
    ∧ Forall (λ row, notnull (take (length by_cols) row)
                     ∧ ∃ r, r ∈ rows df
                            ∧ take (length by_cols) row = project idxs r)
        (rows T).
Proof.
  unfold df_groupby_agg. intros HT.
  apply result_bind_Return in HT as (idxs & Hidxs & HT).
  case_decide; [done|].
  apply result_bind_Return in HT as (out & Hout & [= <-]). simpl.
  exists idxs. split; [done|].
  apply mapM_Return_length in Hidxs.
  apply mapM_Return in Hout.
  assert (Forall (λ k, length k = length by_cols ∧ notnull k
                       ∧ ∃ r, r ∈ rows df ∧ k = project idxs r)
            (group_keys idxs (rows df))) as Hkeys.
  { apply Forall_forall. intros k Hk. unfold group_keys in Hk.
    rewrite sort_by_Permutation in Hk.
    apply elem_of_remove_dups, list_elem_of_filter in Hk as [Hnn Hk].
    apply list_elem_of_fmap in Hk as (r & -> & Hr).
    split_and!; [|done|by exists r]. unfold project. by rewrite length_fmap. }
  induction Hout as [|k row ks out Hrow _ IH]; [constructor|].
  apply Forall_cons in Hkeys as [(Hlen & Hnn & Hr) Hkeys].
  constructor; [|by apply IH].
  apply result_bind_Return in Hrow as (vals & _ & [= <-]).
  by rewrite take_app_length' by done.
Qed.

(** The cells [result_row] gives the leading columns of a grouping set
    are the leading cells of the pass row. *)
Lemma grouping_cell_prefix df fill_grouping (ln rest row : list pyval) :
  NoDup (ln ++ rest) → length ln ≤ length row →
  grouping_cell df fill_grouping (ln ++ rest) row <$> ln
  = take (length ln) row.
Proof.
  intros Hnd Hlen. apply list_eq_same_length with (length ln);
    [by rewrite length_take; lia|by rewrite length_fmap|].
  intros j x y Hj Hx Hy.
  apply list_lookup_fmap_Some in Hx as (c & -> & Hc).
  unfold grouping_cell.
  rewrite (NoDup_list_find c (ln ++ rest) j) by (by apply lookup_app_l_Some || done).
  rewrite lookup_take_lt in Hy by done.
  by apply list_lookup_total_correct.
Qed.
End group_keys_not_null.

(** * Further properties of the driver *)

(** An aggregation pass is started exactly when each column specification
    is [None], one string or a list of hashable names, no name is shared
    between two of the three groups, and [agg] is a string or a dict.  With
    any other arguments (a tuple, a dict or a number as a column
    specification among them) the call raises before any pass. *)
Theorem passes_start_iff_accepted `{Engine} `{Runtime}
    df n c r agg fill_grouping as_index :
  (trace (cubinggroupby df n c r agg fill_grouping as_index) ≠ []
   ↔ accepted n c r agg)
  ∧ (trace (cubinggroupby df n c r agg fill_grouping as_index) = []
     ↔ ∃ e, cubinggroupby df n c r agg fill_grouping as_index
            = mkM [] (Raise e)).
Proof.
  destruct (resolve df n c r agg) as [p|e] eqn:Hp.
  - pose proof (cubinggroupby_resolve_Return df n c r agg fill_grouping
                  as_index p Hp) as Ht.
    split; split; try done.
    + intros _. destruct (resolve_Return_colspec _ _ _ _ _ _ Hp)
        as (ln & lc & lr & Hn & Hc & Hr).
      exists ln, lc, lr. split_and!; try done;
        rewrite (resolve_colspec df n c r agg ln lc lr) in Hp by done;
        case_bool_decide; try done.
      by destruct (isinstance_str agg || isinstance_dict agg).
    + intros [e He]. by rewrite He in Ht.
  - rewrite (cubinggroupby_resolve_Raise _ _ _ _ _ _ _ _ Hp). cbn [trace].
    split; split; try done.
    + intros (ln & lc & lr & Hn & Hc & Hr & Hdisj & Hagg).
      rewrite (resolve_colspec df n c r agg ln lc lr) in Hp by done.
      by rewrite bool_decide_eq_true_2, Hagg in Hp.
    + intros _. by exists e.
Qed.

(** Past validation the passes run one grouping set after the other, in
    loop order.  Either every pass returns, and the call ends with what the
    final assembly gives; or the first pass that raises ends the call with
    its exception, the passes of the later grouping sets never starting. *)
Theorem passes_stop_at_first_failure `{Engine} `{Runtime}
    df n c r agg fill_grouping as_index ln lc lr :
  colspec n ln → colspec c lc → colspec r lr →
  pairwise_disjoint ln lc lr →
  isinstance_str agg || isinstance_dict agg = true →
  (∃ dfs,
     Forall2 (λ gs y, grouping_pass df (resolved_plan df ln lc lr agg)
                        fill_grouping gs = Return y)
       (grouping_sets ln lc lr) dfs
     ∧ cubinggroupby df n c r agg fill_grouping as_index
       = mkM (pass_event <$> grouping_sets ln lc lr)
             (assemble (resolved_plan df ln lc lr agg) dfs as_index))
  ∨ (∃ i gs e,
       grouping_sets ln lc lr !! i = Some gs
       ∧ grouping_pass df (resolved_plan df ln lc lr agg) fill_grouping gs
         = Raise e
       ∧ Forall (λ gs', ∃ y, grouping_pass df (resolved_plan df ln lc lr agg)
                               fill_grouping gs' = Return y)
           (take i (grouping_sets ln lc lr))
       ∧ cubinggroupby df n c r agg fill_grouping as_index
         = mkM (pass_event <$> take (S i) (grouping_sets ln lc lr))
               (Raise e)).
Proof.
  intros Hn Hc Hr Hdisj Hagg.
  apply (cubinggroupby_shape df n c r agg fill_grouping as_index
           (resolved_plan df ln lc lr agg)).
  rewrite (resolve_colspec df n c r agg ln lc lr) by done.
  by rewrite bool_decide_eq_true_2, Hagg.
Qed.

Lemma passes_stop_at_first_failure_witness :
  ∃ e, @cubinggroupby RefEngine.engine RefEngine.run_a Samples.small_df
         PyNone (PyList [PyStr "v"]) PyNone
         (PyDict [(PyStr "a", PyStr "count")]) (PyStr "ALL") false
       = mkM [EvAgg] (Raise e).
Proof.
  destruct (@passes_stop_at_first_failure RefEngine.engine RefEngine.run_a
              Samples.small_df PyNone (PyList [PyStr "v"]) PyNone
              (PyDict [(PyStr "a", PyStr "count")]) (PyStr "ALL") false
              [] [PyStr "v"] []
              colspec_none (colspec_list [PyStr "v"] eq_refl) colspec_none)
    as [(dfs & Hall & _)|(i & gs & e & Hi & He & Hbefore & Hrun)].
  - apply (bool_decide_unpack _). vm_compute. exact I.
  - reflexivity.
  - exfalso. apply Forall2_cons_inv_l in Hall as (y & dfs' & Hy & _ & _).
    vm_compute in Hy. discriminate Hy.
  - destruct i as [|i].
    + exists e. exact Hrun.
    + exfalso. apply Forall_cons in Hbefore as [[y Hy] _].
      vm_compute in Hy. discriminate Hy.
Defined.

(** A grouping column that the table does not have makes the first pass
    raise: the call ends there, with one pass started and no table. *)
Theorem missing_grouping_column_raises `{Engine} `{Runtime}
    df n c r agg fill_grouping as_index ln lc lr col :
  colspec n ln → colspec c lc → colspec r lr →
  pairwise_disjoint ln lc lr →
  isinstance_str agg || isinstance_dict agg = true →
  col ∈ (ln ++ lc) ++ lr → col ∉ columns df →
  ∃ e, cubinggroupby df n c r agg fill_grouping as_index
       = mkM [pass_event ln] (Raise e).
Proof.
  intros Hn Hc Hr Hdisj Hagg Hcol Hmiss.
  set (p := resolved_plan df ln lc lr agg).
  assert (resolve df n c r agg = Return p) as Hp.
  { rewrite (resolve_colspec df n c r agg ln lc lr) by done.
    by rewrite bool_decide_eq_true_2, Hagg. }
  assert (∀ gs, ∃ e, grouping_pass df p fill_grouping gs = Raise e) as Hfail.
  { intros gs. by apply (grouping_pass_missing_column df p fill_grouping gs col). }
  destruct (grouping_sets_head ln lc lr) as [rest Hsets].
  destruct (cubinggroupby_shape df n c r agg fill_grouping as_index p Hp)
    as [(dfs & Hall & _)|(i & gs & e & Hi & He & Hbefore & ->)];
    cbn [p resolved_plan plan_normal_cols plan_cube_cols plan_rollup_cols] in *;
    rewrite Hsets in *.
  - apply Forall2_cons_inv_l in Hall as (y & dfs' & Hy & _ & _).
    destruct (Hfail ln) as [e He]. congruence.
  - destruct i as [|i].
    + exists e. done.
    + simpl in Hbefore. apply Forall_cons in Hbefore as [[y Hy] _].
      destruct (Hfail ln) as [e' He']. congruence.
Qed.

Lemma missing_grouping_column_raises_witness :
  ∃ e, @cubinggroupby RefEngine.engine RefEngine.run_a Samples.small_df
         (PyStr "a") PyNone (PyList [PyStr "zz"]) (PyStr "sum") PyNone true
       = mkM [pass_event [PyStr "a"]] (Raise e).
Proof.
  apply (@missing_grouping_column_raises RefEngine.engine RefEngine.run_a
           Samples.small_df (PyStr "a") PyNone (PyList [PyStr "zz"])
           (PyStr "sum") PyNone true [PyStr "a"] [] [PyStr "zz"] (PyStr "zz")).
  - exact (colspec_name "a").
  - exact colspec_none.
  - exact (colspec_list [PyStr "zz"] eq_refl).
  - apply (bool_decide_unpack _). vm_compute. exact I.
  - reflexivity.
  - apply (bool_decide_unpack _). vm_compute. exact I.
  - apply (bool_decide_unpack _). vm_compute. exact I.
Defined.

(** The layout of a returned table, for a table with distinct column
    labels and one reduction per column: the grouping names are distinct
    and none of them labels a value column; they lead the columns, or are
    the index levels with [as_index]; every row has one cell per grouping
    column and per value column. *)
Theorem result_layout `{Engine} `{Runtime}
    df n c r agg fill_grouping as_index ln lc lr t res :
  colspec n ln → colspec c lc → colspec r lr →
  NoDup (columns df) → single_reductions agg →
  cubinggroupby df n c r agg fill_grouping as_index = mkM t (Return res) →
  NoDup ((ln ++ lc) ++ lr)
  ∧ (∀ x, x ∈ (ln ++ lc) ++ lr →
          x ∉ plan_value_cols (resolved_plan df ln lc lr agg))
  ∧ index_names res = (if as_index then (ln ++ lc) ++ lr else [])
  ∧ columns res
    = (if as_index then plan_value_cols (resolved_plan df ln lc lr agg)
       else ((ln ++ lc) ++ lr)
            ++ plan_value_cols (resolved_plan df ln lc lr agg))
  ∧ Forall (λ row, length row
                   = length ((ln ++ lc) ++ lr)
                     + length (plan_value_cols (resolved_plan df ln lc lr agg)))
      (rows res).
Proof.
  intros Hn Hc Hr _ _ Hrun.
  destruct (cubinggroupby_Return_closed df n c r agg fill_grouping as_index
              ln lc lr t res Hn Hc Hr Hrun)
    as (dfs & _ & _ & _ & Hnd & Hdisj & Hlen & ->).
  split; [done|]. split; [done|]. cbv zeta.
  destruct as_index; cbn [index_names columns rows];
    (split; [done|]); (split; [done|]); by rewrite !sort_by_Permutation.
Qed.

Lemma result_layout_witness :
  NoDup (([] ++ [PyStr "category"; PyStr "area"]) ++ [PyStr "year"])
  ∧ index_names Calls.test_result = []
  ∧ columns Calls.test_result
    = [PyStr "category"; PyStr "area"; PyStr "year";
       PyStr "product"; PyStr "price"]
  ∧ Forall (λ row, length row = 3 + 2) (rows Calls.test_result).
Proof.
  destruct (@result_layout RefEngine.engine RefEngine.run_a
              Samples.test_df PyNone (PyList [PyStr "category"; PyStr "area"])
              (PyList [PyStr "year"])
              (PyDict [(PyStr "product", PyFunc "nunique");
                       (PyStr "price", PyStr "sum")])
              (PyDict [(PyStr "category", PyStr "TOTAL");
                       (PyStr "area", PyNone)])
              false [] [PyStr "category"; PyStr "area"] [PyStr "year"]
              (trace (Calls.test_call RefEngine.run_a false))
              Calls.test_result
              colspec_none
              (colspec_list [PyStr "category"; PyStr "area"] eq_refl)
              (colspec_list [PyStr "year"] eq_refl))
    as (Hnd & _ & Hix & Hcols & Hrows).
  - apply (bool_decide_unpack _). vm_compute. exact I.
  - repeat constructor.
  - vm_compute. reflexivity.
  - split_and!; [exact Hnd|exact Hix|exact Hcols|exact Hrows].
Defined.

(** [as_index] decides nothing but the final promotion.  The call with
    [as_index=True] starts the same passes as the one with
    [as_index=False] and raises what it raises.  When that one returns a
    table, it raises if there is no grouping column at all (the engine
    cannot make an index of no column), and otherwise returns the same
    rows, cell for cell, with the grouping columns as index levels, sorted
    on them once more.  Stated for tables with distinct column labels and
    one reduction per column. *)
Theorem as_index_only_promotes `{Engine} `{Runtime}
    df n c r agg fill_grouping ln lc lr t :
  colspec n ln → colspec c lc → colspec r lr →
  NoDup (columns df) → single_reductions agg →
  (∀ rf, cubinggroupby df n c r agg fill_grouping false
         = mkM t (Return rf) →
         ((ln ++ lc) ++ lr = [] →
          ∃ e, cubinggroupby df n c r agg fill_grouping true
               = mkM t (Raise e))
         ∧ ((ln ++ lc) ++ lr ≠ [] →
            cubinggroupby df n c r agg fill_grouping true
            = mkM t (Return
                       (mkDataFrame ((ln ++ lc) ++ lr)
                          (plan_value_cols (resolved_plan df ln lc lr agg))
                          (sort_by (take (length ((ln ++ lc) ++ lr)))
                             (rows rf))))))
  ∧ (∀ e, cubinggroupby df n c r agg fill_grouping false
          = mkM t (Raise e) →
          cubinggroupby df n c r agg fill_grouping true
          = mkM t (Raise e)).
Proof.
  intros Hn Hc Hr _ _. split.
  - intros rf Hrun.
    destruct (cubinggroupby_Return_closed df n c r agg fill_grouping false
                ln lc lr t rf Hn Hc Hr Hrun)
      as (dfs & _ & _ & Hb & Hnd & Hdisj & Hlen & Hrf).
    rewrite (Hb false) in Hrun. injection Hrun as <- Hasm.
    rewrite (Hb true), (assemble_false_true _ _ _ Hasm).
    cbn [resolved_plan plan_all_groupby_cols]. split.
    + intros Hnil. rewrite Hnil. unfold set_index.
      rewrite decide_True by done. by eexists.
    + intros Hne. f_equal. subst rf. cbv zeta. cbn [rows].
      apply promote_closed; [done|done|done|]. by rewrite sort_by_Permutation.
  - intros e Hrun.
    destruct (resolve df n c r agg) as [p|e'] eqn:Hp.
    + destruct (cubinggroupby_runs df n c r agg fill_grouping p Hp)
        as [(dfs & _ & Hb)|(i & gs & e' & _ & _ & _ & Hb)].
      * rewrite (Hb false) in Hrun. injection Hrun as <- Hasm.
        rewrite (Hb true). f_equal. by apply assemble_false_Raise.
      * rewrite (Hb false) in Hrun. by rewrite (Hb true).
    + rewrite (cubinggroupby_resolve_Raise _ _ _ _ _ _ _ _ Hp) in Hrun.
      by rewrite (cubinggroupby_resolve_Raise _ _ _ _ _ _ _ _ Hp).
Qed.

Lemma as_index_only_promotes_witness :
  Calls.test_call RefEngine.run_a true
  = mkM (trace (Calls.test_call RefEngine.run_a false))
        (Return
           (mkDataFrame [PyStr "category"; PyStr "area"; PyStr "year"]
              [PyStr "product"; PyStr "price"]
              (@sort_by RefEngine.engine (take 3) (rows Calls.test_result))))
  ∧ ∃ e, @cubinggroupby RefEngine.engine RefEngine.run_a Samples.small_df
           PyNone PyNone PyNone (PyStr "sum") PyNone true
         = mkM [EvAgg] (Raise e).
Proof.
  split.
  - destruct (@as_index_only_promotes RefEngine.engine RefEngine.run_a
                Samples.test_df PyNone
                (PyList [PyStr "category"; PyStr "area"])
                (PyList [PyStr "year"])
                (PyDict [(PyStr "product", PyFunc "nunique");
                         (PyStr "price", PyStr "sum")])
                (PyDict [(PyStr "category", PyStr "TOTAL");
                         (PyStr "area", PyNone)])
                [] [PyStr "category"; PyStr "area"] [PyStr "year"]
                (trace (Calls.test_call RefEngine.run_a false))
                colspec_none
                (colspec_list [PyStr "category"; PyStr "area"] eq_refl)
                (colspec_list [PyStr "year"] eq_refl))
      as [Hret _].
    + apply (bool_decide_unpack _). vm_compute. exact I.
    + repeat constructor.
    + destruct (Hret Calls.test_result) as [_ Hsome].
      * vm_compute. reflexivity.
      * apply Hsome. discriminate.
  - destruct (@as_index_only_promotes RefEngine.engine RefEngine.run_a
                Samples.small_df PyNone PyNone PyNone (PyStr "sum") PyNone
                [] [] [] [EvAgg]
                colspec_none colspec_none colspec_none)
      as [Hret _].
    + apply (bool_decide_unpack _). vm_compute. exact I.
    + exact I.
    + destruct (Hret (Calls.result_of
                        (@cubinggroupby RefEngine.engine RefEngine.run_a
                           Samples.small_df PyNone PyNone PyNone (PyStr "sum")
                           PyNone false))) as [Hnone _].
      * vm_compute. reflexivity.
      * apply Hnone. reflexivity.
Defined.

(** The rows of a returned table are in ascending order of their grouping
    cells, compared column by column in the order plain, cube, rollup with
    the engine's order on cells, provided that order is total. *)
Theorem result_sorted_on_grouping_columns `{Engine} `{Runtime}
    df n c r agg fill_grouping as_index ln lc lr t res :
  (∀ a b, cell_leb a b = true ∨ cell_leb b a = true) →
  colspec n ln → colspec c lc → colspec r lr →
  cubinggroupby df n c r agg fill_grouping as_index = mkM t (Return res) →
  Sorted (λ r1 r2, lex_leb (take (length ((ln ++ lc) ++ lr)) r1)
                     (take (length ((ln ++ lc) ++ lr)) r2))
    (rows res).
Proof.
  intros Htotal Hn Hc Hr Hrun.
  destruct (cubinggroupby_Return_closed df n c r agg fill_grouping as_index
              ln lc lr t res Hn Hc Hr Hrun)
    as (dfs & _ & _ & _ & Hnd & Hdisj & Hlen & ->).
  cbv zeta. destruct as_index; cbn [rows]; [by apply sort_by_Sorted|].
  eapply Sorted_impl_Forall;
    [|rewrite sort_by_Permutation; exact Hlen|by apply sort_by_Sorted].
  intros r1 r2 Hr1 Hr2. cbv beta in Hr1, Hr2 |- *.
  rewrite (project_seq r1 0), (project_seq r2 0) by (simpl; lia).
  by rewrite !drop_0.
Qed.

Lemma result_sorted_on_grouping_columns_witness :
  Sorted (λ r1 r2, @lex_leb RefEngine.engine (take 3 r1) (take 3 r2))
    (rows Calls.test_result).
Proof.
  apply (@result_sorted_on_grouping_columns RefEngine.engine RefEngine.run_a
           Samples.test_df PyNone (PyList [PyStr "category"; PyStr "area"])
           (PyList [PyStr "year"])
           (PyDict [(PyStr "product", PyFunc "nunique");
                    (PyStr "price", PyStr "sum")])
           (PyDict [(PyStr "category", PyStr "TOTAL");
                    (PyStr "area", PyNone)])
           false [] [PyStr "category"; PyStr "area"] [PyStr "year"]
           (trace (Calls.test_call RefEngine.run_a false))
           Calls.test_result).
  - exact ref_cell_leb_total.
  - exact colspec_none.
  - exact (colspec_list [PyStr "category"; PyStr "area"] eq_refl).
  - exact (colspec_list [PyStr "year"] eq_refl).
  - vm_compute. reflexivity.
Defined.



(** The cube generator works on positions, not on names: its tuples are
    pairwise distinct exactly when the names it is given are; a name given
    twice makes it return the same tuple more than once. *)
Theorem cube_combinations_distinct {A} (x : list A) :
  NoDup (_get_cube_combinations x) ↔ NoDup x.
Proof.
  split; [apply cube_combinations_NoDup_1|apply cube_combinations_NoDup_2].
Qed.

(** The prefixes the rollup generator returns are pairwise distinct,
    whatever the names, and they are among the tuples the cube generator
    returns for the same sequence, in the same relative order: ROLLUP
    visits some of the grouping sets of CUBE. *)
Theorem rollup_combinations_within_cube {A} (x : list A) :
  NoDup (_get_rollup_combinations x)
  ∧ _get_rollup_combinations x `sublist_of` _get_cube_combinations x.
Proof.
  split; [apply rollup_combinations_NoDup|apply rollup_sublist_cube].
Qed.

(** A call that returns has aggregated no grouping set twice: its passes
    are pairwise distinct. *)
Theorem returning_call_repeats_no_pass `{Engine} `{Runtime}
    df n c r agg fill_grouping as_index ln lc lr t res :
  colspec n ln → colspec c lc → colspec r lr →
  cubinggroupby df n c r agg fill_grouping as_index = mkM t (Return res) →
  NoDup (grouping_sets ln lc lr)
  ∧ t = pass_event <$> grouping_sets ln lc lr
  ∧ NoDup t.
Proof.
  intros Hn Hc Hr Hrun.
  destruct (cubinggroupby_Return_closed df n c r agg fill_grouping as_index
              ln lc lr t res Hn Hc Hr Hrun)
    as (dfs & _ & _ & Hb & Hnd & _ & _ & _).
  rewrite Hb in Hrun. injection Hrun as <- _.
  apply NoDup_app in Hnd as (Hnd & Hdisj & _).
  apply NoDup_app in Hnd as (_ & _ & Hlc).
  assert (NoDup (grouping_sets ln lc lr)) as Hsets.
  { apply grouping_sets_NoDup_2; [done|].
    intros x Hx. apply Hdisj, elem_of_app. by right. }
  split_and!; [done|done|].
  apply NoDup_fmap_2_strong; [|done].
  intros gs1 gs2 _ _. apply pass_event_inj.
Qed.

Lemma returning_call_repeats_no_pass_witness :
  NoDup (grouping_sets [] [PyStr "category"; PyStr "area"] [PyStr "year"])
  ∧ NoDup (trace (Calls.test_call RefEngine.run_a false)).
Proof.
  destruct (@returning_call_repeats_no_pass RefEngine.engine RefEngine.run_a
              Samples.test_df PyNone (PyList [PyStr "category"; PyStr "area"])
              (PyList [PyStr "year"])
              (PyDict [(PyStr "product", PyFunc "nunique");
                       (PyStr "price", PyStr "sum")])
              (PyDict [(PyStr "category", PyStr "TOTAL");
                       (PyStr "area", PyNone)])
              false [] [PyStr "category"; PyStr "area"] [PyStr "year"]
              (trace (Calls.test_call RefEngine.run_a false))
              Calls.test_result
              colspec_none
              (colspec_list [PyStr "category"; PyStr "area"] eq_refl)
              (colspec_list [PyStr "year"] eq_refl))
    as (Hsets & _ & Ht).
  - vm_compute. reflexivity.
  - split; [exact Hsets|exact Ht].
Defined.



(** The overlap validator compares sets of names: it gives the same
    answer whatever the order of the names inside a group and however
    often a name is repeated inside one group.  A name listed twice in one
    group is therefore never reported. *)
Theorem check_no_interleaving_cols_compares_sets ln ln' lc lc' lr lr' :
  (∀ x, x ∈ ln ↔ x ∈ ln') → (∀ x, x ∈ lc ↔ x ∈ lc') →
  (∀ x, x ∈ lr ↔ x ∈ lr') →
  _check_no_interleaving_cols (PyList ln) (PyList lc) (PyList lr)
  = _check_no_interleaving_cols (PyList ln') (PyList lc') (PyList lr').
Proof.
  intros Hn Hc Hr. unfold _check_no_interleaving_cols.
  cbn [_cols_normalize is_none isinstance_str].
  by rewrite (py_set_list_ext ln ln'), (py_set_list_ext lc lc'),
    (py_set_list_ext lr lr').
Qed.

Lemma check_no_interleaving_cols_compares_sets_witness :
  _check_no_interleaving_cols (PyList [PyInt 1; PyInt 1; PyInt 2])
    (PyList [PyInt 3]) (PyList [])
  = _check_no_interleaving_cols (PyList [PyInt 2; PyInt 1])
      (PyList [PyInt 3; PyInt 3]) (PyList [])
  ∧ _check_no_interleaving_cols (PyList [PyInt 1; PyInt 1; PyInt 2])
      (PyList [PyInt 3]) (PyList []) = Return true.
Proof.
  split; [|reflexivity].
  apply (check_no_interleaving_cols_compares_sets
           [PyInt 1; PyInt 1; PyInt 2] [PyInt 2; PyInt 1]
           [PyInt 3] [PyInt 3; PyInt 3] [] []).
  - intros x. rewrite !elem_of_cons. tauto.
  - intros x. rewrite !elem_of_cons. tauto.
  - done.
Defined.

(** Normalizing twice changes nothing: the driver hands the validator
    column specifications it has already normalized, and the validator's
    own normalization leaves them, and its answer, as they are. *)
Theorem normalizing_twice_changes_nothing n c r :
  _cols_normalize (_cols_normalize n) = _cols_normalize n
  ∧ _check_no_interleaving_cols (_cols_normalize n) (_cols_normalize c)
      (_cols_normalize r)
    = _check_no_interleaving_cols n c r.
Proof.
  split; [apply cols_normalize_idemp|apply check_no_interleaving_cols_normalized].
Qed.




